(** * Verification of the pharma intake backend

    A shallow embedding of the questionnaire engine ([app/api/survey.py]),
    the run endpoints ([app/routes/runs.py]), the case event service
    ([app/services/case_events.py]) and the in-memory run store
    ([app/services/storage.py]), with the properties the specification
    states about them.

    Conventions.  A Python [str] is a [string]: a sequence of code points
    below 256.  A Python [int] is a [Z].  An exception is a value of [fault]
    carried by [Err]; a function that can raise returns a [result]. *)

From Stdlib Require Import ZArith Ascii String List Bool Lia.
From Stdlib Require Import DecimalString DecimalN.
From stdpp Require Import base option list gmap strings.

Set Warnings "-register-all".

Local Open Scope Z_scope.
Local Open Scope stdpp_scope.

(** * Exceptions and the error monad *)

(** The error codes of the uniform error envelope. *)
Inductive error_code :=
| UNKNOWN_QUESTION | MISSING_ANSWER | DATE_FORMAT | BROKEN_DEFINITION
| UNSUPPORTED_TYPE | INVALID_ANSWER | UNKNOWN_RUN | STATUS_INACTIVE
| FLOW_DIVERGENCE.

(** [{"version": ..., "timestamp": ...}] *)
Record meta := Meta { version : string; timestamp : string }.

(** What the code raises.  [HTTPException] carries the status code and the
    [detail] dictionary [{"error": {"code", "message"}, "meta"}]; the one
    place that builds a detail without ["meta"] has [None] there. *)
Inductive fault :=
| HTTPException (status_code : Z) (code : error_code) (message : string)
                (m : option meta)
| KeyError (key : string)
| TypeError (msg : string)
| ValueError (msg : string)
| RecursionError
| SystemError (msg : string).

Inductive result (A : Type) :=
| Ok (a : A)
| Err (e : fault).
Arguments Ok {A} a.
Arguments Err {A} e.

Definition bind {A B} (r : result A) (k : A -> result B) : result B :=
  match r with
  | Ok a => k a
  | Err e => Err e
  end.

Notation "x <- r ;; k" := (bind r (fun x => k))
  (at level 100, r at next level, right associativity, only parsing).

(** Code that works on a state [S]: it may raise, and it leaves a state
    behind either way. *)
Definition action (S A : Type) := S -> result A * S.

Definition raise {S A} (e : fault) : action S A := fun w => (Err e, w).

Definition pure {S A} (a : A) : action S A := fun w => (Ok a, w).

Definition and_then {S A B} (c : action S A) (k : A -> action S B) : action S B :=
  fun w =>
    match c w with
    | (Ok a, w') => k a w'
    | (Err e, w') => (Err e, w')
    end.

(** A computation that does not touch the state. *)
Definition lift {S A} (r : result A) : action S A := fun w => (r, w).

Notation "x <~ c ;; k" := (and_then c (fun x => k))
  (at level 100, c at next level, right associativity, only parsing).

(** The computation raises an HTTP error with this status and code. *)
Definition fails_with {A} (r : result A) (status : Z) (c : error_code) : Prop :=
  exists msg m, r = Err (HTTPException status c msg m).

(** * Python strings *)

Module PyStr.

Definition code (c : ascii) : N := N_of_ascii c.

(** [str.isspace] on one code point below 256; [\s] of [re] on a [str]
    pattern is the same class. *)
Definition isspace (c : ascii) : bool :=
  let n := code c in
  ((9 <=? n) && (n <=? 13) || (28 <=? n) && (n <=? 32)
   || (n =? 133) || (n =? 160))%N.

(** [\d] of [re] on a [str] pattern: the decimal digits, which below 256
    are the ten ASCII ones. *)
Definition isdecimal (c : ascii) : bool :=
  let n := code c in ((48 <=? n) && (n <=? 57))%N.

(** [\w] of [re] on a [str] pattern: alphanumeric or underscore. *)
Definition isword (c : ascii) : bool :=
  let n := code c in
  (isdecimal c
   || (65 <=? n) && (n <=? 90) || (97 <=? n) && (n <=? 122) || (n =? 95)
   || (n =? 170) || (n =? 178) || (n =? 179) || (n =? 181) || (n =? 185)
   || (n =? 186) || (188 <=? n) && (n <=? 190)
   || (192 <=? n) && (n <=? 214) || (216 <=? n) && (n <=? 246)
   || (248 <=? n))%N.

Fixpoint lstrip (s : string) : string :=
  match s with
  | EmptyString => EmptyString
  | String c r => if isspace c then lstrip r else s
  end.

Fixpoint rstrip (s : string) : string :=
  match s with
  | EmptyString => EmptyString
  | String c r =>
      match rstrip r with
      | EmptyString => if isspace c then EmptyString else String c EmptyString
      | r' => String c r'
      end
  end.

(** [s.strip()] *)
Definition strip (s : string) : string := rstrip (lstrip s).

(** Truth value of a string: non-empty. *)
Definition truthy (s : string) : bool :=
  match s with EmptyString => false | _ => true end.

(** [re.fullmatch(r"\d{4}-\d{2}-\d{2}", s)] matches. *)
Definition fullmatch_iso_date (s : string) : bool :=
  match list_ascii_of_string s with
  | [y1; y2; y3; y4; h1; m1; m2; h2; d1; d2] =>
      isdecimal y1 && isdecimal y2 && isdecimal y3 && isdecimal y4
      && Ascii.eqb h1 "-" && isdecimal m1 && isdecimal m2
      && Ascii.eqb h2 "-" && isdecimal d1 && isdecimal d2
  | _ => false
  end.

(** The longest prefix of decimal digits and what follows it. *)
Fixpoint span_digits (s : string) : string * string :=
  match s with
  | String c r =>
      if isdecimal c
      then let '(ds, rest) := span_digits r in (String c ds, rest)
      else (EmptyString, s)
  | EmptyString => (EmptyString, EmptyString)
  end.

(** [int(ds)] for a string of ASCII digits, most significant first. *)
Fixpoint int_of_digits (acc : Z) (ds : string) : Z :=
  match ds with
  | EmptyString => acc
  | String c r => int_of_digits (10 * acc + (Z.of_N (code c) - 48)) r
  end.

(** [m = re.match(r"\s*(\d+)\b", s)] and [int(m.group(1))].  The classes
    [\s] and [\d] are disjoint, so [\s*] takes all the leading blanks;
    [\d+] takes the whole digit run, because giving a digit back would
    leave [\b] between two word characters. *)
Definition match_leading_int (s : string) : option Z :=
  let '(ds, rest) := span_digits (lstrip s) in
  match ds with
  | EmptyString => None
  | _ =>
      match rest with
      | EmptyString => Some (int_of_digits 0 ds)
      | String c _ => if isword c then None else Some (int_of_digits 0 ds)
      end
  end.

End PyStr.

(** * Dictionaries with insertion order *)

(** A dict literal of the source whose order is observable (sections,
    options) is an association list in the order of the literal. *)
Fixpoint assoc {V} (k : string) (d : list (string * V)) : option V :=
  match d with
  | [] => None
  | (k', v) :: d' => if String.eqb k k' then Some v else assoc k d'
  end.

(** [k in d] *)
Definition has_key {V} (k : string) (d : list (string * V)) : bool :=
  match assoc k d with Some _ => true | None => false end.

(** [d[k]] *)
Definition subscript {V} (d : list (string * V)) (k : string) : result V :=
  match assoc k d with
  | Some v => Ok v
  | None => Err (KeyError k)
  end.

(** * The questionnaire ([app/api/survey.py]) *)

Module Survey.

(** An option of a choice node: [{"label": ..., "next": ...}]. *)
Record option_def := Opt { label : string; next : option string }.

(** A value of a ["constraints"] dictionary. *)
Inductive cval := CBool (b : bool) | CStr (s : string).

(** A node of the question graph.  [node_next] is [node.get("next")]: [None]
    when the key is missing or holds [None]. *)
Record node := Node {
  node_id : string;
  node_text : string;
  node_type : string;
  node_options : option (list (string * option_def));
  node_next : option string;
  node_hints : option (list (string * string));
  node_constraints : option (list (string * cval))
}.

Definition section := list (string * node).

Definition choice_node (qid type text : string)
    (options : list (string * option_def))
    (constraints : option (list (string * cval))) : node :=
  Node qid text type (Some options) None None constraints.

Definition text_node (qid text : string) (nxt : option string)
    (hints : option (list (string * string)))
    (constraints : option (list (string * cval))) : node :=
  Node qid text "free_text" None nxt hints constraints.

Definition required : option (list (string * cval)) :=
  Some [("required", CBool true)].

Definition placeholder (s : string) : option (list (string * string)) :=
  Some [("placeholder", s)].

Definition min_criteria_questions : section :=
  [
    ("q1", choice_node "q1" "single_choice"
       "Who is reporting this information?"
       [("a", Opt "I am a healthcare professional (HCP)" (Some "q2"));
        ("b", Opt "I am not a healthcare professional (consumer)" (Some "q2"));
        ("c", Opt "This is from a published article (literature)" (Some "q2"));
        ("d", Opt "This is from a partner organization" (Some "q2"));
        ("e", Opt "This is from a study" (Some "q2"))]
       required);
    ("q2", choice_node "q2" "single_choice"
       "Can we contact you for follow-up if needed?"
       [("a", Opt "Yes" (Some "q2a"));
        ("b", Opt "No" (Some "q3"))]
       required);
    ("q2a", choice_node "q2a" "single_choice"
       "What is the best way to contact you?"
       [("a", Opt "Email" (Some "q2a_email"));
        ("b", Opt "Phone" (Some "q2a_phone"));
        ("c", Opt "Other" (Some "q2a_other"))]
       required);
    ("q2a_email", text_node "q2a_email"
       "Enter your email address"
       (Some "q3")
       (placeholder "name@example.com") required);
    ("q2a_phone", text_node "q2a_phone"
       "Enter your phone number"
       (Some "q3")
       (placeholder "e.g., +1 555 555 5555") required);
    ("q2a_other", text_node "q2a_other"
       "Enter the best way to contact you"
       (Some "q3")
       (placeholder "e.g., secure portal message") required);
    ("q3", choice_node "q3" "single_choice"
       "Are you the person who experienced the event?"
       [("a", Opt "Yes (I am the patient)" (Some "q4"));
        ("b", Opt "No (I am reporting for someone else)" (Some "q3a"))]
       required);
    ("q3a", choice_node "q3a" "single_choice"
       "What is your relationship to the patient?"
       [("a", Opt "Parent/Guardian" (Some "q4"));
        ("b", Opt "Spouse/Partner" (Some "q4"));
        ("c", Opt "Family member" (Some "q4"));
        ("d", Opt "Caregiver" (Some "q4"));
        ("e", Opt "Friend/Other" (Some "q3a_other"))]
       required);
    ("q3a_other", text_node "q3a_other"
       "Describe your relationship to the patient"
       (Some "q4")
       (placeholder "e.g., roommate, coach, etc.") required);
    ("q4", choice_node "q4" "single_choice"
       "Please provide at least one detail about the person who experienced the event."
       [("a", Opt "Age" (Some "q4a"));
        ("b", Opt "Sex" (Some "q4b"));
        ("c", Opt "Initials (optional identifier)" (Some "q4c"));
        ("d", Opt "I don't know any of these" (Some "q4_missing"))]
       required);
    ("q4a", text_node "q4a"
       "Enter the patient's age (number only)"
       (Some "q4a_unit")
       (placeholder "e.g., 34") required);
    ("q4a_unit", choice_node "q4a_unit" "single_choice"
       "Select the age unit"
       [("a", Opt "Years" (Some "q5"));
        ("b", Opt "Months" (Some "q5"));
        ("c", Opt "Days" (Some "q5"));
        ("d", Opt "Unknown" (Some "q5"))]
       required);
    ("q4b", choice_node "q4b" "single_choice"
       "Select the patient's sex"
       [("a", Opt "Male" (Some "q5"));
        ("b", Opt "Female" (Some "q5"));
        ("c", Opt "Other" (Some "q5"));
        ("d", Opt "Unknown" (Some "q5"))]
       required);
    ("q4c", text_node "q4c"
       "Enter the patient's initials"
       (Some "q5")
       (placeholder "e.g., J.D.") required);
    ("q4_missing", choice_node "q4_missing" "single_choice"
       "Understood. Without at least one patient detail (age, sex, or initials), the report may be incomplete. Would you like to proceed anyway?"
       [("a", Opt "Yes, proceed" (Some "q5"));
        ("b", Opt "No, go back" (Some "q4"))]
       required);
    ("q5", text_node "q5"
       "What product do you believe is related to the event?"
       (Some "q6")
       (placeholder "e.g., medication/vaccine name") required);
    ("q6", text_node "q6"
       "What happened?"
       (Some "GOTO:ae_selector:q1")
       (placeholder "Describe the symptoms or event in your own words") required)
  ].

Definition ae_selector : section :=
  [
    ("q1", choice_node "q1" "single_choice"
       "Which symptom category best matches?"
       [("a", Opt "Abdominal / GI" (Some "GOTO:abdominal_questions:q1"));
        ("b", Opt "Headache / Neuro" (Some "GOTO:headache_questions:q1"));
        ("c", Opt "Vomiting" (Some "GOTO:vomiting_questions:q1"))]
       None)
  ].

Definition abdominal_questions : section :=
  [
    ("q1", choice_node "q1" "single_choice"
       "When did this symptom start?"
       [("a", Opt "Exact date, if known" (Some "q1a"));
        ("b", Opt "Approximate date" (Some "q1b"))]
       None);
    ("q1a", text_node "q1a"
       "Enter the exact date (YYYY-MM-DD)"
       (Some "q2")
       (placeholder "YYYY-MM-DD") required);
    ("q1b", text_node "q1b"
       "Enter an approximate date (e.g., 'about 2 weeks ago')"
       (Some "q2")
       (placeholder "e.g., about 2 weeks ago") required);
    ("q2", choice_node "q2" "single_choice"
       "Do you still have pain?"
       [("a", Opt "Yes. Go to #4." (Some "q4"));
        ("b", Opt "No." (Some "q3"))]
       None);
    ("q3", choice_node "q3" "single_choice"
       "When did the symptom stop?"
       [("a", Opt "Exact date, if known" (Some "q4"));
        ("b", Opt "Approximate date" (Some "q3b"))]
       None);
    ("q3a", text_node "q3a"
       "Enter the exact date (YYYY-MM-DD)"
       (Some "q4")
       (placeholder "YYYY-MM-DD") required);
    ("q3b", text_node "q3b"
       "Enter an approximate date the symptoms stopped (e.g., 'about 2 weeks ago')"
       (Some "q4")
       (placeholder "e.g., about 2 weeks ago") required);
    ("q4", choice_node "q4" "single_choice"
       "Is (was) the pain:"
       [("a", Opt "Sharp?" (Some "q5"));
        ("b", Opt "Dull?" (Some "q5"));
        ("c", Opt "Throbbing?" (Some "q5"));
        ("d", Opt "Burning?" (Some "q5"));
        ("e", Opt "Cramping?" (Some "q5"))]
       None);
    ("q5", choice_node "q5" "scale"
       "How would you grade the intensity of the pain? (Refer to visual analog pain scale)"
       [("a", Opt "2 - Hurts Little Bit" (Some "q6"));
        ("b", Opt "4 - Hurts Little More" (Some "q6"));
        ("c", Opt "6 - Hurts Even More" (Some "q6"));
        ("d", Opt "8 - Hurts Whole Lot" (Some "q6"));
        ("e", Opt "10 - Hurts Worst" (Some "q6"))]
       None);
    ("q6", choice_node "q6" "single_choice"
       "Does (did) the symptom disrupt your sleep?"
       [("a", Opt "Yes." (Some "q7"));
        ("b", Opt "No." (Some "q7"));
        ("c", Opt "N/A. I did not have pain during sleep." (Some "q7"))]
       None);
    ("q7", choice_node "q7" "single_choice"
       "Is (was) the abdominal pain localized or generalized?"
       [("a", Opt "Localized. (Confined to one specific area of the body)" (Some "q8"));
        ("b", Opt "Generalized. (Affect the entire body or a large region of it)" (Some "q9"))]
       None);
    ("q8", choice_node "q8" "single_choice"
       "Where in the abdomen is (was) the pain mainly located? (Refer to figure 1.)"
       [("a", Opt "Upper right side (RUQ)" (Some "q9"));
        ("b", Opt "Lower right side (RLQ)" (Some "q9"));
        ("c", Opt "Upper left side (LUQ)" (Some "q9"));
        ("d", Opt "Lower left side (LLQ)" (Some "q9"));
        ("e", Opt "Upper central (epigastric)" (Some "q9"));
        ("f", Opt "Middle central (periumbilical)" (Some "q9"));
        ("g", Opt "Lower central (suprapubic)" (Some "q9"))]
       None);
    ("q9", choice_node "q9" "single_choice"
       "Does (did) the pain radiate?"
       [("a", Opt "Yes." (Some "q10"));
        ("b", Opt "No. Go to #11." (Some "q11"))]
       None);
    ("q10", text_node "q10"
       "Where does (did) the pain radiate? (Refer to figure 1.)"
       (Some "q11")
       (placeholder "e.g., back, shoulder, groin") required);
    ("q11", choice_node "q11" "single_choice"
       "If you are still having this symptom, is it:"
       [("a", Opt "Worsening?" (Some "q12"));
        ("b", Opt "Stable?" (Some "q12"));
        ("c", Opt "Improving?" (Some "q12"));
        ("d", Opt "Unsure." (Some "q12"));
        ("e", Opt "No longer having pain." (Some "q12"))]
       None);
    ("q12", choice_node "q12" "single_choice"
       "The symptom"
       [("a", Opt "Has not affected my daily routine at all." (Some "q13"));
        ("b", Opt "Has caused me to cancel some of my daily routine." (Some "q13"));
        ("c", Opt "Has caused me to cancel all of my daily routine." (Some "q13"))]
       None);
    ("q13", choice_node "q13" "single_choice"
       "Is (was) there any abdominal tenderness (area tender to touch)?"
       [("a", Opt "Yes" (Some "q14"));
        ("b", Opt "No" (Some "q14"))]
       None);
    ("q14", choice_node "q14" "single_choice"
       "Have you had any recent trauma before the symptom began?"
       [("a", Opt "Yes." (Some "q15"));
        ("b", Opt "No." (Some "q15"))]
       None);
    ("q15", choice_node "q15" "single_choice"
       "Is (was) the abdominal pain positional (better/worse in a position)?"
       [("a", Opt "Yes." (Some "q16"));
        ("b", Opt "No." (Some "q16"))]
       None);
    ("q16", choice_node "q16" "single_choice"
       "Does (did) anything appear to lessen or improve the symptom?"
       [("a", Opt "Yes. What?" (Some "q16a"));
        ("b", Opt "No." (Some "q17"))]
       None);
    ("q16a", text_node "q16a"
       "What improves the symptom?"
       (Some "q17")
       (placeholder "e.g., rest, heat, medication name") required);
    ("q17", choice_node "q17" "single_choice"
       "Does (did) anything appear to worsen the symptom?"
       [("a", Opt "Yes. What?" (Some "q17a"));
        ("b", Opt "No." (Some "q18"))]
       None);
    ("q17a", text_node "q17a"
       "What worsens the symptom?"
       (Some "q18")
       (placeholder "e.g., certain foods, movement") required);
    ("q18", choice_node "q18" "single_choice"
       "Does (did) taking a deep breath worsen the abdominal pain?"
       [("a", Opt "Yes." (Some "q19"));
        ("b", Opt "No." (Some "q19"))]
       None);
    ("q19", choice_node "q19" "single_choice"
       "Are you under any unusual stress?"
       [("a", Opt "Yes. What?" (Some "q19a"));
        ("b", Opt "No." (Some "q20"))]
       None);
    ("q19a", text_node "q19a"
       "Describe the stress:"
       (Some "q20")
       (placeholder "brief description") required);
    ("q20", choice_node "q20" "single_choice"
       "Did anything appear to cause this symptom?"
       [("a", Opt "Yes. What?" (Some "q20a"));
        ("b", Opt "No." None)]
       None);
    ("q20a", text_node "q20a"
       "What do you think caused the symptom?"
       (Some "q21")
       (placeholder "brief description") required)
  ].

Definition headache_questions : section := [].

Definition SURVEY_DEFINITION : list (string * section) :=
  [("min_criteria_questions", min_criteria_questions);
   ("ae_selector", ae_selector);
   ("abdominal_questions", abdominal_questions);
   ("headache_questions", headache_questions)].

Definition START_ID : string := "q1".

(** ** Requests, answers and responses *)

(** [SurveyRequest]: both fields are [Optional[str]]. *)
Record SurveyRequest := { question_id : option string; answer : option string }.

(** [HistoryStep].  The handler tests the answer against [None], so the
    model lets it be absent. *)
Record HistoryStep := { step_question_id : string; step_answer : option string }.

(** The typed answer records the replay stores in [answers_by_id]:
    [{"type": "free_text", "value"}], [{"type", "key", "label"}], and the
    latter with a ["score"] for a scale node. *)
Inductive answer_record :=
| FreeTextAnswer (value : string)
| ChoiceAnswer (type key label : string)
| ScaleAnswer (type key label : string) (score : option Z).

(** [record["value"]] *)
Definition get_value (r : answer_record) : result string :=
  match r with
  | FreeTextAnswer v => Ok v
  | _ => Err (KeyError "value")
  end.

(** [record["key"]] *)
Definition get_key (r : answer_record) : result string :=
  match r with
  | ChoiceAnswer _ k _ | ScaleAnswer _ k _ _ => Ok k
  | FreeTextAnswer _ => Err (KeyError "key")
  end.

(** [record.get("label")] *)
Definition get_label (r : answer_record) : option string :=
  match r with
  | ChoiceAnswer _ _ l | ScaleAnswer _ _ l _ => Some l
  | FreeTextAnswer _ => None
  end.

(** [record.get("score")] *)
Definition get_score (r : answer_record) : option Z :=
  match r with
  | ScaleAnswer _ _ _ s => s
  | _ => None
  end.

Record summary := Summary {
  started_at_precision : option string;
  started_at_value : option string;
  still_pain : option bool;
  pain_quality : option string;
  pain_scale : option Z;
  requires_attention : bool
}.

(** The ["next"] object of a rendered question. *)
Record rendered := Rendered {
  r_id : string;
  r_text : string;
  r_type : string;
  r_options : option (list (string * string));
  r_hints : option (list (string * string));
  r_constraints : option (list (string * cval))
}.

(** A success body: [{"next", "done", "meta"}], with ["summary"] when the
    replay ends the flow. *)
Record response := Response {
  resp_next : option rendered;
  resp_done : bool;
  resp_summary : option summary;
  resp_meta : meta
}.

Section Engine.

(** [app.core.config.SURVEY_VERSION], the version string of the
    questionnaire: a parameter of the engine. *)
Variable SURVEY_VERSION : string.

(** [build_meta()]; [now] is the clock reading, already rendered as
    ISO-8601 with milliseconds and a [Z] suffix. *)
Definition build_meta (now : string) : meta :=
  {| version := SURVEY_VERSION; timestamp := now |}.

Definition http_error (status : Z) (c : error_code) (msg now : string) : fault :=
  HTTPException status c msg (Some (build_meta now)).

Definition show_question (now : string) (question : node) : response :=
  {| resp_next := Some
       {| r_id := node_id question;
          r_text := node_text question;
          r_type := node_type question;
          r_options :=
            match node_options question with
            | Some opts => Some (map (fun kv => (fst kv, label (snd kv))) opts)
            | None => None
            end;
          r_hints := node_hints question;
          r_constraints := node_constraints question |};
     resp_done := false;
     resp_summary := None;
     resp_meta := build_meta now |}.

(** [{"next": None, "done": True, "meta": build_meta()}] *)
Definition flow_done (now : string) : response :=
  {| resp_next := None; resp_done := true; resp_summary := None;
     resp_meta := build_meta now |}.

(** [x is None or not isinstance(x, str) or not x.strip()] *)
Definition is_blank (x : option string) : bool :=
  match x with
  | None => true
  | Some s => negb (PyStr.truthy (PyStr.strip s))
  end.

(** ** [survey_next]: the stateless single step *)

Definition survey_next (now : string) (request : SurveyRequest) : result response :=
  let active_section := "min_criteria" in
  match question_id request with
  | None =>
      sec <- subscript SURVEY_DEFINITION active_section ;;
      current <- subscript sec START_ID ;;
      Ok (show_question now current)
  | Some qid =>
      qmap <- subscript SURVEY_DEFINITION active_section ;;
      if negb (has_key qid qmap) then
        Err (http_error 400 UNKNOWN_QUESTION ("Invalid question ID: " +:+ qid) now)
      else
      current <- subscript qmap qid ;;
      if String.eqb (node_type current) "free_text" then
        let ans_text := answer request in
        if is_blank ans_text then
          Err (http_error 400 MISSING_ANSWER
                 ("Missing answer for " +:+ qid +:+ ": " +:+ node_text current) now)
        else
        let needs_iso_date :=
          String.eqb (node_id current) "q1a"
          || match assoc "pattern" (default [] (node_constraints current)) with
             | Some (CStr p) => String.eqb p "ISO_YYYY_MM_DD"
             | _ => false
             end in
        if needs_iso_date
           && negb (PyStr.fullmatch_iso_date (PyStr.strip (default "" ans_text)))
        then Err (http_error 400 DATE_FORMAT "Use YYYY-MM-DD (e.g., 2025-09-01)" now)
        else
        match node_next current with
        | None => Ok (flow_done now)
        | Some next_qid =>
            if String.eqb next_qid "END" then Ok (flow_done now)
            else if negb (has_key next_qid qmap) then
              Err (http_error 500 BROKEN_DEFINITION
                     ("free_text '" +:+ qid +:+ "' points to unknown question '"
                      +:+ next_qid +:+ "'") now)
            else
              next_node <- subscript qmap next_qid ;;
              Ok (show_question now next_node)
        end
      else if negb (String.eqb (node_type current) "single_choice"
                    || String.eqb (node_type current) "scale") then
        Err (http_error 400 UNSUPPORTED_TYPE
               ("Unsupported type " +:+ node_type current) now)
      else
      let ans_key := answer request in
      ans_options <- match node_options current with
                     | Some o => Ok o
                     | None => Err (KeyError "options")
                     end ;;
      match ans_key with
      | None =>
          Err (http_error 400 MISSING_ANSWER
                 ("Missing answer for " +:+ qid +:+ ": " +:+ node_text current) now)
      | Some k =>
          if String.eqb (PyStr.strip k) "" then
            Err (http_error 400 MISSING_ANSWER
                   ("Missing answer for " +:+ qid +:+ ": " +:+ node_text current) now)
          else
          match assoc k ans_options with
          | Some opt =>
              match next opt with
              | None => Ok (flow_done now)
              | Some next_qid =>
                  if negb (has_key next_qid qmap) then
                    Err (http_error 500 BROKEN_DEFINITION
                           ("Option '" +:+ k +:+ "' on '" +:+ qid
                            +:+ "' points to unknown question '" +:+ next_qid +:+ "'") now)
                  else
                    next_node <- subscript qmap next_qid ;;
                    Ok (show_question now next_node)
              end
          | None =>
              Err (http_error 400 INVALID_ANSWER ("Answer not allowed for " +:+ qid) now)
          end
      end
  end.

(** ** [_parse_scale] and [_build_summary] *)

(** [re.match(r"\s*(\d+)\b", label or "")], then [int(m.group(1))]. *)
Definition _parse_scale (lbl : string) : option Z := PyStr.match_leading_int lbl.

Definition _build_summary (answers_by_id : gmap string answer_record) : result summary :=
  started <-
    match answers_by_id !! "q1a" with
    | Some r => v <- get_value r ;; Ok (Some "exact", Some v)
    | None =>
        match answers_by_id !! "q1b" with
        | Some r => v <- get_value r ;; Ok (Some "approx", Some v)
        | None => Ok (None, None)
        end
    end ;;
  still <-
    match answers_by_id !! "q2" with
    | Some r => k <- get_key r ;; Ok (Some (String.eqb k "a"))
    | None => Ok None
    end ;;
  let pain_quality := r ← answers_by_id !! "q4"; get_label r in
  let pain_scale := r ← answers_by_id !! "q5"; get_score r in
  let requires_attention :=
    match pain_scale with
    | Some n => 8 <=? n
    | None => false
    end in
  Ok {| started_at_precision := fst started;
        started_at_value := snd started;
        still_pain := still;
        pain_quality := pain_quality;
        pain_scale := pain_scale;
        requires_attention := requires_attention |}.

(** ** [evaluate_survey_progress]: replay of a history *)

(** How one iteration of the loop leaves: on to the next step with a new
    cursor, or out of the function because the flow ended. *)
Inductive step_outcome :=
| Advance (cursor : string) (answers_by_id : gmap string answer_record)
| Finish (answers_by_id : gmap string answer_record).

(** The body of [for step in steps]. *)
Definition evaluate_step (now : string) (qmap : section) (cursor : string)
    (answers_by_id : gmap string answer_record) (step : HistoryStep)
    : result step_outcome :=
  if negb (String.eqb (step_question_id step) cursor) then
    Err (http_error 400 FLOW_DIVERGENCE
           ("Expected '" +:+ cursor +:+ "', got '" +:+ step_question_id step +:+ "'") now)
  else if negb (has_key cursor qmap) then
    Err (http_error 500 BROKEN_DEFINITION
           ("Missing node for expected cursor '" +:+ cursor +:+ "'") now)
  else
  node <- subscript qmap cursor ;;
  let qtype := node_type node in
  recorded <-
    (if String.eqb qtype "free_text" then
       let val := step_answer step in
       if is_blank val then
         Err (http_error 400 MISSING_ANSWER
                ("Missing answer for " +:+ cursor +:+ ": " +:+ node_text node) now)
       else
       let v := PyStr.strip (default "" val) in
       if String.eqb (node_id node) "q1a" && negb (PyStr.fullmatch_iso_date v) then
         Err (http_error 400 DATE_FORMAT "Use YYYY-MM-DD (e.g., 2025-09-01)" now)
       else
         Ok (<[cursor := FreeTextAnswer v]> answers_by_id, node_next node)
     else if String.eqb qtype "single_choice" || String.eqb qtype "scale" then
       let key := step_answer step in
       if is_blank key then
         Err (http_error 400 MISSING_ANSWER
                ("Missing answer for " +:+ cursor +:+ ": " +:+ node_text node) now)
       else
       let k := default "" key in
       opts <- match node_options node with
               | Some o => Ok o
               | None => Err (KeyError "options")
               end ;;
       match assoc k opts with
       | None =>
           Err (http_error 400 INVALID_ANSWER
                  ("Answer key '" +:+ k +:+ "' not allowed for " +:+ cursor) now)
       | Some opt =>
           let record :=
             if String.eqb qtype "scale"
             then ScaleAnswer qtype k (label opt) (_parse_scale (label opt))
             else ChoiceAnswer qtype k (label opt) in
           Ok (<[cursor := record]> answers_by_id, next opt)
       end
     else
       Err (http_error 400 UNSUPPORTED_TYPE
              ("Unsupported type " +:+ qtype +:+ " on " +:+ cursor) now)) ;;
  let '(answers_by_id', next_id) := recorded in
  match next_id with
  | None => Ok (Finish answers_by_id')
  | Some nid =>
      if negb (has_key nid qmap) then
        Err (http_error 500 BROKEN_DEFINITION
               ("'" +:+ cursor +:+ "' points to unknown next '" +:+ nid +:+ "'") now)
      else Ok (Advance nid answers_by_id')
  end.

(** The loop, from a cursor and the answers recorded so far. *)
Fixpoint evaluate_loop (now : string) (qmap : section) (steps : list HistoryStep)
    (cursor : string) (answers_by_id : gmap string answer_record)
    : result step_outcome :=
  match steps with
  | [] => Ok (Advance cursor answers_by_id)
  | step :: rest =>
      o <- evaluate_step now qmap cursor answers_by_id step ;;
      match o with
      | Advance c a => evaluate_loop now qmap rest c a
      | Finish a => Ok (Finish a)
      end
  end.

Definition evaluate_survey_progress (now : string) (history : list HistoryStep)
    : result response :=
  qmap <- subscript SURVEY_DEFINITION "abdominal_questions" ;;
  let cursor := START_ID in
  match history with
  | [] => node <- subscript qmap cursor ;; Ok (show_question now node)
  | _ =>
      o <- evaluate_loop now qmap history cursor ∅ ;;
      match o with
      | Finish answers_by_id =>
          s <- _build_summary answers_by_id ;;
          Ok {| resp_next := None; resp_done := true; resp_summary := Some s;
                resp_meta := build_meta now |}
      | Advance c _ => node <- subscript qmap c ;; Ok (show_question now node)
      end
  end.

End Engine.

End Survey.

(** * The in-memory run store ([app/services/storage.py]) *)

(** Run records are dictionaries that hold lists and dictionaries, and the
    store's contract is about who can reach which of these objects.  The
    model therefore has the interpreter's heap: mutable containers live at
    addresses and values refer to them. *)

Module Storage.

(** An address of the heap. *)
Abbreviation addr := nat (only parsing).

(** A value: an immutable scalar or a reference to a container. *)
Inductive val :=
| VNone
| VBool (b : bool)
| VInt (n : Z)
| VStr (s : string)
| VRef (a : addr).

(** A container.  The keys of the dictionaries of a run record are
    strings; a dictionary keeps the order of insertion. *)
Inductive obj :=
| ODict (entries : list (string * val))
| OList (items : list val).

(** The state of the process: the heap (an object's address is its index; a
    new object goes to the end) and the store's private [_runs] dictionary.
    Its keys are hashable scalars: [None], a string or an integer ([True] and
    [False] are the keys [1] and [0]). *)
Record state := State {
  heap : list obj;
  _runs : gmap (option (string + Z)) addr
}.

Definition refs_of_val (x : val) : list addr :=
  match x with VRef a => [a] | _ => [] end.

Definition refs_of (o : obj) : list addr :=
  match o with
  | ODict entries => flat_map (fun kv => refs_of_val (snd kv)) entries
  | OList items => flat_map refs_of_val items
  end.

(** [d[k] = v] on the entries of a dictionary. *)
Fixpoint dict_set (k : string) (v : val) (entries : list (string * val))
    : list (string * val) :=
  match entries with
  | [] => [(k, v)]
  | (k', v') :: rest =>
      if String.eqb k k' then (k', v) :: rest else (k', v') :: dict_set k v rest
  end.

(** A dictionary has each key once. *)
Definition wf_obj (o : obj) : Prop :=
  match o with
  | ODict entries => NoDup (map fst entries)
  | OList _ => True
  end.

(** Storing into the container at an address. *)
Definition put_entry (k : string) (v : val) (o : obj) : obj :=
  match o with
  | ODict entries => ODict (dict_set k v entries)
  | OList _ => o
  end.

Definition put_item (_ : unit) (v : val) (o : obj) : obj :=
  match o with
  | OList items => OList (items ++ [v])
  | ODict _ => o
  end.

(** Truth value of a Python value. *)
Definition truthy (h : list obj) (x : val) : bool :=
  match x with
  | VNone => false
  | VBool b => b
  | VInt n => negb (n =? 0)
  | VStr s => PyStr.truthy s
  | VRef a =>
      match h !! a with
      | Some (ODict []) | Some (OList []) | None => false
      | Some _ => true
      end
  end.

(** The key a value is as a dictionary key; containers are unhashable. *)
Definition hash_key (x : val) : result (option (string + Z)) :=
  match x with
  | VNone => Ok None
  | VBool b => Ok (Some (inr (if b then 1 else 0)))
  | VInt n => Ok (Some (inr n))
  | VStr s => Ok (Some (inl s))
  | VRef _ => Err (TypeError "unhashable type")
  end.

(** ** [copy.deepcopy] *)

(** The loop of [deepcopy] over the slots of a container: copy each value
    with [rec] and store it in the new container [y], which is already on
    the heap and in the memo. *)
Fixpoint copy_into {K} (rec : val -> list (addr * addr) -> list obj ->
                              result (val * list (addr * addr) * list obj))
    (put : K -> val -> obj -> obj) (y : addr) (slots : list (K * val))
    (memo : list (addr * addr)) (h : list obj)
    : result (list (addr * addr) * list obj) :=
  match slots with
  | [] => Ok (memo, h)
  | (k, v) :: rest =>
      r <- rec v memo h ;;
      let '(v', memo', h') := r in
      copy_into rec put y rest memo' (alter (put k v') y h')
  end.

Fixpoint memo_get (a : addr) (memo : list (addr * addr)) : option addr :=
  match memo with
  | [] => None
  | (a0, y) :: rest => if Nat.eqb a a0 then Some y else memo_get a rest
  end.

(** [copy.deepcopy(x, memo)].  Scalars are returned as they are.  A
    container met before is answered from the memo; otherwise an empty
    container is allocated, entered into the memo, and filled slot by slot.
    [depth] is what is left of the interpreter's recursion limit: at 0 the
    call raises [RecursionError].  A reference to no object cannot exist in
    Python; the model reports it as [SystemError]. *)
Fixpoint deepcopy (depth : nat) (x : val) (memo : list (addr * addr))
    (h : list obj) : result (val * list (addr * addr) * list obj) :=
  match x with
  | VRef a =>
      match memo_get a memo with
      | Some y => Ok (VRef y, memo, h)
      | None =>
          match depth with
          | O => Err RecursionError
          | S depth' =>
              let y := length h in
              match h !! a with
              | None => Err (SystemError "dangling reference")
              | Some (ODict entries) =>
                  r <- copy_into (deepcopy depth') put_entry y entries
                         ((a, y) :: memo) (h ++ [ODict []]) ;;
                  Ok (VRef y, fst r, snd r)
              | Some (OList items) =>
                  r <- copy_into (deepcopy depth') put_item y
                         (map (fun v => (tt, v)) items)
                         ((a, y) :: memo) (h ++ [OList []]) ;;
                  Ok (VRef y, fst r, snd r)
              end
          end
      end
  | _ => Ok (x, memo, h)
  end.

(** ** Operations on containers *)

(** [k in x] for the container at [x]. *)
Definition contains (h : list obj) (x : addr) (k : string) : result bool :=
  match h !! x with
  | Some (ODict entries) => Ok (has_key k entries)
  | Some (OList items) =>
      Ok (existsb (fun v => match v with VStr s => String.eqb s k | _ => false end) items)
  | None => Err (SystemError "dangling reference")
  end.

(** [x[k]] for the container at [x]. *)
Definition getitem (h : list obj) (x : addr) (k : string) : result val :=
  match h !! x with
  | Some (ODict entries) => subscript entries k
  | Some (OList _) => Err (TypeError "list indices must be integers or slices, not str")
  | None => Err (SystemError "dangling reference")
  end.

(** [x[k] = v] *)
Definition setitem (x : addr) (k : string) (v : val) (h : list obj) : list obj :=
  alter (put_entry k v) x h.

(** [x.setdefault(k, v)] *)
Definition setdefault (x : addr) (k : string) (v : val) (h : list obj) : list obj :=
  match h !! x with
  | Some (ODict entries) => if has_key k entries then h else setitem x k v h
  | _ => h
  end.

(** How a value reads inside an f-string, for the values a run id can be. *)
Definition format_val (x : val) : string :=
  match x with
  | VStr s => s
  | VNone => "None"
  | VBool true => "True"
  | VBool false => "False"
  | _ => "..."
  end.

(** ** [InMemoryRunStore] *)

(** A method of the store leaves a state behind whether it returns or
    raises.  The lock around each body orders concurrent callers; the model
    runs one call at a time. *)
Definition method (A : Type) := action state A.

(** Reading the heap with a function that may raise. *)
Definition reading {A} (f : list obj -> result A) : method A :=
  fun w => (f (heap w), w).

Definition set_heap (f : list obj -> list obj) : method unit :=
  fun w => (Ok tt, State (f (heap w)) (_runs w)).

Definition set_runs (f : gmap (option (string + Z)) addr -> gmap (option (string + Z)) addr)
    : method unit :=
  fun w => (Ok tt, State (heap w) (f (_runs w))).

Section Store.

(** What is left of the interpreter's recursion limit when the store is
    called. *)
Variable recursion_limit : nat.

(** [copy.deepcopy(x)], with a memo of its own; a copy that raises leaves
    nothing reachable behind. *)
Definition deepcopy_call (x : val) : method val :=
  fun w =>
    match deepcopy recursion_limit x [] (heap w) with
    | Ok (y, _, h') => (Ok y, State h' (_runs w))
    | Err e => (Err e, w)
    end.

(** ["run_id" not in run or not run["run_id"]] *)
Definition run_id_missing (run : addr) : method bool :=
  c <~ reading (fun h => contains h run "run_id") ;;
  if negb c then pure true
  else
    v <~ reading (fun h => getitem h run "run_id") ;;
    reading (fun h => Ok (negb (truthy h v))).

(** The address a method works on after a copy. *)
Definition as_ref (x : val) : method addr :=
  match x with
  | VRef a => pure a
  | _ => raise (SystemError "not a container")
  end.

Definition create_run (now : string) (run : addr) : method unit :=
  missing <~ run_id_missing run ;;
  if missing then raise (ValueError "create_run: run.run_id is required.")
  else
  rid <~ reading (fun h => getitem h run "run_id") ;;
  key <~ reading (fun _ => hash_key rid) ;;
  known <~ (fun w => (Ok (bool_decide (is_Some (_runs w !! key))), w)) ;;
  if known then
    raise (ValueError ("create_run: run_id '" +:+ format_val rid +:+ "' already exists."))
  else
  x <~ deepcopy_call (VRef run) ;;
  run' <~ as_ref x ;;
  _ <~ set_heap (setdefault run' "created_at" (VStr now)) ;;
  created <~ reading (fun h => getitem h run' "created_at") ;;
  _ <~ set_heap (setdefault run' "updated_at" created) ;;
  rid' <~ reading (fun h => getitem h run' "run_id") ;;
  key' <~ reading (fun _ => hash_key rid') ;;
  set_runs (insert key' run').

(** [copy.deepcopy(run) if run else None] *)
Definition get_run (run_id : string) : method val :=
  fun w =>
    match _runs w !! Some (inl run_id) with
    | Some run =>
        if truthy (heap w) (VRef run) then deepcopy_call (VRef run) w
        else (Ok VNone, w)
    | None => (Ok VNone, w)
    end.

(** The loop [for k, v in changes.items(): record[k] = v]. *)
Fixpoint apply_changes (record : addr) (changes : list (string * val))
    (h : list obj) : list obj :=
  match changes with
  | [] => h
  | (k, v) :: rest => apply_changes record rest (setitem record k v h)
  end.

Definition update_run (now : string) (run_id : string)
    (changes : list (string * val)) : method val :=
  fun w =>
    match _runs w !! Some (inl run_id) with
    | None => (Err (KeyError ("update_run: run_id '" +:+ run_id +:+ "' not found")), w)
    | Some record =>
        (_ <~ set_heap (apply_changes record changes) ;;
         _ <~ set_heap (setitem record "updated_at" (VStr now)) ;;
         deepcopy_call (VRef record)) w
    end.

Definition replace_run (now : string) (run : addr) : method val :=
  missing <~ run_id_missing run ;;
  if missing then raise (ValueError "replace_run: run.run_id is required")
  else
  run_id <~ reading (fun h => getitem h run "run_id") ;;
  key <~ reading (fun _ => hash_key run_id) ;;
  known <~ (fun w => (Ok (bool_decide (is_Some (_runs w !! key))), w)) ;;
  if negb known then
    raise (KeyError ("replace_run: run_id '" +:+ format_val run_id +:+ "' not found"))
  else
  x <~ deepcopy_call (VRef run) ;;
  new_run <~ as_ref x ;;
  _ <~ set_heap (setitem new_run "updated_at" (VStr now)) ;;
  _ <~ set_runs (insert key new_run) ;;
  deepcopy_call (VRef new_run).

(** ** The caller's side *)

(** A configuration: the state, and the addresses of the objects the code
    outside the store holds or can reach. *)
Record config := Config { st : state; held : gset addr }.

(** What the caller holds after a call returned [x]: the returned object
    and what was allocated from it on, which is its copy. *)
Definition receive (x : val) (w' : state) (K : gset addr) : gset addr :=
  match x with
  | VRef y => K ∪ set_seq y (length (heap w') - y)
  | _ => K
  end.

Definition receive_result (r : result val) (w' : state) (K : gset addr) : gset addr :=
  match r with
  | Ok x => receive x w' K
  | Err _ => K
  end.

(** What code outside the store can do: build an object from values it
    holds, overwrite an object it holds with such values, and call
    [create_run], [get_run] and [replace_run] with objects it holds. *)
Inductive step : config -> config -> Prop :=
| step_alloc w K o :
    wf_obj o ->
    (forall r, r ∈ refs_of o -> r ∈ K) ->
    step (Config w K)
         (Config (State (heap w ++ [o]) (_runs w)) (K ∪ {[length (heap w)]}))
| step_mutate w K a o :
    a ∈ K ->
    wf_obj o ->
    (forall r, r ∈ refs_of o -> r ∈ K) ->
    step (Config w K) (Config (State (<[a := o]> (heap w)) (_runs w)) K)
| step_create w K now run res w' :
    run ∈ K ->
    create_run now run w = (res, w') ->
    step (Config w K) (Config w' K)
| step_get w K run_id res w' :
    get_run run_id w = (res, w') ->
    step (Config w K) (Config w' (receive_result res w' K))
| step_replace w K now run res w' :
    run ∈ K ->
    replace_run now run w = (res, w') ->
    step (Config w K) (Config w' (receive_result res w' K)).

(** A process starts with an empty store. *)
Definition initial : config := Config (State [] ∅) ∅.

Definition reachable (c : config) : Prop := rtc step initial c.

End Store.

(** ** What a value looks like from outside *)

(** The value as a tree, the way it would be serialised; [fuel] bounds the
    nesting that is followed. *)
Inductive tree :=
| TNone
| TBool (b : bool)
| TInt (n : Z)
| TStr (s : string)
| TDict (entries : list (string * tree))
| TList (items : list tree).

Fixpoint reify (fuel : nat) (h : list obj) (x : val) : option tree :=
  match x with
  | VNone => Some TNone
  | VBool b => Some (TBool b)
  | VInt n => Some (TInt n)
  | VStr s => Some (TStr s)
  | VRef a =>
      match fuel with
      | O => None
      | S fuel' =>
          match h !! a with
          | Some (ODict entries) =>
              TDict <$> mapM (fun kv => pair (fst kv) <$> reify fuel' h (snd kv)) entries
          | Some (OList items) => TList <$> mapM (reify fuel' h) items
          | None => None
          end
      end
  end.

End Storage.

(** * The run endpoints ([app/routes/runs.py]) *)

Module Runs.

Import Survey Storage.

(** [QMAP = SURVEY_DEFINITION["questions"]], evaluated when the module
    is imported. *)
Definition QMAP : result section := subscript SURVEY_DEFINITION "questions".

(** The alphabet of [base64.urlsafe_b64encode]. *)
Definition b64url_alphabet : string :=
  "ABCDEFGHIJKLMNOPQRSTUVWXYZabcdefghijklmnopqrstuvwxyz0123456789-_".

Definition b64url_char (i : N) : ascii :=
  default "A"%char (String.get (N.to_nat i) b64url_alphabet).

(** The [k] most significant sextets of the [6 * k] low bits of [n]. *)
Fixpoint sextets (k : nat) (n : N) : string :=
  match k with
  | O => EmptyString
  | S k' =>
      String (b64url_char (N.land (N.shiftr n (6 * N.of_nat k')) 63)) (sextets k' n)
  end.

(** [base64.urlsafe_b64encode(uuid4().bytes).rstrip(b"=").decode("ascii")],
    with [u] the 128 bits of the UUID drawn: 22 characters, the last one
    holding the two bits left over. *)
Definition _new_run_id (u : N) : string :=
  sextets 22 (N.shiftl (N.land u (N.ones 128)) 4).

(** Python binds the arguments of a call to the parameters before the body
    runs; a required parameter left without an argument raises
    [TypeError]. *)
Definition required_arg {A} (fname pname : string) (arg : option A) : result A :=
  match arg with
  | Some a => Ok a
  | None =>
      Err (TypeError (fname +:+ "() missing 1 required positional argument: '"
                      +:+ pname +:+ "'"))
  end.

(** [{run_id, done, next, version, meta}] *)
Record begin_response := BeginResponse {
  b_run_id : string;
  b_done : bool;
  b_next : option rendered;
  b_version : string;
  b_meta : meta
}.

Section Endpoints.

Variable SURVEY_VERSION : string.
Variable recursion_limit : nat.

Definition _cursor_to_node (now : string) (cursor : option string)
    (active_section : string) : result (option node) :=
  if negb (has_key active_section SURVEY_DEFINITION) then
    Err (HTTPException 500 BROKEN_DEFINITION
           (active_section +:+ " not found in SURVEY_DEFINITON.") None)
  else
  qmap <- subscript SURVEY_DEFINITION active_section ;;
  match cursor with
  | None => Ok None
  | Some c =>
      if negb (has_key c qmap) then
        Err (http_error SURVEY_VERSION 500 BROKEN_DEFINITION
               ("Cursor '" +:+ c +:+ "' not found in SURVEY_DEFINITION.") now)
      else node <- subscript qmap c ;; Ok (Some node)
  end.

(** The dictionary display that builds the new record: the history list
    and the answers dictionary are allocated, then the record itself. *)
Definition new_record (run_id cursor : string) : method addr :=
  fun w =>
    let h := heap w in
    let history := length h in
    let answers_by_id := S history in
    let record := S answers_by_id in
    (Ok record,
     State (h ++ [OList []; ODict [];
                  ODict [("run_id", VStr run_id);
                         ("version", VStr SURVEY_VERSION);
                         ("status", VStr "active");
                         ("active_section", VStr "min_criteria");
                         ("cursor", VStr cursor);
                         ("history", VRef history);
                         ("answers_by_id", VRef answers_by_id);
                         ("summary", VNone)]])
           (_runs w)).

(** [begin_run()].  [u] is the UUID drawn by [_new_run_id]; [t_store],
    [t_render] and [t_meta] are the clock readings of [create_run],
    [show_question] and the final [build_meta]. *)
Definition begin_run (u : N) (t_store t_render t_meta : string)
    : method begin_response :=
  let run_id := _new_run_id u in
  let cursor := START_ID in
  (* node = _cursor_to_node(cursor) *)
  active_section <~ lift (required_arg "_cursor_to_node" "active_section" None) ;;
  node <~ lift (_cursor_to_node t_render (Some cursor) active_section) ;;
  record <~ new_record run_id cursor ;;
  _ <~ create_run recursion_limit t_store record ;;
  next_payload <~ lift (match node with
                        | Some n => Ok (resp_next (show_question SURVEY_VERSION t_render n))
                        | None => Err (TypeError "'NoneType' object is not subscriptable")
                        end) ;;
  pure {| b_run_id := run_id;
          b_done := false;
          b_next := next_payload;
          b_version := SURVEY_VERSION;
          b_meta := build_meta SURVEY_VERSION t_meta |}.

End Endpoints.

End Runs.

(** * The case event service ([app/services/case_events.py]) *)

Module CaseEvents.

(** A Python value as it can arrive in a payload.  [PList] is a list or a
    tuple; [PObject] is an object of any other type (a [datetime], a [set],
    [bytes], ...), named by its type. *)
Inductive pyval :=
| PNone
| PBool (b : bool)
| PInt (n : Z)
| PFloat (repr : string)
| PStr (s : string)
| PList (items : list pyval)
| PDict (entries : list (pyval * pyval))
| PObject (type_name : string).

(** [isinstance(k, str)] *)
Definition is_str (x : pyval) : bool :=
  match x with PStr _ => true | _ => false end.

(** The keys [json.dumps] accepts in a dictionary: [str], [int], [float],
    [bool] or [None]. *)
Definition json_key (x : pyval) : bool :=
  match x with
  | PNone | PBool _ | PInt _ | PFloat _ | PStr _ => true
  | _ => false
  end.

(** [json.dumps(x)] returns: it raises [TypeError] on an object it has no
    encoding for, and on a dictionary key that is not a scalar. *)
Fixpoint json_serializable (x : pyval) : bool :=
  match x with
  | PNone | PBool _ | PInt _ | PFloat _ | PStr _ => true
  | PList items => forallb json_serializable items
  | PDict entries =>
      forallb (fun kv => json_key (fst kv) && json_serializable (snd kv)) entries
  | PObject _ => false
  end.

(** Truth value of an [Optional[str]] argument. *)
Definition given (x : option string) : bool :=
  match x with
  | Some s => PyStr.truthy s
  | None => false
  end.

Inductive CaseStatus := OPEN | FOLLOW_UP | READY | SUBMITTED | CLOSED.

Inductive EventType :=
| CASE_CREATED | INTAKE_RECEIVED | FIELD_SET | FIELD_CLEARED | NOTE_ADDED
| AWARENESS_SET | AWARENESS_AMENDED.

(** The value of a member of the [EventType] enumeration. *)
Definition EventType_value (t : EventType) : string :=
  match t with
  | CASE_CREATED => "case.created"
  | INTAKE_RECEIVED => "intake.received"
  | FIELD_SET => "field.set"
  | FIELD_CLEARED => "field.cleared"
  | NOTE_ADDED => "note.added"
  | AWARENESS_SET => "case.awareness_set"
  | AWARENESS_AMENDED => "case.awareness_amended"
  end.

Inductive ActorType := USER | SYSTEM | API.

(** A row of [cases].  Times are instants on the UTC time line. *)
Record Case := {
  case_id : N;
  received_at : Z;
  status : CaseStatus;
  initial_awareness_at : option Z
}.

(** A row of [case_event_log]. *)
Record CaseEventLog := {
  event_id : N;
  event_case_id : N;
  event_type : EventType;
  occurred_at : Z;
  actor_type : ActorType;
  actor_id : option string;
  reason : option string;
  payload : pyval
}.

(** The unit of work [db] and the two sources the service draws from: the
    rows added and flushed so far, in order, the number of UUIDs drawn and
    the number of clock readings taken. *)
Record session := Session {
  cases : list Case;
  events : list CaseEventLog;
  uuids_drawn : nat;
  clock_reads : nat
}.

Section Service.

(** The UUIDs [uuid.uuid4()] returns and the instants
    [datetime.now(timezone.utc)] reads, in the order of the calls. *)
Variable uuid_source : nat -> N.
Variable clock : nat -> Z.

Definition uuid4 : action session N :=
  fun db =>
    (Ok (uuid_source (uuids_drawn db)),
     Session (cases db) (events db) (S (uuids_drawn db)) (clock_reads db)).

Definition utc_now : action session Z :=
  fun db =>
    (Ok (clock (clock_reads db)),
     Session (cases db) (events db) (uuids_drawn db) (S (clock_reads db))).

Definition build_case_created_payload (source : string)
    (intake_channel external_ref : option string) : pyval :=
  PDict ([(PStr "schema_version", PStr "case.created.v1");
          (PStr "source", PStr source)]
         ++ (if given intake_channel
             then [(PStr "intake_channel", PStr (default "" intake_channel))]
             else [])
         ++ (if given external_ref
             then [(PStr "external_ref", PStr (default "" external_ref))]
             else [])).

(** [db.add(event); db.flush()]: the row gets its [id] from the column
    default and joins the rows of the unit of work. *)
Definition add_event (case_id : N) (event_type : EventType) (occurred_at : Z)
    (actor_type : ActorType) (actor_id reason : option string) (payload : pyval)
    : action session CaseEventLog :=
  id <~ uuid4 ;;
  let event := {| event_id := id; event_case_id := case_id;
                  event_type := event_type; occurred_at := occurred_at;
                  actor_type := actor_type; actor_id := actor_id;
                  reason := reason; payload := payload |} in
  fun db =>
    (Ok event,
     Session (cases db) (events db ++ [event]) (uuids_drawn db) (clock_reads db)).

(** [append_event].  [payload = PNone] and [occurred_at = None] are the
    defaults of the parameters. *)
Definition append_event (case_id : N) (event_type : EventType) (payload : pyval)
    (actor_type : ActorType) (actor_id reason : option string)
    (occurred_at : option Z) : action session CaseEventLog :=
  let payload := match payload with PNone => PDict [] | _ => payload end in
  match payload with
  | PDict entries =>
      if negb (forallb (fun kv => is_str (fst kv)) entries) then
        raise (ValueError "payload keys must be strings")
      else if negb (json_serializable payload) then
        raise (ValueError "payload is not JSON-serializable")
      else
        occurred_at <~ match occurred_at with
                       | Some t => pure t
                       | None => utc_now
                       end ;;
        add_event case_id event_type occurred_at actor_type actor_id reason payload
  | _ => raise (ValueError "payload must be a dict")
  end.

(** [db.add(case); db.flush()] *)
Definition add_case (c : Case) : action session unit :=
  fun db =>
    (Ok tt, Session (cases db ++ [c]) (events db) (uuids_drawn db) (clock_reads db)).

Definition create_case_from_intake (intake_payload : pyval) (source : string)
    (intake_channel external_ref : option string) (actor_type : ActorType)
    (actor_id : option string) (received_at : option Z) : action session Case :=
  match intake_payload with
  | PDict _ =>
      received_at <~ match received_at with
                     | Some t => pure t
                     | None => utc_now
                     end ;;
      id <~ uuid4 ;;
      let case := {| case_id := id; received_at := received_at;
                     status := OPEN; initial_awareness_at := None |} in
      _ <~ add_case case ;;
      let created_payload :=
        build_case_created_payload source intake_channel external_ref in
      _ <~ append_event id CASE_CREATED created_payload actor_type actor_id None None ;;
      let intake_event_payload :=
        PDict ([(PStr "schema_version", PStr "intake.received.v1");
                (PStr "source", PStr source);
                (PStr "raw", intake_payload)]
               ++ (if given external_ref
                   then [(PStr "external_ref", PStr (default "" external_ref))]
                   else [])) in
      _ <~ append_event id INTAKE_RECEIVED intake_event_payload actor_type actor_id
             None None ;;
      pure case
  | _ => raise (ValueError "intake payload must be a dict")
  end.

End Service.

End CaseEvents.

(** * Vocabulary of the properties *)

Module Flow.

Import Survey.

(** [s.startswith(p)], with what follows the prefix. *)
Fixpoint strip_prefix (p s : string) : option string :=
  match p, s with
  | EmptyString, _ => Some s
  | String a p', String b s' => if Ascii.eqb a b then strip_prefix p' s' else None
  | String _ _, EmptyString => None
  end.

(** The text before and after the first colon. *)
Fixpoint split_colon (s : string) : option (string * string) :=
  match s with
  | EmptyString => None
  | String c r =>
      if Ascii.eqb c ":" then Some (EmptyString, r)
      else match split_colon r with
           | Some (a, b) => Some (String c a, b)
           | None => None
           end
  end.

(** Where a [next] value leads, read the way the handlers read it:
    [None] and ["END"] end the flow, [GOTO:<section>:<id>] leaves the
    section ([next_id.split(":", 2)]), anything else is an id of the
    section. *)
Inductive target :=
| End
| Jump (sec qid : string)
| Within (qid : string)
| Malformed.

Definition resolve (nxt : option string) : target :=
  match nxt with
  | None => End
  | Some s =>
      if String.eqb s "END" then End
      else match strip_prefix "GOTO:" s with
           | Some rest =>
               match split_colon rest with
               | Some (sec, qid) => Jump sec qid
               | None => Malformed
               end
           | None => Within s
           end
  end.

(** The two sections the definition refers to and leaves without nodes. *)
Definition known_empty (sec : string) : bool :=
  String.eqb sec "headache_questions" || String.eqb sec "vomiting_questions".

(** The [next] value resolves, seen from a node of section [here]. *)
Definition next_ok (here : section) (nxt : option string) : bool :=
  match resolve nxt with
  | End => true
  | Jump sec qid =>
      known_empty sec
      || match assoc sec SURVEY_DEFINITION with
         | Some m => has_key qid m
         | None => false
         end
  | Within qid => has_key qid here
  | Malformed => false
  end.

(** The node-level [next] of a node and the [next] of each of its options. *)
Definition nexts_of (n : node) : list (option string) :=
  node_next n
  :: match node_options n with
     | Some opts => map (fun kv => next (snd kv)) opts
     | None => []
     end.

(** The [next] values of the definition that do not resolve, each with its
    section and node. *)
Definition dangling : list (string * string * option string) :=
  flat_map
    (fun sec =>
       flat_map
         (fun kv =>
            map (fun nxt => (fst sec, fst kv, nxt))
                (filter (fun nxt => negb (next_ok (snd sec) nxt)) (nexts_of (snd kv))))
         (snd sec))
    SURVEY_DEFINITION.

Definition definition_ok : bool :=
  forallb (fun sec =>
             forallb (fun kv => forallb (next_ok (snd sec)) (nexts_of (snd kv)))
                     (snd sec))
          SURVEY_DEFINITION.

(** A history step with an answer. *)
Definition answered (qid ans : string) : HistoryStep :=
  {| step_question_id := qid; step_answer := Some ans |}.

(** The abdominal history of the specification, with [q5] answered [k]. *)
Definition abdominal_history (k : string) : list HistoryStep :=
  [answered "q1" "a"; answered "q1a" "2025-09-01"; answered "q2" "a";
   answered "q4" "a"; answered "q5" k; answered "q6" "a"; answered "q7" "a";
   answered "q8" "a"; answered "q9" "b"; answered "q11" "a";
   answered "q12" "a"; answered "q13" "a"; answered "q14" "a";
   answered "q15" "a"; answered "q16" "b"; answered "q17" "b";
   answered "q18" "a"; answered "q19" "b"; answered "q20" "b"].

(** A history that follows the abdominal branch to [q20], answers it
    ["a"] and then answers [q20a]. *)
Definition history_through_q20a : list HistoryStep :=
  [answered "q1" "a"; answered "q1a" "2025-09-01"; answered "q2" "a";
   answered "q4" "a"; answered "q5" "d"; answered "q6" "a"; answered "q7" "a";
   answered "q8" "a"; answered "q9" "b"; answered "q11" "a";
   answered "q12" "a"; answered "q13" "a"; answered "q14" "a";
   answered "q15" "a"; answered "q16" "b"; answered "q17" "b";
   answered "q18" "a"; answered "q19" "b"; answered "q20" "a";
   answered "q20a" "a new medication"].

(** Where the replay of [history] gets to: after some of its steps the
    loop stands at [Some cursor], or has left the function ([None]), with
    [answers] recorded. *)
Definition reaches (v now : string) (history : list HistoryStep)
    (cursor : option string) (answers : gmap string answer_record) : Prop :=
  exists pre rest,
    history = pre ++ rest
    /\ evaluate_loop v now abdominal_questions pre START_ID ∅
       = Ok (match cursor with
             | Some c => Advance c answers
             | None => Finish answers
             end).

(** No [next] of the node is [qid]. *)
Definition never_next (qid : string) (n : node) : bool :=
  forallb (fun nxt => match nxt with
                      | Some s => negb (String.eqb s qid)
                      | None => true
                      end)
          (nexts_of n).

(** The replay can work on the node: its type is one the loop handles and
    a choice node has its options. *)
Definition well_typed (n : node) : bool :=
  String.eqb (node_type n) "free_text"
  || (String.eqb (node_type n) "single_choice" || String.eqb (node_type n) "scale")
     && bool_decide (is_Some (node_options n)).

End Flow.

(** * Vocabulary of the store's isolation *)

Module Ownership.

Import Storage.

(** Every reference of the value satisfies [P]. *)
Definition val_in (P : addr -> Prop) (x : val) : Prop :=
  forall r, x = VRef r -> P r.

(** Every reference held in the object satisfies [P]. *)
Definition refs_in (P : addr -> Prop) (o : obj) : Prop :=
  forall r, r ∈ refs_of o -> P r.

(** The heap [h'] extends [h] and agrees with it below [n]. *)
Definition frame (n : nat) (h h' : list obj) : Prop :=
  (length h <= length h')%nat
  /\ forall a, (a < n)%nat -> h' !! a = h !! a.

(** The objects from address [b] on, and the targets of the memo, refer to
    objects from [b] on only. *)
Definition fresh_ok (b : nat) (memo : list (addr * addr)) (h : list obj) : Prop :=
  (forall a y, (a, y) ∈ memo -> (b <= y < length h)%nat)
  /\ (forall a o, (b <= a)%nat -> h !! a = Some o ->
      refs_in (fun r => (b <= r < length h)%nat) o).

(** The region [P] lies below [n] and is closed: its objects refer to objects
    of the region only. *)
Definition stable (P : addr -> Prop) (n : nat) (h : list obj) : Prop :=
  (forall a, P a -> (a < n)%nat)
  /\ (n <= length h)%nat
  /\ (forall a o, P a -> h !! a = Some o -> refs_in P o).


(** The invariant of the configurations: the objects the caller holds refer
    to objects the caller holds, every other object refers to objects the
    caller does not hold, the records of [_runs] are among the latter, and
    every dictionary has each key once. *)
Record separated (c : config) : Prop := Separated {
  held_bound : forall a, a ∈ held c -> (a < length (heap (st c)))%nat;
  held_closed : forall a o, a ∈ held c -> heap (st c) !! a = Some o ->
                refs_in (fun r => r ∈ held c) o;
  store_closed : forall a o, a ∉ held c -> heap (st c) !! a = Some o ->
                 refs_in (fun r => (r ∉ held c) /\ (r < length (heap (st c)))%nat) o;
  roots_private : forall k a, _runs (st c) !! k = Some a ->
                  (a ∉ held c) /\ (a < length (heap (st c)))%nat;
  heap_wf : forall a o, heap (st c) !! a = Some o -> wf_obj o
}.

(** Every object of the heap is well formed. *)
Definition all_wf (h : list obj) : Prop :=
  forall a o, h !! a = Some o -> wf_obj o.

(** The invariant, for the state alone. *)
Definition sep (K : gset addr) (w : state) : Prop := separated (Config w K).

(** A method started in a state of [P] ends, with a value or an exception,
    in a state of [Q]. *)
Definition hoare {A} (P : state -> Prop) (c : method A)
    (Q : result A -> state -> Prop) : Prop :=
  forall w, P w -> Q (fst (c w)) (snd (c w)).


(** ** One more object on the heap *)







(** The objects below [n] refer to objects below [n]. *)
Definition old_closed (n : nat) (h : list obj) : Prop :=
  forall a o, (a < n)%nat -> h !! a = Some o -> refs_in (fun r => (r < n)%nat) o.


(** ** A copy and its original *)

(** [x'] is [x] with each reference replaced by its copy in the memo. *)
Definition val_rel (memo : list (addr * addr)) (x x' : val) : Prop :=
  match x with
  | VRef a => exists y, memo_get a memo = Some y /\ x' = VRef y
  | _ => x' = x
  end.

Definition slots_rel {K} (memo : list (addr * addr)) (src dst : list (K * val)) : Prop :=
  Forall2 (fun s d => fst s = fst d /\ val_rel memo (snd s) (snd d)) src dst.

Definition obj_rel (memo : list (addr * addr)) (o o' : obj) : Prop :=
  match o, o' with
  | ODict entries, ODict entries' => slots_rel memo entries entries'
  | OList items, OList items' => Forall2 (val_rel memo) items items'
  | _, _ => False
  end.

(** The object at [y] is the copy of the object at [a]. *)
Definition copied (memo : list (addr * addr)) (h : list obj) (a y : addr) : Prop :=
  exists o o', h !! a = Some o /\ h !! y = Some o' /\ obj_rel memo o o'.

(** The memo [memo'] answers as [memo] where [memo] answers. *)
Definition mono (memo memo' : list (addr * addr)) : Prop :=
  forall a y, memo_get a memo = Some y -> memo_get a memo' = Some y.

(** What a copy in progress relies on, for the objects below [n]: they are
    closed and well formed, and the memo points from them to objects from
    [n] on. *)
Record copying (n : nat) (memo : list (addr * addr)) (h : list obj) : Prop := Copying {
  copying_length : (n <= length h)%nat;
  copying_closed : old_closed n h;
  copying_wf : forall a o, (a < n)%nat -> h !! a = Some o -> wf_obj o;
  copying_memo : forall a y, memo_get a memo = Some y ->
                 (a < n)%nat /\ (n <= y < length h)%nat
}.

(** The entries the copy added to the memo are finished copies. *)
Definition new_done (h : list obj) (memo memo' : list (addr * addr))
    (h' : list obj) : Prop :=
  forall a y, memo_get a memo' = Some y -> memo_get a memo = None ->
              (length h <= y)%nat /\ copied memo' h' a y.

(** What [get_run] shows of a run: the value returned, as a tree to any
    depth, or the exception raised. *)
Definition shown (fuel : nat) (r : result val * state) : result (option tree) :=
  match fst r with
  | Ok x => Ok (reify fuel (heap (snd r)) x)
  | Err e => Err e
  end.

(** A run of the protocol: the caller builds a record with its history
    list and its answers dictionary, stores it, and fetches it. *)
Definition sample_record : obj :=
  ODict [("run_id", VStr "r1"); ("status", VStr "active");
         ("history", VRef 0%nat); ("answers_by_id", VRef 1%nat);
         ("summary", VNone)].

Definition sample_built : config :=
  Config (State [OList []; ODict []; sample_record] ∅) (∅ ∪ {[0%nat]} ∪ {[1%nat]} ∪ {[2%nat]}).

Definition sample_stored : config :=
  Config (snd (create_run 10 "t0" 2%nat (st sample_built))) (held sample_built).



End Ownership.

(** * Vocabulary of the replay *)

Module Replay.

Import Survey.

(** The record a step files under the cursor has the fields of the node's
    type: a free-text node gets a record with ["value"], any other node one
    with ["key"]. *)
Definition record_fits (n : node) (r : answer_record) : Prop :=
  if String.eqb (node_type n) "free_text"
  then exists s, r = FreeTextAnswer s
  else exists k, get_key r = Ok k.

(** Every answer on file fits the node it is filed under. *)
Definition answers_fit (a : gmap string answer_record) : Prop :=
  forall k r, a !! k = Some r ->
    exists node, assoc k abdominal_questions = Some node /\ record_fits node r.

(** The errors the replay answers with: four client errors and the server
    fault of a definition that points nowhere, each with the [meta] block. *)
Definition replay_error (v now : string) (e : fault) : Prop :=
  exists status code msg,
    e = HTTPException status code msg (Some (build_meta v now))
    /\ In (status, code)
         [(400, FLOW_DIVERGENCE); (400, MISSING_ANSWER); (400, INVALID_ANSWER);
          (400, DATE_FORMAT); (500, BROKEN_DEFINITION)].

(** The place of a key in a section, in the order of the definition. *)
Fixpoint index_of_key (k : string) (d : section) : nat :=
  match d with
  | [] => 0
  | (k', _) :: d' => if String.eqb k k' then 0 else S (index_of_key k d')
  end.

(** Every [next] of the section that names a node of the section names one
    that comes later in the definition. *)
Definition forward (qmap : section) : bool :=
  forallb
    (fun kv =>
       forallb
         (fun nxt =>
            match nxt with
            | Some s =>
                negb (has_key s qmap)
                || Nat.ltb (index_of_key (fst kv) qmap) (index_of_key s qmap)
            | None => true
            end)
         (Flow.nexts_of (snd kv)))
    qmap.

End Replay.

(** * Vocabulary of the run ids *)

Module RunId.

Import Runs.

(** The place of a character in a string, the length of the string when it
    is not there. *)
Fixpoint index_of (c : ascii) (s : string) : N :=
  match s with
  | EmptyString => 0
  | String d r => if Ascii.eqb c d then 0 else N.succ (index_of c r)
  end.

(** The number a run id spells in base 64, most significant digit first. *)
Fixpoint b64url_value (acc : N) (s : string) : N :=
  match s with
  | EmptyString => acc
  | String c r => b64url_value (64 * acc + index_of c b64url_alphabet) r
  end.

End RunId.

(** * Vocabulary of the case events *)

Module CaseLog.

Import CaseEvents.

(** The unit of work [db'] holds the rows of [db], in the same order and as
    they were, and possibly more after them. *)
Definition extends (db db' : session) : Prop :=
  cases db `prefix_of` cases db'
  /\ events db `prefix_of` events db'
  /\ (uuids_drawn db <= uuids_drawn db')%nat
  /\ (clock_reads db <= clock_reads db')%nat.

(** Every event belongs to a case of the unit of work. *)
Definition events_belong (db : session) : Prop :=
  forall e, In e (events db) -> exists c, In c (cases db) /\ case_id c = event_case_id e.

(** The primary keys of the rows of the unit of work. *)
Definition row_ids (db : session) : list N :=
  map case_id (cases db) ++ map event_id (events db).

(** The primary keys are distinct, and each is one of the UUIDs drawn so
    far from [uuid_source]. *)
Definition ids_fresh (uuid_source : nat -> N) (db : session) : Prop :=
  NoDup (row_ids db)
  /\ forall id, In id (row_ids db) ->
       exists i, (i < uuids_drawn db)%nat /\ id = uuid_source i.

End CaseLog.

(** * Vocabulary of the store's reads *)

Module StoreView.

Import Storage Ownership.

(** Two memos answer for the same addresses of the region [P]. *)
Definition same_keys (P : addr -> Prop) (m1 m2 : list (addr * addr)) : Prop :=
  forall a, P a -> (memo_get a m1 = None <-> memo_get a m2 = None).

(** Two runs end the same way: both return, with results that [Q] relates,
    or both raise the same exception. *)
Definition same_outcome {A B} (Q : A -> B -> Prop) (r1 : result A) (r2 : result B)
    : Prop :=
  match r1, r2 with
  | Ok a, Ok b => Q a b
  | Err e1, Err e2 => e1 = e2
  | _, _ => False
  end.

(** The objects of the region [P] are the same in both heaps. *)
Definition same_on (P : addr -> Prop) (h1 h2 : list obj) : Prop :=
  forall a, P a -> h1 !! a = h2 !! a.

(** [d.setdefault(k, v)] on the entries of a dictionary. *)
Definition setdefault_entries (k : string) (v : val) (entries : list (string * val))
    : list (string * val) :=
  if has_key k entries then entries else dict_set k v entries.

(** The entries of a record after [create_run] has stamped it:
    [run.setdefault("created_at", now)], then
    [run.setdefault("updated_at", run["created_at"])]. *)
Definition stamped (now : string) (entries : list (string * val))
    : list (string * val) :=
  let entries1 := setdefault_entries "created_at" (VStr now) entries in
  setdefault_entries "updated_at" (default VNone (assoc "created_at" entries1))
    entries1.

(** [d.setdefault(k, t)] on the entries of the tree of a dictionary: a new
    key goes to the end. *)
Definition tree_setdefault (k : string) (t : tree) (entries : list (string * tree))
    : list (string * tree) :=
  if has_key k entries then entries else entries ++ [(k, t)].

(** The tree of a record after [create_run] has stamped it. *)
Definition stamped_tree (now : string) (t : tree) : tree :=
  match t with
  | TDict entries =>
      let entries1 := tree_setdefault "created_at" (TStr now) entries in
      TDict (tree_setdefault "updated_at"
               (default TNone (assoc "created_at" entries1)) entries1)
  | _ => t
  end.

(** The entries of a record after [update_run] has written the changes, in
    their order, and then ["updated_at"]. *)
Definition updated (now : string) (changes : list (string * val))
    (entries : list (string * val)) : list (string * val) :=
  dict_set "updated_at" (VStr now)
    (fold_left (fun es kv => dict_set (fst kv) (snd kv) es) changes entries).

(** The record at [a] is filed under [key]: it is a dictionary whose
    ["run_id"] is the key, and it has an ["updated_at"]. *)
Definition filed (h : list obj) (key : option (string + Z)) (a : addr) : Prop :=
  exists entries rid,
    h !! a = Some (ODict entries)
    /\ assoc "run_id" entries = Some rid
    /\ hash_key rid = Ok key
    /\ has_key "updated_at" entries = true.

(** Every record of [_runs] is filed under its key. *)
Definition well_filed (w : state) : Prop :=
  forall key a, _runs w !! key = Some a -> filed (heap w) key a.

End StoreView.

(** * Fetching a run for an endpoint ([app/routes/runs.py]) *)

Module RunsRead.

Import Survey Storage Runs.

Section Endpoints.

Variable SURVEY_VERSION : string.
Variable recursion_limit : nat.

(** [_require_run(run_id)]; [now] is the clock reading of [build_meta]. *)
Definition _require_run (now : string) (run_id : string) : method val :=
  run <~ get_run recursion_limit run_id ;;
  match run with
  | VNone =>
      raise (http_error SURVEY_VERSION 404 UNKNOWN_RUN
               ("Run '" +:+ run_id +:+ "' not found.") now)
  | _ => pure run
  end.

End Endpoints.

End RunsRead.

(** * The questionnaire engine: lemmas *)

Module SurveyFacts.

Import Survey Flow.

Lemma assoc_In {V} (k : string) (d : list (string * V)) (v : V) :
  assoc k d = Some v -> In (k, v) d.
Proof.
  induction d as [|[k' v'] d IH]; simpl; [done|].
  destruct (String.eqb_spec k k') as [->|_].
  - intros [= ->]. by left.
  - intros H. right. by apply IH.
Qed.

Lemma has_key_assoc {V} (k : string) (d : list (string * V)) :
  has_key k d = true -> exists v, assoc k d = Some v.
Proof. unfold has_key. destruct (assoc k d); [eauto | done]. Qed.

Lemma evaluate_step_inv v now qmap c a step o :
  evaluate_step v now qmap c a step = Ok o ->
  exists node rec,
    step_question_id step = c
    /\ assoc c qmap = Some node
    /\ match o with
       | Advance c' a' =>
           a' = <[c := rec]> a /\ In (Some c') (nexts_of node)
           /\ has_key c' qmap = true
       | Finish a' => a' = <[c := rec]> a
       end.
Proof.
  unfold evaluate_step, bind, subscript.
  destruct (String.eqb_spec (step_question_id step) c) as [Hc|]; [|done].
  simpl. destruct (has_key c qmap) eqn:Hk; [|done]. simpl.
  destruct (assoc c qmap) as [node|] eqn:Hn; [|done].
  intros H. exists node.
  destruct (String.eqb (node_type node) "free_text").
  - destruct (is_blank (step_answer step)); [done|].
    destruct (_ && _); [done|].
    eexists. split; [done|]. split; [done|].
    unfold nexts_of. destruct (node_next node) as [nid|]; simplify_eq/=.
    + destruct (has_key nid qmap) eqn:Hnid; simplify_eq/=. auto.
    + done.
  - destruct (_ || _); [|done].
    destruct (is_blank (step_answer step)); [done|].
    destruct (node_options node) as [opts|] eqn:Ho; [|done].
    destruct (assoc _ opts) as [opt|] eqn:Hopt; [|done].
    eexists. split; [done|]. split; [done|].
    unfold nexts_of.
    destruct (next opt) as [nid|] eqn:Hnx; simplify_eq/=.
    + destruct (has_key nid qmap) eqn:Hnid; simplify_eq/=.
      split; [done|]. split; [|done]. right.
      apply in_map_iff. eexists (_, opt). split; [done|]. by eapply assoc_In.
    + done.
Qed.


Lemma evaluate_loop_app v now qmap pre rest c a :
  evaluate_loop v now qmap (pre ++ rest) c a =
  match evaluate_loop v now qmap pre c a with
  | Ok (Advance c' a') => evaluate_loop v now qmap rest c' a'
  | other => other
  end.
Proof.
  revert c a. induction pre as [|s pre IH]; intros c a; simpl; [done|].
  destruct (evaluate_step v now qmap c a s) as [[c' a'|a']|e]; simpl; auto.
Qed.

(** An invariant of the loop: what holds of the first cursor and answers and
    is kept by every step that goes on holds wherever the replay stands. *)
Lemma evaluate_loop_invariant v now qmap (I : string -> gmap string answer_record -> Prop) :
  (forall c a step c' a',
      I c a -> evaluate_step v now qmap c a step = Ok (Advance c' a') -> I c' a') ->
  forall pre c a c' a',
    I c a -> evaluate_loop v now qmap pre c a = Ok (Advance c' a') -> I c' a'.
Proof.
  intros Hstep. induction pre as [|s pre IH]; intros c a c' a' HI; simpl.
  - by intros [= <- <-].
  - destruct (evaluate_step v now qmap c a s) as [[c1 a1|a1]|e] eqn:Hs; simpl; [|done..].
    apply IH. by eapply Hstep.
Qed.

(** The replay only stands at nodes of the section. *)
Lemma evaluate_loop_cursor_known v now pre c a :
  evaluate_loop v now abdominal_questions pre START_ID ∅ = Ok (Advance c a) ->
  has_key c abdominal_questions = true.
Proof.
  apply (evaluate_loop_invariant v now abdominal_questions
           (fun c _ => has_key c abdominal_questions = true)); [|done].
  intros c0 a0 step c' a' _ Hs.
  apply evaluate_step_inv in Hs as (node & rec & _ & _ & _ & _ & Hk). done.
Qed.

Lemma abdominal_never_next_q3a :
  forallb (fun kv => never_next "q3a" (snd kv)) abdominal_questions = true.
Proof. vm_compute. reflexivity. Qed.

Lemma abdominal_well_typed :
  forallb (fun kv => well_typed (snd kv)) abdominal_questions = true.
Proof. vm_compute. reflexivity. Qed.

Lemma q3a_kept_out v now c a step o :
  c <> "q3a" -> a !! "q3a" = None ->
  evaluate_step v now abdominal_questions c a step = Ok o ->
  match o with
  | Advance c' a' => c' <> "q3a" /\ a' !! "q3a" = None
  | Finish a' => a' !! "q3a" = None
  end.
Proof.
  intros Hc Ha Hs.
  apply evaluate_step_inv in Hs as (node & rec & _ & Hn & Ho).
  pose proof abdominal_never_next_q3a as Hall.
  rewrite forallb_forall in Hall.
  specialize (Hall _ (assoc_In _ _ _ Hn)). simpl in Hall.
  unfold never_next in Hall. rewrite forallb_forall in Hall.
  destruct o as [c' a'|a'].
  - destruct Ho as (-> & Hin & _). split.
    + intros ->. specialize (Hall _ Hin). done.
    + by rewrite lookup_insert_ne.
  - subst a'. by rewrite lookup_insert_ne.
Qed.


Lemma has_key_true {V} (k : string) (d : list (string * V)) (v : V) :
  assoc k d = Some v -> has_key k d = true.
Proof. unfold has_key. by intros ->. Qed.




Lemma fails_with_bind {A B} (r : result A) (k : A -> result B) status code :
  fails_with r status code -> fails_with (bind r k) status code.
Proof. intros (msg & m & ->). unfold fails_with. simpl. eauto. Qed.

(** The handler on a history that is not empty. *)
Lemma evaluate_survey_progress_steps v now history :
  history <> [] ->
  evaluate_survey_progress v now history =
  bind (evaluate_loop v now abdominal_questions history START_ID ∅)
    (fun o =>
       match o with
       | Finish answers_by_id =>
           bind (_build_summary answers_by_id)
             (fun s => Ok {| resp_next := None; resp_done := true;
                             resp_summary := Some s;
                             resp_meta := build_meta v now |})
       | Advance c _ =>
           bind (subscript abdominal_questions c)
             (fun node => Ok (show_question v now node))
       end).
Proof. destruct history; [done|]. reflexivity. Qed.

(** A step that fails where the replay stands fails the whole request. *)
Lemma evaluate_fails_at v now pre c a step rest status code :
  evaluate_loop v now abdominal_questions pre START_ID ∅ = Ok (Advance c a) ->
  fails_with (evaluate_step v now abdominal_questions c a step) status code ->
  fails_with (evaluate_survey_progress v now (pre ++ step :: rest)) status code.
Proof.
  intros Hpre Hs.
  rewrite evaluate_survey_progress_steps by (by destruct pre).
  apply fails_with_bind. rewrite evaluate_loop_app, Hpre. simpl.
  by apply fails_with_bind.
Qed.

End SurveyFacts.

(** * The questionnaire engine: properties *)

Module SurveyClaims.

Import Survey Flow SurveyFacts.

(** C2.  The claim is that [survey_next] without a question id returns the
    rendering of [q1] of the min_criteria section.  The handler looks the
    section up under ["min_criteria"], while the definition names it
    ["min_criteria_questions"]: the request raises [KeyError], whatever the
    answer field holds, and so does every other request to the handler. *)
Theorem survey_next_without_question_id_raises v now ans :
  survey_next v now {| question_id := None; answer := ans |}
  = Err (KeyError "min_criteria")
  /\ has_key "min_criteria" SURVEY_DEFINITION = false
  /\ has_key "min_criteria_questions" SURVEY_DEFINITION = true
  /\ forall request, survey_next v now request = Err (KeyError "min_criteria").
Proof.
  split; [reflexivity|]. split; [reflexivity|]. split; [reflexivity|].
  intros [[qid|] a]; reflexivity.
Qed.

(** C3.  The claim is that every [next] of the definition resolves, the
    references into the two empty sections apart.  One does not: the node
    [q20a] of [abdominal_questions] points to [q21], which the section does
    not have.  It is the only one, and a replay that answers [q20a] ends in
    the server fault [BROKEN_DEFINITION]. *)
Theorem definition_has_one_dangling_next v now :
  dangling = [("abdominal_questions", "q20a", Some "q21")]
  /\ definition_ok = false
  /\ (exists n, assoc "q20a" abdominal_questions = Some n
                /\ node_next n = Some "q21"
                /\ next_ok abdominal_questions (node_next n) = false)
  /\ has_key "q21" abdominal_questions = false
  /\ fails_with (evaluate_survey_progress v now history_through_q20a)
       500 BROKEN_DEFINITION.
Proof.
  split; [by vm_compute|]. split; [by vm_compute|].
  split; [|split; [by vm_compute|]].
  - eexists. split; [reflexivity|]. split; by vm_compute.
  - unfold fails_with. eexists _, _. vm_compute. reflexivity.
Qed.

(** C4.  Replaying the abdominal history of the specification ([q5]
    answered ["d"]) ends the flow: [done] is true, there is no next
    question, and the summary has [started_at_precision = "exact"],
    [still_pain = true], [pain_quality = "Sharp?"], [pain_scale = 8] and
    [requires_attention = true]. *)
Theorem abdominal_replay_summary v now :
  evaluate_survey_progress v now (abdominal_history "d")
  = Ok {| resp_next := None;
          resp_done := true;
          resp_summary :=
            Some {| started_at_precision := Some "exact";
                    started_at_value := Some "2025-09-01";
                    still_pain := Some true;
                    pain_quality := Some "Sharp?";
                    pain_scale := Some 8;
                    requires_attention := true |};
          resp_meta := build_meta v now |}.
Proof. vm_compute. reflexivity. Qed.

(** C5.  Whenever [_build_summary] returns a summary, [requires_attention]
    is true exactly when [pain_scale] is present and at least 8; it raises
    only [KeyError], on a record under [q1a], [q1b] or [q2] that lacks the
    field read.  The abdominal history with [q5] answered ["a"] ends with
    [pain_scale = 2] and [requires_attention = false]. *)
Theorem requires_attention_iff_scale_at_least_8 v now :
  (forall answers : gmap string answer_record,
      match _build_summary answers with
      | Ok s => requires_attention s = true
                <-> exists n, pain_scale s = Some n /\ 8 <= n
      | Err e => e = KeyError "value" \/ e = KeyError "key"
      end)
  /\ exists r s,
       evaluate_survey_progress v now (abdominal_history "a") = Ok r
       /\ resp_done r = true
       /\ resp_summary r = Some s
       /\ pain_scale s = Some 2
       /\ requires_attention s = false.
Proof.
  split.
  - intros answers. unfold _build_summary, bind.
    assert (Hv : forall r, (exists x, get_value r = Ok x) \/ get_value r = Err (KeyError "value"))
      by (intros []; simpl; eauto).
    assert (Hk : forall r, (exists x, get_key r = Ok x) \/ get_key r = Err (KeyError "key"))
      by (intros []; simpl; eauto).
    assert (Hfin : forall (o : option Z),
               match o with Some n => 8 <=? n | None => false end = true
               <-> exists n, o = Some n /\ 8 <= n).
    { intros [n|]; split.
      - intros H. exists n. split; [done|]. by apply Z.leb_le.
      - intros (m & [= <-] & H). by apply Z.leb_le.
      - done.
      - by intros (m & [=] & _). }
    destruct (answers !! "q1a") as [r1|].
    + destruct (Hv r1) as [[x ->]| ->]; [|by left].
      destruct (answers !! "q2") as [r2|]; simpl.
      * destruct (Hk r2) as [[y ->]| ->]; [|by right]. apply Hfin.
      * apply Hfin.
    + destruct (answers !! "q1b") as [r1|].
      * destruct (Hv r1) as [[x ->]| ->]; [|by left].
        destruct (answers !! "q2") as [r2|]; simpl.
        -- destruct (Hk r2) as [[y ->]| ->]; [|by right]. apply Hfin.
        -- apply Hfin.
      * destruct (answers !! "q2") as [r2|]; simpl.
        -- destruct (Hk r2) as [[y ->]| ->]; [|by right]. apply Hfin.
        -- apply Hfin.
  - eexists _, _. split; [by vm_compute|]. simpl. done.
Qed.



(** C10.  The node [q3a] of [abdominal_questions] exists, and no [next] of
    the section names it: the option ["a"] of [q3] goes to [q4].  So
    wherever the replay of a history gets to, the cursor is not [q3a] and
    no answer is recorded under [q3a]. *)
Theorem q3a_is_unreachable v now history cursor answers :
  reaches v now history cursor answers ->
  cursor <> Some "q3a"
  /\ answers !! "q3a" = None
  /\ has_key "q3a" abdominal_questions = true
  /\ forallb (fun kv => never_next "q3a" (snd kv)) abdominal_questions = true
  /\ (exists n opts o,
         assoc "q3" abdominal_questions = Some n
         /\ node_options n = Some opts
         /\ assoc "a" opts = Some o
         /\ next o = Some "q4").
Proof.
  intros (pre & rest & _ & Hloop).
  assert (Hgen : forall steps c a o,
             c <> "q3a" -> a !! "q3a" = None ->
             evaluate_loop v now abdominal_questions steps c a = Ok o ->
             match o with
             | Advance c' a' => c' <> "q3a" /\ a' !! "q3a" = None
             | Finish a' => a' !! "q3a" = None
             end).
  { induction steps as [|s steps IH]; intros c a o Hc Ha; simpl.
    - by intros [= <-].
    - destruct (evaluate_step v now abdominal_questions c a s) as [o1|e] eqn:Hs;
        simpl; [|done].
      pose proof (q3a_kept_out _ _ _ _ _ _ Hc Ha Hs) as Hk.
      destruct o1 as [c1 a1|a1].
      + destruct Hk. by apply IH.
      + by intros [= <-]. }
  specialize (Hgen pre START_ID ∅ _ ltac:(done) (lookup_empty _) Hloop).
  split; [|split; [|split; [by vm_compute|split; [exact abdominal_never_next_q3a|]]]].
  - destruct cursor as [c|]; [|done]. destruct Hgen as [Hc _]. by intros [= ->].
  - destruct cursor; [apply Hgen|done].
  - eexists _, _, _. repeat split; reflexivity.
Qed.

Lemma q3a_is_unreachable_witness :
  (Some "q3" : option string) <> Some "q3a"
  /\ (<["q2" := ChoiceAnswer "single_choice" "b" "No."]>
        (<["q1a" := FreeTextAnswer "2025-09-01"]>
           (<["q1" := ChoiceAnswer "single_choice" "a" "Exact date, if known"]> ∅))
      : gmap string answer_record) !! "q3a" = None.
Proof.
  pose proof (q3a_is_unreachable "v1" "2025-09-01T00:00:00.000Z"
                [answered "q1" "a"; answered "q1a" "2025-09-01"; answered "q2" "b";
                 answered "q3" "a"]
                (Some "q3")
                (<["q2" := ChoiceAnswer "single_choice" "b" "No."]>
                   (<["q1a" := FreeTextAnswer "2025-09-01"]>
                      (<["q1" := ChoiceAnswer "single_choice" "a"
                                   "Exact date, if known"]> ∅)))) as H.
  destruct H as (H1 & H2 & _).
  - exists [answered "q1" "a"; answered "q1a" "2025-09-01"; answered "q2" "b"],
           [answered "q3" "a"].
    split; [reflexivity | vm_compute; reflexivity].
  - split; assumption.
Defined.

End SurveyClaims.

(** * The run endpoints: properties *)

Module RunsClaims.

Import Survey Storage Runs.

(** C1.  The claim is that [begin_run] stores a new run and returns the
    rendering of [q1].  The handler calls [_cursor_to_node] with the cursor
    alone, and the function requires the section as well: the call raises
    [TypeError], no record is built and the store is left as it was.  The
    module itself reads [SURVEY_DEFINITION["questions"]] when it is
    imported, a key the definition does not have, and the section the new
    record would name, ["min_criteria"], is not a section of the definition
    either. *)
Theorem begin_run_raises v limit u t_store t_render t_meta w :
  begin_run v limit u t_store t_render t_meta w
  = (Err (TypeError
            "_cursor_to_node() missing 1 required positional argument: 'active_section'"),
     w)
  /\ QMAP = Err (KeyError "questions")
  /\ fails_with (_cursor_to_node v t_render (Some START_ID) "min_criteria")
       500 BROKEN_DEFINITION.
Proof.
  split; [reflexivity|]. split; [reflexivity|].
  unfold fails_with. eexists _, _. reflexivity.
Qed.

End RunsClaims.

(** * The case event service: properties *)

Module CaseEventsClaims.

Import CaseEvents.

Section WithSources.

Variable uuid_source : nat -> N.
Variable clock : nat -> Z.

(** What [append_event] does on a payload it accepts. *)
Lemma append_event_accepts case_id event_type entries actor_type actor_id reason
    occurred_at db :
  forallb (fun kv => is_str (fst kv)) entries = true ->
  json_serializable (PDict entries) = true ->
  append_event uuid_source clock case_id event_type (PDict entries) actor_type
    actor_id reason occurred_at db
  = let ev := {| event_id := uuid_source (uuids_drawn db);
                 event_case_id := case_id;
                 event_type := event_type;
                 occurred_at := default (clock (clock_reads db)) occurred_at;
                 actor_type := actor_type;
                 actor_id := actor_id;
                 reason := reason;
                 payload := PDict entries |} in
    (Ok ev,
     Session (cases db) (events db ++ [ev]) (S (uuids_drawn db))
       (match occurred_at with
        | Some _ => clock_reads db
        | None => S (clock_reads db)
        end)).
Proof.
  intros Hk Hj. unfold append_event. rewrite Hk, Hj. simpl.
  destruct occurred_at; reflexivity.
Qed.

(** C8.  [append_event] raises [ValueError] and leaves the unit of work as
    it was when the payload is not a dictionary, when one of its keys is not
    a string, and when [json.dumps] cannot serialise it.  Otherwise it adds
    exactly one row: its payload is the one given, or the empty dictionary
    when none was given, and its [occurred_at] is the one given, or the
    clock's reading when none was given. *)
Theorem append_event_validates case_id event_type payload actor_type actor_id
    reason occurred_at db :
  let run := append_event uuid_source clock case_id event_type payload actor_type
               actor_id reason occurred_at db in
  let stored := match payload with PNone => PDict [] | _ => payload end in
  (payload <> PNone -> (forall entries, payload <> PDict entries) ->
   exists msg, run = (Err (ValueError msg), db))
  /\ (forall entries,
         payload = PDict entries ->
         forallb (fun kv => is_str (fst kv)) entries = false ->
         exists msg, run = (Err (ValueError msg), db))
  /\ (json_serializable payload = false ->
      exists msg, run = (Err (ValueError msg), db))
  /\ ((payload = PNone
       \/ exists entries,
            payload = PDict entries
            /\ forallb (fun kv => is_str (fst kv)) entries = true
            /\ json_serializable payload = true) ->
      exists ev db',
        run = (Ok ev, db')
        /\ events db' = events db ++ [ev]
        /\ cases db' = cases db
        /\ CaseEvents.payload ev = stored
        /\ CaseEvents.occurred_at ev = default (clock (clock_reads db)) occurred_at
        /\ event_case_id ev = case_id
        /\ CaseEvents.event_type ev = event_type).
Proof.
  intros run stored. subst run stored.
  split; [|split; [|split]].
  - intros Hnone Hdict. destruct payload; try (eexists; reflexivity).
    + done.
    + by destruct (Hdict entries).
  - intros entries -> Hk. unfold append_event. rewrite Hk. eexists. reflexivity.
  - intros Hj. destruct payload; try done; try (eexists; reflexivity).
    unfold append_event. rewrite Hj.
    destruct (forallb _ entries); eexists; reflexivity.
  - intros [-> | (entries & -> & Hk & Hj)].
    + destruct occurred_at; (eexists _, _; split; [lazy; reflexivity|]; repeat split).
    + rewrite append_event_accepts by done. eexists _, _. split; [reflexivity|].
      repeat split.
Qed.

(** C7, as the code has it.  [create_case_from_intake] raises [ValueError]
    without touching the unit of work when the intake payload is not a
    dictionary, and raises [ValueError] when it is a dictionary that
    [json.dumps] cannot serialise.  On a dictionary that can be serialised
    it adds exactly one case (open, no initial awareness, received at the
    time given or at the clock's reading) and then exactly two events of
    that case: [case.created] with the ["case.created.v1"] envelope (source,
    and the intake channel and external reference when given), then
    [intake.received] with the raw payload under the ["intake.received.v1"]
    envelope; it returns the case. *)
Theorem create_case_from_serializable_intake intake_payload source intake_channel
    external_ref actor_type actor_id received_at db :
  let run := create_case_from_intake uuid_source clock intake_payload source
               intake_channel external_ref actor_type actor_id received_at db in
  ((forall entries, intake_payload <> PDict entries) ->
   exists msg, run = (Err (ValueError msg), db))
  /\ (forall entries,
         intake_payload = PDict entries ->
         json_serializable intake_payload = false ->
         exists msg db', run = (Err (ValueError msg), db'))
  /\ (forall entries,
         intake_payload = PDict entries ->
         json_serializable intake_payload = true ->
         exists case e1 e2 db',
           run = (Ok case, db')
           /\ cases db' = cases db ++ [case]
           /\ events db' = events db ++ [e1; e2]
           /\ status case = OPEN
           /\ initial_awareness_at case = None
           /\ CaseEvents.received_at case
              = default (clock (clock_reads db)) received_at
           /\ event_case_id e1 = case_id case
           /\ event_type e1 = CASE_CREATED
           /\ EventType_value (event_type e1) = "case.created"
           /\ payload e1
              = PDict ([(PStr "schema_version", PStr "case.created.v1");
                        (PStr "source", PStr source)]
                       ++ (if given intake_channel
                           then [(PStr "intake_channel",
                                  PStr (default "" intake_channel))]
                           else [])
                       ++ (if given external_ref
                           then [(PStr "external_ref",
                                  PStr (default "" external_ref))]
                           else []))
           /\ event_case_id e2 = case_id case
           /\ event_type e2 = INTAKE_RECEIVED
           /\ EventType_value (event_type e2) = "intake.received"
           /\ payload e2
              = PDict ([(PStr "schema_version", PStr "intake.received.v1");
                        (PStr "source", PStr source);
                        (PStr "raw", intake_payload)]
                       ++ (if given external_ref
                           then [(PStr "external_ref",
                                  PStr (default "" external_ref))]
                           else []))).
Proof.
  intros run. subst run. split; [|split].
  - intros Hdict. destruct intake_payload; try (eexists; reflexivity).
    by destruct (Hdict entries).
  - intros entries -> Hj. unfold create_case_from_intake, and_then.
    destruct received_at as [t|]; cbn [pure utc_now uuid4 add_case].
    all: unfold build_case_created_payload.
    all: destruct (given intake_channel), (given external_ref).
    all: cbn [app]; eexists _, _.
    all: rewrite append_event_accepts by reflexivity; cbn zeta.
    all: unfold append_event; cbn [forallb fst is_str negb andb].
    all: cbn [json_serializable forallb fst snd json_key andb] in Hj |- *.
    all: rewrite Hj; cbn [andb negb raise]; reflexivity.
  - intros entries -> Hj. unfold create_case_from_intake, and_then.
    destruct received_at as [t|]; cbn [pure utc_now uuid4 add_case].
    all: unfold build_case_created_payload.
    all: destruct (given intake_channel), (given external_ref).
    all: cbn [app]; eexists _, _, _, _.
    all: rewrite append_event_accepts by reflexivity; lazy beta iota zeta.
    all: rewrite append_event_accepts;
      [| reflexivity
       | cbn [json_serializable forallb fst snd json_key andb] in Hj |- *;
         rewrite Hj; reflexivity].
    all: lazy beta iota zeta; split; [reflexivity|].
    all: cbn [cases events]; rewrite <- app_assoc; repeat split.
Qed.

End WithSources.

(** C7, as the specification has it, fails: a dictionary that holds a value
    [json.dumps] has no encoding for is an object, and the call raises
    [ValueError] on it instead of returning a case, with the case and its
    [case.created] event already in the unit of work and no
    [intake.received] event. *)
Lemma create_case_from_intake_unserializable :
  let run :=
    create_case_from_intake (fun n => N.of_nat n) (fun n => 1000 + Z.of_nat n)
      (PDict [(PStr "seen_at", PObject "datetime")]) "web" None None API None None
      (Session [] [] 0 0) in
  run = (Err (ValueError "payload is not JSON-serializable"),
         Session
           [{| case_id := 0%N; received_at := 1000; status := OPEN;
               initial_awareness_at := None |}]
           [{| event_id := 1%N; event_case_id := 0%N; event_type := CASE_CREATED;
               occurred_at := 1001; actor_type := API; actor_id := None;
               reason := None;
               payload := PDict [(PStr "schema_version", PStr "case.created.v1");
                                 (PStr "source", PStr "web")] |}]
           2 2)
  /\ ~ (exists case db', run = (Ok case, db') /\ length (events db') = 2%nat).
Proof.
  split; [reflexivity|]. intros (case & db' & H & _). discriminate H.
Qed.

End CaseEventsClaims.

(** * The run store: lemmas *)

Module StorageFacts.

Import Storage Ownership.

Implicit Types (h : list obj) (memo : list (addr * addr)) (x : val) (o : obj).

(** ** Objects and their references *)

Lemma refs_of_put_entry k v o r :
  r ∈ refs_of (put_entry k v o) -> r ∈ refs_of o \/ r ∈ refs_of_val v.
Proof.
  destruct o as [entries|items]; simpl; [|by left].
  induction entries as [|[k' v'] entries IH]; simpl.
  - rewrite app_nil_r. by right.
  - destruct (String.eqb k k'); simpl; rewrite !elem_of_app; [tauto|].
    intros [H|H]; [tauto|]. destruct (IH H); tauto.
Qed.

Lemma refs_of_put_item u v o r :
  r ∈ refs_of (put_item u v o) -> r ∈ refs_of o \/ r ∈ refs_of_val v.
Proof.
  destruct o as [entries|items]; simpl; [by left|].
  rewrite flat_map_app, elem_of_app. simpl. rewrite app_nil_r. tauto.
Qed.

Lemma dict_set_keys k v (entries : list (string * val)) :
  map fst (dict_set k v entries)
  = if has_key k entries then map fst entries else map fst entries ++ [k].
Proof.
  unfold has_key. induction entries as [|[k' v'] entries IH]; simpl; [done|].
  destruct (String.eqb k k'); simpl; [done|]. rewrite IH.
  by destruct (assoc k entries).
Qed.

Lemma has_key_elem {V} k (entries : list (string * V)) :
  has_key k entries = false -> k ∉ map fst entries.
Proof.
  unfold has_key. induction entries as [|[k' v'] entries IH]; simpl.
  - intros _ H. by apply elem_of_nil in H.
  - destruct (String.eqb_spec k k') as [->|Hne]; [done|].
    intros H Hin. apply elem_of_cons in Hin as [?|Hin]; [done|]. by apply IH.
Qed.

Lemma wf_put_entry k v o : wf_obj o -> wf_obj (put_entry k v o).
Proof.
  destruct o as [entries|items]; simpl; [|done]. intros Hnd.
  rewrite dict_set_keys. destruct (has_key k entries) eqn:Hk; [done|].
  apply NoDup_app. split; [done|]. split; [|apply NoDup_singleton].
  intros k' Hin Hk'. apply list_elem_of_singleton in Hk' as ->.
  by apply (has_key_elem _ _ Hk).
Qed.

Lemma wf_put_item u v o : wf_obj o -> wf_obj (put_item u v o).
Proof. by destruct o. Qed.

Lemma all_wf_alter f y h :
  (forall o, wf_obj o -> wf_obj (f o)) -> all_wf h -> all_wf (alter f y h).
Proof.
  intros Hf Hh a o. destruct (decide (a = y)) as [->|Hne].
  - rewrite list_lookup_alter_eq. destruct (h !! y) as [oy|] eqn:Hy; [|done].
    intros [= <-]. by apply Hf, (Hh y).
  - rewrite list_lookup_alter_ne by done. apply Hh.
Qed.

Lemma all_wf_app h o : all_wf h -> wf_obj o -> all_wf (h ++ [o]).
Proof.
  intros Hh Ho a o'. destruct (decide (a < length h)%nat) as [Hlt|Hge].
  - rewrite lookup_app_l by done. apply Hh.
  - destruct (decide (a = length h)) as [->|Hne].
    + rewrite list_lookup_middle by done. by intros [= <-].
    + rewrite lookup_ge_None_2; [done|]. rewrite length_app. simpl. lia.
Qed.

Lemma memo_get_elem a memo y : memo_get a memo = Some y -> (a, y) ∈ memo.
Proof.
  induction memo as [|[a0 y0] memo IH]; simpl; [done|].
  destruct (Nat.eqb_spec a a0) as [->|_].
  - intros [= ->]. left.
  - intros H. right. by apply IH.
Qed.

Lemma frame_refl n h : frame n h h.
Proof. by split. Qed.

Lemma frame_trans n h1 h2 h3 :
  frame n h1 h2 -> frame n h2 h3 -> frame n h1 h3.
Proof.
  intros [L1 E1] [L2 E2]. split; [lia|].
  intros a Ha. by rewrite E2, E1.
Qed.

Lemma frame_weaken n m h h' : (n <= m)%nat -> frame m h h' -> frame n h h'.
Proof. intros Hnm [L E]. split; [done|]. intros a Ha. apply E. lia. Qed.

Lemma frame_alter n f y h : (n <= y)%nat -> frame n h (alter f y h).
Proof.
  intros Hy. split; [by rewrite length_alter|].
  intros a Ha. apply list_lookup_alter_ne. lia.
Qed.

Lemma frame_app n h l : (n <= length h)%nat -> frame n h (h ++ l).
Proof.
  intros Hn. split; [rewrite length_app; lia|].
  intros a Ha. apply lookup_app_l. lia.
Qed.

(** ** [deepcopy] leaves the objects that exist alone *)

Lemma copy_into_frame {K} rec (put : K -> val -> obj -> obj) n y slots :
  (forall x memo h r, rec x memo h = Ok r -> frame (length h) h (snd r)) ->
  (n <= y)%nat ->
  forall memo h r,
    (n <= length h)%nat ->
    copy_into rec put y slots memo h = Ok r -> frame n h (snd r).
Proof.
  intros Hrec Hy. induction slots as [|[k v] slots IH]; intros memo h r Hn; simpl.
  - intros [= <-]. apply frame_refl.
  - destruct (rec v memo h) as [[[v' memo'] h']|e] eqn:Hv; simpl; [|done].
    intros Hrest. apply Hrec in Hv. simpl in Hv.
    eapply frame_trans; [eapply frame_weaken, Hv; done|].
    eapply frame_trans; [apply (frame_alter n (put k v') y h'); done|].
    eapply IH, Hrest. rewrite length_alter. destruct Hv. lia.
Qed.

Lemma old_closed_frame n h h' :
  old_closed n h -> frame n h h' -> old_closed n h'.
Proof. intros Hc [_ HE] a o Ha. rewrite HE by done. by apply Hc. Qed.

Lemma deepcopy_frame depth x memo h r :
  deepcopy depth x memo h = Ok r -> frame (length h) h (snd r).
Proof.
  revert x memo h r. induction depth as [|depth IH]; intros x memo h r.
  - destruct x; simpl; try (intros [= <-]; apply frame_refl).
    destruct (memo_get a memo); [|done]. intros [= <-]. apply frame_refl.
  - destruct x; simpl; try (intros [= <-]; apply frame_refl).
    destruct (memo_get a memo); [intros [= <-]; apply frame_refl|].
    destruct (h !! a) as [[entries|items]|]; [| |done].
    + destruct (copy_into _ _ _ _ _ _) as [[memo' h']|e] eqn:Hc; simpl; [|done].
      intros [= <-]. simpl.
      eapply frame_trans; [apply (frame_app _ h [ODict []]); done|].
      eapply (copy_into_frame _ _ (length h)) in Hc; [done|apply IH|done|].
      rewrite length_app. lia.
    + destruct (copy_into _ _ _ _ _ _) as [[memo' h']|e] eqn:Hc; simpl; [|done].
      intros [= <-]. simpl.
      eapply frame_trans; [apply (frame_app _ h [OList []]); done|].
      eapply (copy_into_frame _ _ (length h)) in Hc; [done|apply IH|done|].
      rewrite length_app. lia.
Qed.


(** ** [deepcopy] builds well-formed objects *)

Lemma copy_into_wf {K} rec (put : K -> val -> obj -> obj) y slots :
  (forall x memo h r, all_wf h -> rec x memo h = Ok r -> all_wf (snd r)) ->
  (forall k v o, wf_obj o -> wf_obj (put k v o)) ->
  forall memo h r,
    all_wf h -> copy_into rec put y slots memo h = Ok r -> all_wf (snd r).
Proof.
  intros Hrec Hput. induction slots as [|[k v] slots IH]; intros memo h r Hh; simpl.
  - by intros [= <-].
  - destruct (rec v memo h) as [[[v' memo'] h']|e] eqn:Hv; simpl; [|done].
    apply IH, all_wf_alter; [by apply Hput|]. by apply (Hrec _ _ _ _ Hh Hv).
Qed.

Lemma deepcopy_wf depth x memo h r :
  all_wf h -> deepcopy depth x memo h = Ok r -> all_wf (snd r).
Proof.
  revert x memo h r. induction depth as [|depth IH]; intros x memo h r Hh.
  - destruct x; simpl; try (by intros [= <-]).
    destruct (memo_get a memo); [|done]. by intros [= <-].
  - destruct x; simpl; try (by intros [= <-]).
    destruct (memo_get a memo); [by intros [= <-]|].
    destruct (h !! a) as [[entries|items]|]; [| |done].
    + destruct (copy_into _ _ _ _ _ _) as [[memo' h']|e] eqn:Hc; simpl; [|done].
      intros [= <-]. simpl.
      eapply (copy_into_wf _ _ _ _ IH wf_put_entry) in Hc; [done|].
      apply all_wf_app; [done|]. apply NoDup_nil_2.
    + destruct (copy_into _ _ _ _ _ _) as [[memo' h']|e] eqn:Hc; simpl; [|done].
      intros [= <-]. simpl.
      eapply (copy_into_wf _ _ _ _ IH wf_put_item) in Hc; [done|].
      by apply all_wf_app.
Qed.

(** ** The copy refers to the copy only *)

Lemma fresh_ok_grow b memo h h' :
  fresh_ok b memo h -> frame (length h) h h' ->
  (forall a o, (length h <= a)%nat -> h' !! a = Some o ->
     refs_in (fun r => (b <= r < length h')%nat) o) ->
  fresh_ok b memo h'.
Proof.
  intros [Hm Hc] [HL HE] Hnew. split.
  - intros a y Hin. specialize (Hm a y Hin). lia.
  - intros a o Hb Ha. destruct (decide (a < length h)%nat) as [Hlt|Hge].
    + rewrite HE in Ha by done. intros r Hr. specialize (Hc a o Hb Ha r Hr).
      simpl in Hc. lia.
    + apply (Hnew a o); [lia|done].
Qed.

Lemma fresh_ok_alter b memo h y f :
  fresh_ok b memo h ->
  (forall o, h !! y = Some o ->
     refs_in (fun r => (b <= r < length h)%nat) o ->
     refs_in (fun r => (b <= r < length h)%nat) (f o)) ->
  fresh_ok b memo (alter f y h).
Proof.
  intros [Hm Hc] Hf. split.
  - intros a z Hin. rewrite length_alter. by apply (Hm a).
  - intros a o Hb. rewrite length_alter.
    destruct (decide (a = y)) as [->|Hne].
    + rewrite list_lookup_alter_eq. destruct (h !! y) as [oy|] eqn:Hy; [|done].
      intros [= <-]. apply Hf; [done|]. by apply (Hc y).
    + rewrite list_lookup_alter_ne by done. by apply Hc.
Qed.

Lemma copy_into_fresh {K} rec (put : K -> val -> obj -> obj) b y slots :
  (forall x memo h r, rec x memo h = Ok r -> frame (length h) h (snd r)) ->
  (forall x memo h x' memo' h',
      (b <= length h)%nat -> fresh_ok b memo h ->
      rec x memo h = Ok (x', memo', h') ->
      fresh_ok b memo' h' /\ val_in (fun r => (b <= r < length h')%nat) x') ->
  (forall k v o r, r ∈ refs_of (put k v o) -> r ∈ refs_of o \/ r ∈ refs_of_val v) ->
  forall memo h memo' h',
    (b <= length h)%nat -> fresh_ok b memo h ->
    copy_into rec put y slots memo h = Ok (memo', h') ->
    fresh_ok b memo' h'.
Proof.
  intros Hframe Hrec Hput.
  induction slots as [|[k v] slots IH]; intros memo h memo' h' Hb Hok; simpl.
  - by intros [= <- <-].
  - destruct (rec v memo h) as [[[v1 memo1] h1]|e] eqn:Hv; simpl; [|done].
    pose proof (Hframe _ _ _ _ Hv) as [HL _]. simpl in HL.
    destruct (Hrec _ _ _ _ _ _ Hb Hok Hv) as [Hok1 Hv1].
    apply IH; [rewrite length_alter; lia|].
    apply fresh_ok_alter; [done|].
    intros o Ho Hrefs r Hr. apply Hput in Hr as [Hr|Hr]; [by apply Hrefs|].
    destruct v1; simpl in Hr; try by apply elem_of_nil in Hr.
    apply list_elem_of_singleton in Hr as ->. by apply Hv1.
Qed.

Lemma deepcopy_fresh depth b x memo h x' memo' h' :
  (b <= length h)%nat -> fresh_ok b memo h ->
  deepcopy depth x memo h = Ok (x', memo', h') ->
  fresh_ok b memo' h' /\ val_in (fun r => (b <= r < length h')%nat) x'.
Proof.
  revert x memo h x' memo' h'.
  induction depth as [|depth IH]; intros x memo h x' memo' h' Hb Hok.
  - destruct x; simpl; try (intros [= <- <- <-]; split; [done|by intros r]).
    destruct (memo_get a memo) as [y|] eqn:Hy; [|done].
    intros [= <- <- <-]. split; [done|].
    intros r [= <-]. destruct Hok as [Hm _]. eapply Hm, memo_get_elem, Hy.
  - destruct x; simpl; try (intros [= <- <- <-]; split; [done|by intros r]).
    destruct (memo_get a memo) as [y|] eqn:Hy.
    { intros [= <- <- <-]. split; [done|].
      intros r [= <-]. destruct Hok as [Hm _]. eapply Hm, memo_get_elem, Hy. }
    assert (Hstart : forall o0, refs_of o0 = [] ->
              fresh_ok b ((a, length h) :: memo) (h ++ [o0])).
    { intros o0 Ho0. destruct Hok as [Hm Hc]. split.
      - intros a1 y1 Hin. rewrite length_app. simpl.
        apply elem_of_cons in Hin as [[= -> ->]|Hin]; [lia|].
        specialize (Hm _ _ Hin). lia.
      - intros a1 o1 Hb1 Ha1. rewrite length_app. simpl.
        destruct (decide (a1 < length h)%nat) as [Hlt|Hge].
        + rewrite lookup_app_l in Ha1 by done.
          intros r Hr. specialize (Hc _ _ Hb1 Ha1 r Hr). simpl in Hc. lia.
        + destruct (decide (a1 = length h)) as [->|Hne].
          * rewrite list_lookup_middle in Ha1 by done. injection Ha1 as <-.
            intros r Hr. rewrite Ho0 in Hr. by apply elem_of_nil in Hr.
          * rewrite lookup_ge_None_2 in Ha1; [done|].
            rewrite length_app. simpl. lia. }
    destruct (h !! a) as [[entries|items]|]; [| |done].
    + destruct (copy_into _ _ _ _ _ _) as [[memo1 h1]|e] eqn:Hc; simpl; [|done].
      intros [= <- <- <-].
      assert (HL : (length h < length h1)%nat).
      { pose proof Hc as Hf.
        eapply (copy_into_frame _ _ (length h)) in Hf;
          [|apply deepcopy_frame|done|rewrite length_app; lia].
        destruct Hf as [HL _]. simpl in HL. rewrite length_app in HL.
        simpl in HL. lia. }
      split.
      * assert (Hlen : (b <= length (h ++ [ODict []]))%nat)
          by (rewrite length_app; lia).
        exact (copy_into_fresh (deepcopy depth) put_entry b (length h) _
                 (deepcopy_frame depth) IH refs_of_put_entry _ _ _ _ Hlen
                 (Hstart (ODict []) eq_refl) Hc).
      * intros r [= <-]. lia.
    + destruct (copy_into _ _ _ _ _ _) as [[memo1 h1]|e] eqn:Hc; simpl; [|done].
      intros [= <- <- <-].
      assert (HL : (length h < length h1)%nat).
      { pose proof Hc as Hf.
        eapply (copy_into_frame _ _ (length h)) in Hf;
          [|apply deepcopy_frame|done|rewrite length_app; lia].
        destruct Hf as [HL _]. simpl in HL. rewrite length_app in HL.
        simpl in HL. lia. }
      split.
      * assert (Hlen : (b <= length (h ++ [OList []]))%nat)
          by (rewrite length_app; lia).
        exact (copy_into_fresh (deepcopy depth) put_item b (length h) _
                 (deepcopy_frame depth) IH refs_of_put_item _ _ _ _ Hlen
                 (Hstart (OList []) eq_refl) Hc).
      * intros r [= <-]. lia.
Qed.


(** ** Writes outside a closed region do not change its copy *)

Lemma stable_frame P n h h' : stable P n h -> frame n h h' -> stable P n h'.
Proof.
  intros (Hb & Hn & Hc) [HL HE]. split; [done|]. split; [lia|].
  intros a o Ha. rewrite HE by by apply Hb. by apply Hc.
Qed.

Lemma refs_in_entries P (entries : list (string * val)) :
  refs_in P (ODict entries) -> Forall (fun kv => val_in P (snd kv)) entries.
Proof.
  intros H. apply Forall_forall. intros [k v] Hin r Hr. simpl in Hr. subst v.
  apply H. simpl.
  apply list_elem_of_In, in_flat_map. exists (k, VRef r).
  split; [by apply list_elem_of_In|]. simpl. by left.
Qed.

Lemma refs_in_items P (items : list val) :
  refs_in P (OList items) ->
  Forall (fun kv : unit * val => val_in P (snd kv)) (map (fun v => (tt, v)) items).
Proof.
  intros H. apply Forall_forall. intros [u v] Hin r Hr. simpl in Hr. subst v.
  apply H. simpl.
  apply list_elem_of_In, in_flat_map. exists (VRef r).
  apply list_elem_of_In, in_map_iff in Hin as (v & Hv & Hin).
  simplify_eq. split; [done|]. simpl. by left.
Qed.



(** ** The tree of a value depends on what the value reaches *)

Lemma mapM_agree {A B} (f g : A -> option B) (l : list A) :
  Forall (fun a => f a = g a) l -> mapM f l = mapM g l.
Proof.
  induction 1 as [|a l Ha _ IH]; simpl; [done|]. by rewrite Ha, IH.
Qed.

Lemma reify_agree fuel (Q : addr -> Prop) h1 h2 x :
  (forall a, Q a -> h1 !! a = h2 !! a) ->
  (forall a o, Q a -> h1 !! a = Some o -> refs_in Q o) ->
  val_in Q x ->
  reify fuel h1 x = reify fuel h2 x.
Proof.
  intros Heq Hcl. revert x. induction fuel as [|fuel IH]; intros x Hx.
  - by destruct x.
  - destruct x; simpl; try done.
    assert (Ha : Q a) by by apply Hx.
    rewrite <- Heq by done.
    destruct (h1 !! a) as [[entries|items]|] eqn:Hcell; [| |done].
    + f_equal. apply mapM_agree.
      eapply Forall_impl; [apply (refs_in_entries Q), (Hcl a); done|].
      intros [k v] Hv. simpl in *. by rewrite IH.
    + f_equal. apply mapM_agree.
      pose proof (refs_in_items Q items (Hcl a _ Ha Hcell)) as Hall.
      rewrite Forall_map in Hall.
      eapply Forall_impl; [exact Hall|]. intros v Hv. by apply IH.
Qed.


(** ** Reasoning about methods *)

Lemma hoare_bind {A B} P (c : method A) Q1 (k : A -> method B) Q :
  hoare P c Q1 ->
  (forall e w, Q1 (Err e) w -> Q (Err e) w) ->
  (forall a, hoare (Q1 (Ok a)) (k a) Q) ->
  hoare P (and_then c k) Q.
Proof.
  intros Hc He Hk w Hw. unfold and_then. specialize (Hc w Hw).
  destruct (c w) as [[a|e] w1]; simpl in *.
  - by apply Hk.
  - by apply He.
Qed.

Lemma hoare_pre {A} (P P' : state -> Prop) (c : method A) Q :
  (forall w, P' w -> P w) -> hoare P c Q -> hoare P' c Q.
Proof. intros HP Hc w Hw. apply Hc, HP, Hw. Qed.

Lemma hoare_raise {A} (P : state -> Prop) e (Q : result A -> state -> Prop) :
  (forall w, P w -> Q (Err e) w) -> hoare P (raise e) Q.
Proof. intros H w Hw. by apply H. Qed.

Lemma hoare_pure {A} (P : state -> Prop) (a : A) (Q : result A -> state -> Prop) :
  (forall w, P w -> Q (Ok a) w) -> hoare P (pure a) Q.
Proof. intros H w Hw. by apply H. Qed.

Lemma hoare_reading {A} (P : state -> Prop) (f : list obj -> result A) :
  hoare P (reading f) (fun r w => P w /\ r = f (heap w)).
Proof. by intros w Hw. Qed.

Lemma hoare_set_heap (P : state -> Prop) f (Q : result unit -> state -> Prop) :
  (forall w, P w -> Q (Ok tt) (State (f (heap w)) (_runs w))) ->
  hoare P (set_heap f) Q.
Proof. intros H w Hw. by apply H. Qed.

Lemma hoare_set_runs (P : state -> Prop) f (Q : result unit -> state -> Prop) :
  (forall w, P w -> Q (Ok tt) (State (heap w) (f (_runs w)))) ->
  hoare P (set_runs f) Q.
Proof. intros H w Hw. by apply H. Qed.

(** ** The invariant under the steps of the store *)

Lemma sep_private_growth K w h' :
  sep K w ->
  frame (length (heap w)) (heap w) h' ->
  (forall a o, (length (heap w) <= a)%nat -> h' !! a = Some o ->
     refs_in (fun r => (length (heap w) <= r < length h')%nat) o) ->
  all_wf h' ->
  sep K (State h' (_runs w)).
Proof.
  intros [Hb Hh Hs Hr _] [HL HE] Hnew Hwf. split; simpl in *; [| | | |exact Hwf].
  - intros a Ha. specialize (Hb a Ha). lia.
  - intros a o Ha. rewrite HE by by apply Hb. by apply Hh.
  - intros a o Ha Hcell r Hr'.
    destruct (decide (a < length (heap w))%nat) as [Hlt|Hge].
    + rewrite HE in Hcell by done. destruct (Hs a o Ha Hcell r Hr'). split; [done|lia].
    + specialize (Hnew a o ltac:(lia) Hcell r Hr'). simpl in Hnew.
      split; [|lia]. intros Hin. specialize (Hb r Hin). lia.
  - intros k a Ha. destruct (Hr k a Ha). split; [done|lia].
Qed.

Lemma sep_held_growth K w h' :
  sep K w ->
  frame (length (heap w)) (heap w) h' ->
  (forall a o, (length (heap w) <= a)%nat -> h' !! a = Some o ->
     refs_in (fun r => (length (heap w) <= r < length h')%nat) o) ->
  all_wf h' ->
  sep (K ∪ set_seq (length (heap w)) (length h' - length (heap w)))
      (State h' (_runs w)).
Proof.
  intros [Hb Hh Hs Hr _] [HL HE] Hnew Hwf. split; simpl in *; [| | | |exact Hwf].
  - intros a Ha. apply elem_of_union in Ha as [Ha|Ha].
    + specialize (Hb a Ha). lia.
    + apply elem_of_set_seq in Ha. lia.
  - intros a o Ha Hcell r Hr'. apply elem_of_union in Ha as [Ha|Ha].
    + rewrite HE in Hcell by by apply Hb. apply elem_of_union. left.
      by apply (Hh a o).
    + apply elem_of_set_seq in Ha.
      specialize (Hnew a o ltac:(lia) Hcell r Hr'). simpl in Hnew.
      apply elem_of_union. right. apply elem_of_set_seq. lia.
  - intros a o Ha Hcell r Hr'.
    apply not_elem_of_union in Ha as [Ha1 Ha2].
    assert (Hlt : (a < length (heap w))%nat).
    { apply lookup_lt_Some in Hcell.
      destruct (decide (a < length (heap w))%nat); [done|].
      exfalso. apply Ha2, elem_of_set_seq. lia. }
    rewrite HE in Hcell by done. destruct (Hs a o Ha1 Hcell r Hr') as [Hr1 Hr2].
    split; [|lia]. apply not_elem_of_union. split; [done|].
    rewrite elem_of_set_seq. lia.
  - intros k a Ha. destruct (Hr k a Ha) as [Hr1 Hr2]. split; [|lia].
    apply not_elem_of_union. split; [done|]. rewrite elem_of_set_seq. lia.
Qed.

Lemma sep_alter K w y f :
  sep K w -> y ∉ K ->
  (forall o, heap w !! y = Some o ->
     refs_in (fun r => (r ∉ K) /\ (r < length (heap w))%nat) (f o)) ->
  (forall o, wf_obj o -> wf_obj (f o)) ->
  sep K (State (alter f y (heap w)) (_runs w)).
Proof.
  intros [Hb Hh Hs Hr Hwf] Hy Hf Hfwf. split; simpl in *;
    [| | | |by apply all_wf_alter].
  - intros a Ha. rewrite length_alter. by apply Hb.
  - intros a o Ha. rewrite list_lookup_alter_ne by (by intros ->). by apply Hh.
  - intros a o Ha. rewrite length_alter. destruct (decide (a = y)) as [->|Hne].
    + rewrite list_lookup_alter_eq. destruct (heap w !! y) as [oy|] eqn:Hcell; [|done].
      intros [= <-]. by apply Hf.
    + rewrite list_lookup_alter_ne by done. by apply Hs.
  - intros k a Ha. rewrite length_alter. by apply (Hr k).
Qed.

Lemma sep_setitem K w y k v :
  sep K w -> y ∉ K ->
  val_in (fun r => (r ∉ K) /\ (r < length (heap w))%nat) v ->
  sep K (State (setitem y k v (heap w)) (_runs w)).
Proof.
  intros Hw Hy Hv. apply sep_alter; [done..| |apply wf_put_entry].
  intros o Hcell r Hr. apply refs_of_put_entry in Hr as [Hr|Hr].
  - by apply (store_closed _ Hw y o).
  - destruct v; simpl in Hr; try by apply elem_of_nil in Hr.
    apply list_elem_of_singleton in Hr as ->. by apply Hv.
Qed.

Lemma sep_setdefault K w y k v :
  sep K w -> y ∉ K ->
  val_in (fun r => (r ∉ K) /\ (r < length (heap w))%nat) v ->
  sep K (State (setdefault y k v (heap w)) (_runs w)).
Proof.
  intros Hw Hy Hv. unfold setdefault.
  destruct (heap w !! y) as [[entries|items]|]; try by destruct w.
  destruct (has_key k entries); [by destruct w|]. by apply sep_setitem.
Qed.

Lemma sep_set_runs K w key y :
  sep K w -> y ∉ K -> (y < length (heap w))%nat ->
  sep K (State (heap w) (<[key := y]> (_runs w))).
Proof.
  intros [Hb Hh Hs Hr Hwf] Hy Hlt. split; simpl in *; try done.
  intros k a. rewrite lookup_insert. case_decide; [|by apply Hr].
  by intros [= <-].
Qed.


Lemma getitem_refs h y k v r :
  getitem h y k = Ok v -> v = VRef r ->
  exists o, h !! y = Some o /\ r ∈ refs_of o.
Proof.
  unfold getitem, subscript. intros H ->.
  destruct (h !! y) as [[entries|items]|]; [|done..].
  destruct (assoc k entries) as [v|] eqn:Hk; [|done]. injection H as ->.
  eexists. split; [done|]. simpl. apply list_elem_of_In, in_flat_map.
  exists (k, VRef r). split; [|by left].
  clear -Hk. induction entries as [|[k' v'] entries IH]; simpl in *; [done|].
  destruct (String.eqb_spec k k') as [->|_]; [left; congruence|right; auto].
Qed.

Lemma getitem_private K w y k v :
  sep K w -> y ∉ K -> getitem (heap w) y k = Ok v ->
  val_in (fun r => (r ∉ K) /\ (r < length (heap w))%nat) v.
Proof.
  intros Hw Hy Hget r ->.
  destruct (getitem_refs _ _ _ _ _ Hget eq_refl) as (o & Hcell & Hr).
  by apply (store_closed _ Hw y o).
Qed.

Section StoreFacts.

Variable limit : nat.

(** What a copy leaves behind: the old objects as they were, and new
    objects that refer to new objects. *)
Lemma deepcopy_call_spec x w :
  match deepcopy_call limit x w with
  | (Ok y, w') =>
      _runs w' = _runs w
      /\ frame (length (heap w)) (heap w) (heap w')
      /\ (forall a o, (length (heap w) <= a)%nat -> heap w' !! a = Some o ->
          refs_in (fun r => (length (heap w) <= r < length (heap w'))%nat) o)
      /\ (forall a, x = VRef a ->
          y = VRef (length (heap w)) /\ (length (heap w) < length (heap w'))%nat)
      /\ (all_wf (heap w) -> all_wf (heap w'))
  | (Err _, w') => w' = w
  end.
Proof.
  unfold deepcopy_call.
  destruct (deepcopy limit x [] (heap w)) as [[[y memo'] h']|e] eqn:Hd; [|done].
  simpl. split; [done|]. split; [apply (deepcopy_frame _ _ _ _ _ Hd)|].
  assert (Hwf : all_wf (heap w) -> all_wf h')
    by (intros Hh; apply (deepcopy_wf _ _ _ _ _ Hh Hd)).
  assert (H0 : fresh_ok (length (heap w)) [] (heap w)).
  { split; [intros a y0 Hin; by apply elem_of_nil in Hin|].
    intros a o Ha Hcell. apply lookup_lt_Some in Hcell. lia. }
  destruct (deepcopy_fresh _ _ _ _ _ _ _ _ (Nat.le_refl _) H0 Hd) as [[_ Hc] Hy].
  split; [exact Hc|]. split; [|exact Hwf].
  intros a ->. destruct limit as [|d]; simpl in Hd; [done|].
  destruct (heap w !! a) as [[entries|items]|]; [| |done].
  - destruct (copy_into _ _ _ _ _ _) as [[m1 h1]|]; simpl in Hd; [|done].
    injection Hd as <- <- <-. split; [done|].
    specialize (Hy _ eq_refl). simpl in Hy. lia.
  - destruct (copy_into _ _ _ _ _ _) as [[m1 h1]|]; simpl in Hd; [|done].
    injection Hd as <- <- <-. split; [done|].
    specialize (Hy _ eq_refl). simpl in Hy. lia.
Qed.

(** The copy stays with the store. *)
Lemma hoare_deepcopy_private K a :
  hoare (sep K) (deepcopy_call limit (VRef a))
    (fun r w' =>
       sep K w'
       /\ forall y, r = Ok y ->
            exists b, y = VRef b /\ (b ∉ K) /\ (b < length (heap w'))%nat).
Proof.
  intros w Hw. pose proof (deepcopy_call_spec (VRef a) w) as Hspec.
  destruct (deepcopy_call limit (VRef a) w) as [[y|e] w'] eqn:Hd; simpl.
  - destruct Hspec as (Hruns & Hf & Hnew & Hy & Hwf).
    destruct (Hy a eq_refl) as [-> Hlt].
    split.
    + destruct w' as [h' runs']. simpl in *. subst runs'.
      apply sep_private_growth; [done..|]. exact (Hwf (heap_wf _ Hw)).
    + intros y [= <-]. eexists. split; [done|]. split; [|done].
      intros Hin. apply (held_bound _ Hw) in Hin. simpl in Hin. lia.
  - subst w'. split; [done|]. by intros y.
Qed.

(** The copy is handed to the caller. *)
Lemma hoare_deepcopy_held K a :
  hoare (sep K) (deepcopy_call limit (VRef a))
    (fun r w' => sep (receive_result r w' K) w').
Proof.
  intros w Hw. pose proof (deepcopy_call_spec (VRef a) w) as Hspec.
  destruct (deepcopy_call limit (VRef a) w) as [[y|e] w'] eqn:Hd; simpl.
  - destruct Hspec as (Hruns & Hf & Hnew & Hy & Hwf).
    destruct (Hy a eq_refl) as [-> Hlt].
    destruct w' as [h' runs']. simpl in *. subst runs'.
    apply sep_held_growth; [done..|]. exact (Hwf (heap_wf _ Hw)).
  - by subst w'.
Qed.


(** A method that only reads keeps what holds of the state. *)
Lemma hoare_run_id_missing (P : state -> Prop) run :
  hoare P (run_id_missing run) (fun _ w => P w).
Proof.
  unfold run_id_missing.
  eapply hoare_bind; [apply hoare_reading|by intros e w [? _]|].
  intros c. destruct c; simpl.
  - eapply hoare_bind; [apply hoare_reading|by intros e w [[? _] _]|].
    intros v w [[Hw _] _]. done.
  - apply hoare_pure. by intros w [? _].
Qed.

Lemma create_run_sep K now run :
  hoare (sep K) (create_run limit now run) (fun _ w' => sep K w').
Proof.
  unfold create_run.
  eapply hoare_bind; [apply hoare_run_id_missing|done|].
  intros missing. destruct missing; [by apply hoare_raise|].
  eapply hoare_bind; [apply hoare_reading|by intros e w [? _]|]. intros rid.
  eapply hoare_bind; [apply hoare_reading|by intros e w [[? _] _]|]. intros key.
  eapply hoare_bind with (Q1 := fun _ w => sep K w);
    [by intros w [[? _] _]|done|].
  intros known. destruct known; [by apply hoare_raise|].
  eapply hoare_bind; [apply hoare_deepcopy_private|by intros e w [? _]|].
  intros x. unfold as_ref.
  destruct x as [| | | |y]; try (apply hoare_raise; by intros w [? _]).
  eapply hoare_bind with
    (Q1 := fun r w => sep K w
                      /\ forall b, r = Ok b -> (b ∉ K) /\ (b < length (heap w))%nat).
  { apply hoare_pure. intros w [Hw Hy]. split; [done|]. intros b [= <-].
    destruct (Hy _ eq_refl) as (b & [= ->] & Hb & Hlt). done. }
  { by intros e w [? _]. }
  intros run'.
  apply (hoare_pre (fun w => sep K w /\ (run' ∉ K) /\ (run' < length (heap w))%nat));
    [intros w [Hw Hy]; split; [done|]; by apply Hy|].
  eapply hoare_bind with
    (Q1 := fun _ w => sep K w /\ (run' ∉ K) /\ (run' < length (heap w))%nat).
  { apply hoare_set_heap. intros w (Hw & Hy & Hlt). simpl.
    split; [by apply sep_setdefault|]. split; [done|].
    unfold setdefault, setitem.
    destruct (heap w !! run') as [[entries|items]|]; try done.
    destruct (has_key _ entries); [done|]. by rewrite length_alter. }
  { by intros e w [? _]. }
  intros _.
  eapply hoare_bind; [apply hoare_reading|by intros e w [[? _] _]|]. intros created.
  eapply hoare_bind with
    (Q1 := fun _ w => sep K w /\ (run' ∉ K) /\ (run' < length (heap w))%nat).
  { apply hoare_set_heap. intros w [(Hw & Hy & Hlt) Hc]. simpl.
    split; [apply sep_setdefault; [done..|by eapply getitem_private]|].
    split; [done|]. unfold setdefault, setitem.
    destruct (heap w !! run') as [[entries|items]|]; try done.
    destruct (has_key _ entries); [done|]. by rewrite length_alter. }
  { by intros e w [? _]. }
  intros _.
  eapply hoare_bind; [apply hoare_reading|by intros e w [[? _] _]|]. intros rid'.
  eapply hoare_bind; [apply hoare_reading|by intros e w [[[? _] _] _]|]. intros key'.
  apply hoare_set_runs. intros w [[(Hw & Hy & Hlt) _] _].
  by apply sep_set_runs.
Qed.

Lemma get_run_sep K run_id :
  hoare (sep K) (get_run limit run_id) (fun r w' => sep (receive_result r w' K) w').
Proof.
  intros w Hw. unfold get_run.
  destruct (_runs w !! Some (inl run_id)) as [run|]; [|done].
  destruct (truthy (heap w) (VRef run)); [|done].
  by apply hoare_deepcopy_held.
Qed.

Lemma replace_run_sep K now run :
  hoare (sep K) (replace_run limit now run)
    (fun r w' => sep (receive_result r w' K) w').
Proof.
  unfold replace_run.
  eapply hoare_bind; [apply hoare_run_id_missing|done|].
  intros missing. destruct missing; [by apply hoare_raise|].
  eapply hoare_bind; [apply hoare_reading|by intros e w [? _]|]. intros rid.
  eapply hoare_bind; [apply hoare_reading|by intros e w [[? _] _]|]. intros key.
  eapply hoare_bind with (Q1 := fun _ w => sep K w);
    [by intros w [[? _] _]|done|].
  intros known. destruct known; simpl; [|by apply hoare_raise].
  eapply hoare_bind; [apply hoare_deepcopy_private|by intros e w [? _]|].
  intros x. unfold as_ref.
  destruct x as [| | | |y]; try (apply hoare_raise; by intros w [? _]).
  eapply hoare_bind with
    (Q1 := fun r w => sep K w
                      /\ forall b, r = Ok b -> (b ∉ K) /\ (b < length (heap w))%nat).
  { apply hoare_pure. intros w [Hw Hy]. split; [done|]. intros b [= <-].
    destruct (Hy _ eq_refl) as (b & [= ->] & Hb & Hlt). done. }
  { by intros e w [? _]. }
  intros new_run.
  apply (hoare_pre (fun w => sep K w /\ (new_run ∉ K) /\ (new_run < length (heap w))%nat));
    [intros w [Hw Hy]; split; [done|]; by apply Hy|].
  eapply hoare_bind with
    (Q1 := fun _ w => sep K w /\ (new_run ∉ K) /\ (new_run < length (heap w))%nat).
  { apply hoare_set_heap. intros w (Hw & Hy & Hlt). simpl.
    split; [apply sep_setitem; [done..|by intros r]|]. split; [done|].
    unfold setitem. by rewrite length_alter. }
  { by intros e w [? _]. }
  intros _.
  eapply hoare_bind with (Q1 := fun _ w => sep K w).
  { apply hoare_set_runs. intros w (Hw & Hy & Hlt). by apply sep_set_runs. }
  { done. }
  intros _. apply hoare_deepcopy_held.
Qed.

(** ** Every configuration keeps the caller and the store apart *)

Lemma initial_separated : separated initial.
Proof.
  split; simpl.
  - intros a Ha. by apply not_elem_of_empty in Ha.
  - intros a o Ha. by apply not_elem_of_empty in Ha.
  - intros a o _ Ha. by rewrite lookup_nil in Ha.
  - intros k a Ha. by rewrite lookup_empty in Ha.
  - intros a o Ha. by rewrite lookup_nil in Ha.
Qed.

Lemma step_separated c c' : step limit c c' -> separated c -> separated c'.
Proof.
  intros Hstep Hc. destruct Hstep as
    [w K o Hwo Ho | w K a o Ha Hwo Ho | w K now run res w' Hrun Hcall
     | w K run_id res w' Hcall | w K now run res w' Hrun Hcall].
  - destruct Hc as [Hb Hh Hs Hr Hwf]. split; simpl in *;
      [| | | |by apply all_wf_app].
    + intros a Ha. rewrite length_app. simpl.
      apply elem_of_union in Ha as [Ha|Ha]; [specialize (Hb a Ha); lia|].
      apply elem_of_singleton in Ha. lia.
    + intros a o' Ha Hcell r Hr'. apply elem_of_union.
      apply elem_of_union in Ha as [Ha|Ha].
      * rewrite lookup_app_l in Hcell by by apply Hb. left. by apply (Hh a o').
      * apply elem_of_singleton in Ha as ->.
        rewrite list_lookup_middle in Hcell by done. injection Hcell as <-.
        left. by apply Ho.
    + intros a o' Ha Hcell r Hr'. apply not_elem_of_union in Ha as [Ha1 Ha2].
      assert (Hlt : (a < length (heap w))%nat).
      { apply lookup_lt_Some in Hcell. rewrite length_app in Hcell. simpl in Hcell.
        destruct (decide (a = length (heap w))) as [->|]; [|lia].
        exfalso. by apply Ha2, elem_of_singleton. }
      rewrite lookup_app_l in Hcell by done.
      destruct (Hs a o' Ha1 Hcell r Hr') as [Hr1 Hr2]. rewrite length_app. simpl.
      split; [|lia]. apply not_elem_of_union. split; [done|].
      rewrite elem_of_singleton. lia.
    + intros k a Ha. destruct (Hr k a Ha) as [Hr1 Hr2]. rewrite length_app. simpl.
      split; [|lia]. apply not_elem_of_union. split; [done|].
      rewrite elem_of_singleton. lia.
  - destruct Hc as [Hb Hh Hs Hr Hwf]. split; simpl in *.
    + intros a' Ha'. rewrite length_insert. by apply Hb.
    + intros a' o' Ha'. destruct (decide (a = a')) as [->|Hne].
      * rewrite list_lookup_insert_eq by by apply Hb. intros [= <-]. exact Ho.
      * rewrite list_lookup_insert_ne by done. by apply Hh.
    + intros a' o' Ha'. rewrite length_insert.
      rewrite list_lookup_insert_ne by (by intros ->). by apply Hs.
    + intros k a' Ha'. rewrite length_insert. by apply (Hr k).
    + intros a' o'. rewrite list_insert_alter. revert a' o'.
      apply all_wf_alter; [done|exact Hwf].
  - pose proof (create_run_sep K now run w Hc) as H. by rewrite Hcall in H.
  - pose proof (get_run_sep K run_id w Hc) as H. by rewrite Hcall in H.
  - pose proof (replace_run_sep K now run w Hc) as H. by rewrite Hcall in H.
Qed.

Lemma reachable_separated c : reachable limit c -> separated c.
Proof.
  intros Hc. unfold reachable in Hc. revert c Hc.
  apply (rtc_ind_r (fun c => separated c) initial).
  - apply initial_separated.
  - intros c1 c2 _ Hstep IH. by eapply step_separated.
Qed.


(** ** A write to an object of the caller and the next [get_run] *)

Lemma sep_stable K w :
  sep K w ->
  stable (fun r => (r ∉ K) /\ (r < length (heap w))%nat) (length (heap w)) (heap w).
Proof.
  intros Hw. split; [by intros a [_ ?]|]. split; [done|].
  intros a o [Ha _] Hcell. by apply (store_closed _ Hw a o).
Qed.

Lemma separated_old_closed K w :
  sep K w -> old_closed (length (heap w)) (heap w).
Proof.
  intros Hw a o _ Hcell r Hr. destruct (decide (a ∈ K)) as [Ha|Ha].
  - apply (held_bound _ Hw). by apply (held_closed _ Hw a o).
  - by apply (store_closed _ Hw a o).
Qed.


End StoreFacts.

End StorageFacts.

(** * The run store: a copy taken after the caller built one more object *)

Module ShiftFacts.

Import Storage Ownership StorageFacts.

Implicit Types (h : list obj) (memo : list (addr * addr)) (x : val) (o : obj).











Section GetAfterAlloc.

Variable limit : nat.


End GetAfterAlloc.

End ShiftFacts.

(** * The run store: a copy has the content of its original *)

Module CopyFacts.

Import Storage Ownership StorageFacts.

Implicit Types (h : list obj) (memo : list (addr * addr)) (x : val) (o : obj).

Lemma mono_refl memo : mono memo memo.
Proof. by intros a y. Qed.

Lemma mono_trans m1 m2 m3 : mono m1 m2 -> mono m2 m3 -> mono m1 m3.
Proof. intros H1 H2 a y Ha. by apply H2, H1. Qed.

Lemma mono_cons a y memo : memo_get a memo = None -> mono memo ((a, y) :: memo).
Proof.
  intros Ha a' y' Ha'. simpl. destruct (Nat.eqb_spec a' a) as [->|_]; [|done].
  congruence.
Qed.

Lemma val_rel_mono memo memo' x x' :
  mono memo memo' -> val_rel memo x x' -> val_rel memo' x x'.
Proof.
  intros Hm. destruct x; simpl; try done. intros (y & Hy & ->). eauto.
Qed.

Lemma slots_rel_mono {K} memo memo' (src dst : list (K * val)) :
  mono memo memo' -> slots_rel memo src dst -> slots_rel memo' src dst.
Proof.
  intros Hm Hrel. unfold slots_rel in *.
  eapply Forall2_impl; [exact Hrel|].
  intros s d [? ?]. eauto using val_rel_mono.
Qed.

Lemma obj_rel_mono memo memo' o o' :
  mono memo memo' -> obj_rel memo o o' -> obj_rel memo' o o'.
Proof.
  intros Hm. destruct o, o'; simpl; try done.
  - by apply slots_rel_mono.
  - intros Hrel. eapply Forall2_impl; [exact Hrel|].
    intros. by eapply val_rel_mono.
Qed.

Lemma copied_transfer memo memo' h h' a y :
  copied memo h a y -> h' !! a = h !! a -> h' !! y = h !! y ->
  mono memo memo' -> copied memo' h' a y.
Proof.
  intros (o & o' & Ha & Hy & Hrel) Ea Ey Hm. exists o, o'.
  rewrite Ea, Ey. eauto using obj_rel_mono.
Qed.

Lemma copying_frame n memo h h' :
  copying n memo h -> frame n h h' -> copying n memo h'.
Proof.
  intros [HL Hcl Hwf Hm] Hf. pose proof Hf as [HL' HE]. split.
  - lia.
  - by eapply old_closed_frame.
  - intros a o Ha. rewrite HE by done. by apply Hwf.
  - intros a y Hy. specialize (Hm a y Hy). lia.
Qed.

Lemma dict_set_fresh k v (entries : list (string * val)) :
  NoDup (map fst entries ++ [k]) -> dict_set k v entries = entries ++ [(k, v)].
Proof.
  intros Hnd. apply NoDup_app in Hnd as (_ & Hni & _).
  induction entries as [|[k' v'] entries IH]; simpl; [done|].
  destruct (String.eqb_spec k k') as [->|Hne].
  - exfalso. apply (Hni k'); [left|]. apply list_elem_of_singleton. done.
  - f_equal. apply IH. intros k0 Hin. apply Hni. by right.
Qed.

(** The loop, for a container under construction at [y]: [mk dst] is what it
    holds after the slots [done] have been copied. *)
Lemma copy_into_copies {K} rec (put : K -> val -> obj -> obj)
    (mk : list (K * val) -> obj) (ok : list K -> Prop) n y :
  (forall x memo h r, rec x memo h = Ok r -> frame (length h) h (snd r)) ->
  (forall x memo h x' memo' h',
      copying n memo h -> val_in (fun r => (r < n)%nat) x ->
      rec x memo h = Ok (x', memo', h') ->
      copying n memo' h' /\ mono memo memo' /\ val_rel memo' x x'
      /\ new_done h memo memo' h') ->
  (forall dst k v, ok (map fst dst ++ [k]) -> put k v (mk dst) = mk (dst ++ [(k, v)])) ->
  (forall l1 l2, ok (l1 ++ l2) -> ok l1) ->
  (n <= y)%nat ->
  forall slots done dst memo h memo' h',
    copying n memo h -> (y < length h)%nat -> h !! y = Some (mk dst) ->
    slots_rel memo done dst ->
    ok (map fst (done ++ slots)) ->
    Forall (fun kv => val_in (fun r => (r < n)%nat) (snd kv)) slots ->
    copy_into rec put y slots memo h = Ok (memo', h') ->
    copying n memo' h' /\ mono memo memo'
    /\ ((length h <= length h')%nat
        /\ forall b, (b < length h)%nat -> b <> y -> h' !! b = h !! b)
    /\ (exists dst', h' !! y = Some (mk dst') /\ slots_rel memo' (done ++ slots) dst')
    /\ new_done h memo memo' h'.
Proof.
  intros Hframe Hrec Hput Hok Hy.
  induction slots as [|[k v] slots IH];
    intros done dst memo h memo' h' Hcp Hlt Hcell Hrel Hkeys Hall; simpl.
  - intros [= <- <-]. split; [done|]. split; [apply mono_refl|].
    split; [done|]. split.
    + exists dst. by rewrite app_nil_r.
    + intros a y2 H1 H2. congruence.
  - apply Forall_cons in Hall as [Hv Hall]. simpl in Hv.
    destruct (rec v memo h) as [[[v1 m1] h1]|e] eqn:Hr; simpl; [|done].
    intros Hrest.
    pose proof (Hframe _ _ _ _ Hr) as Hf. simpl in Hf. destruct Hf as [HL1 HE1].
    destruct (Hrec _ _ _ _ _ _ Hcp Hv Hr) as (Hcp1 & Hm1 & Hv1 & Hn1).
    assert (Hdst : map fst dst = map fst done).
    { clear -Hrel. induction Hrel as [|s d ss ds [E _] _ IH]; simpl; [done|].
      by rewrite E, IH. }
    assert (Hcell1 : alter (put k v1) y h1 !! y = Some (mk (dst ++ [(k, v1)]))).
    { rewrite list_lookup_alter_eq, HE1, Hcell by done. simpl. f_equal.
      apply Hput. rewrite Hdst. apply (Hok _ (map fst slots)).
      rewrite <- app_assoc. simpl. by rewrite map_app in Hkeys. }
    assert (Hcp1a : copying n m1 (alter (put k v1) y h1)).
    { eapply copying_frame; [done|]. by apply frame_alter. }
    assert (Hlt1 : (y < length (alter (put k v1) y h1))%nat).
    { rewrite length_alter. lia. }
    assert (Hrel1 : slots_rel m1 (done ++ [(k, v)]) (dst ++ [(k, v1)])).
    { apply Forall2_app; [by eapply slots_rel_mono|].
      constructor; [done|constructor]. }
    assert (Hkeys1 : ok (map fst ((done ++ [(k, v)]) ++ slots))).
    { by rewrite <- app_assoc. }
    destruct (IH _ _ _ _ _ _ Hcp1a Hlt1 Hcell1 Hrel1 Hkeys1 Hall Hrest)
      as (Hcp' & Hm' & [HL' HE'] & (dst' & Hd1 & Hd2) & Hn').
    clear IH.
    rewrite length_alter in HL', HE'.
    split; [done|]. split; [by eapply mono_trans|].
    split; [split; [lia|]|split].
    + intros b Hb Hne. rewrite HE' by lia.
      rewrite list_lookup_alter_ne by done. by apply HE1.
    + exists dst'. split; [done|]. by rewrite <- app_assoc in Hd2.
    + intros a y2 Ha' Ha.
      destruct (memo_get a m1) as [y3|] eqn:Ha1.
      * pose proof (Hm' _ _ Ha1) as Ha3. rewrite Ha' in Ha3. injection Ha3 as ->.
        destruct (Hn1 _ _ Ha1 Ha) as [Hge Hcop]. split; [done|].
        destruct (copying_memo _ _ _ Hcp1 _ _ Ha1) as [Han Hyn].
        eapply copied_transfer; [exact Hcop| | |done].
        -- rewrite HE' by lia. apply list_lookup_alter_ne. lia.
        -- rewrite HE' by lia. apply list_lookup_alter_ne. lia.
      * destruct (Hn' _ _ Ha' Ha1) as [Hge Hcop]. rewrite length_alter in Hge.
        split; [lia|done].
Qed.

Lemma slots_rel_nil {K} memo : @slots_rel K memo [] [].
Proof. constructor. Qed.

Lemma slots_rel_items memo (items : list val) (dst : list (unit * val)) :
  slots_rel memo (map (fun v => (tt, v)) items) dst ->
  Forall2 (val_rel memo) items (map snd dst).
Proof.
  unfold slots_rel. intros H. apply Forall2_fmap_l in H. apply Forall2_fmap_r.
  eapply Forall2_impl; [exact H|]. by intros v d [_ ?].
Qed.

Lemma deepcopy_copies depth n :
  forall x memo h x' memo' h',
    copying n memo h -> val_in (fun r => (r < n)%nat) x ->
    deepcopy depth x memo h = Ok (x', memo', h') ->
    copying n memo' h' /\ mono memo memo' /\ val_rel memo' x x'
    /\ new_done h memo memo' h'.
Proof.
  assert (Hatom : forall x memo h,
             match x with VRef _ => False | _ => True end ->
             copying n memo h ->
             copying n memo h /\ mono memo memo /\ val_rel memo x x
             /\ new_done h memo memo h).
  { intros x memo h Hx Hcp. split; [done|]. split; [apply mono_refl|].
    split; [by destruct x|]. intros a y H1 H2. congruence. }
  assert (Hhit : forall a y memo h,
             memo_get a memo = Some y -> copying n memo h ->
             copying n memo h /\ mono memo memo /\ val_rel memo (VRef a) (VRef y)
             /\ new_done h memo memo h).
  { intros a y memo h Hy Hcp. split; [done|]. split; [apply mono_refl|].
    split; [simpl; eauto|]. intros a' y' H1 H2. congruence. }
  induction depth as [|depth IH]; intros x memo h x' memo' h' Hcp Hx.
  - destruct x as [| | | |a]; intros Hd; simpl in Hd;
      try (injection Hd as <- <- <-; by apply Hatom); revert Hd.
    destruct (memo_get a memo) as [y|] eqn:Hy; [|done].
    intros [= <- <- <-]. by apply Hhit.
  - destruct x as [| | | |a]; intros Hd; simpl in Hd;
      try (injection Hd as <- <- <-; by apply Hatom); revert Hd.
    destruct (memo_get a memo) as [y|] eqn:Hy;
      [intros [= <- <- <-]; by apply Hhit|].
    assert (Ha : (a < n)%nat) by by apply Hx.
    pose proof (copying_length _ _ _ Hcp) as Hn.
    assert (Hcp1 : forall o0, refs_of o0 = [] ->
              copying n ((a, length h) :: memo) (h ++ [o0])).
    { intros o0 Ho0. split.
      - rewrite length_app. lia.
      - eapply old_closed_frame; [apply Hcp|]. by apply frame_app.
      - intros a1 o1 Ha1. rewrite lookup_app_l by lia. by apply (copying_wf _ _ _ Hcp).
      - intros a1 y1. simpl. rewrite length_app. simpl.
        destruct (Nat.eqb_spec a1 a) as [->|_].
        + intros [= <-]. lia.
        + intros H1. destruct (copying_memo _ _ _ Hcp _ _ H1). lia. }
    assert (Hself : forall memo1, mono ((a, length h) :: memo) memo1 ->
              memo_get a memo1 = Some (length h)).
    { intros memo1 Hm. apply Hm. simpl. by rewrite Nat.eqb_refl. }
    destruct (h !! a) as [[entries|items]|] eqn:Hcell; [| |done].
    + destruct (copy_into _ _ _ _ _ _) as [[m1 h1]|e] eqn:Hc; simpl; [|done].
      intros [= <- <- <-].
      destruct (copy_into_copies (deepcopy depth) put_entry ODict (@NoDup string)
                  n (length h) (deepcopy_frame depth) IH
                  (fun dst k v H => f_equal ODict (dict_set_fresh k v dst H))
                  (fun l1 l2 H => proj1 (proj1 (NoDup_app l1 l2) H)) Hn
                  entries [] [] _ _ _ _ (Hcp1 (ODict []) eq_refl)
                  ltac:(rewrite length_app; simpl; lia)
                  (list_lookup_middle h [] (ODict []) _ eq_refl)
                  (slots_rel_nil _)
                  (copying_wf _ _ _ Hcp a _ Ha Hcell)
                  (refs_in_entries _ _ (copying_closed _ _ _ Hcp a _ Ha Hcell))
                  Hc)
        as (Hcp' & Hm' & [HL' HE'] & (dst' & Hd1 & Hd2) & Hn').
      rewrite length_app in HL', HE'. simpl in HL', HE', Hd2.
      split; [done|]. split; [eapply mono_trans; [by apply mono_cons|done]|].
      split; [simpl; eauto|].
      intros a2 y2 H2 Hnone. destruct (decide (a2 = a)) as [->|Hne].
      * rewrite (Hself _ Hm') in H2. injection H2 as <-. split; [done|].
        exists (ODict entries), (ODict dst'). split; [|done].
        rewrite HE' by lia. by rewrite lookup_app_l by lia.
      * destruct (Hn' a2 y2 H2) as [Hge Hcop].
        { simpl. by destruct (Nat.eqb_spec a2 a). }
        rewrite length_app in Hge. split; [lia|done].
    + destruct (copy_into _ _ _ _ _ _) as [[m1 h1]|e] eqn:Hc; simpl; [|done].
      intros [= <- <- <-].
      destruct (copy_into_copies (deepcopy depth) put_item
                  (fun dst => OList (map snd dst)) (fun _ => True)
                  n (length h) (deepcopy_frame depth) IH
                  (fun dst k v _ => f_equal OList (eq_sym (map_app snd dst [(k, v)])))
                  (fun _ _ _ => I) Hn
                  (map (fun v => (tt, v)) items) [] [] _ _ _ _
                  (Hcp1 (OList []) eq_refl)
                  ltac:(rewrite length_app; simpl; lia)
                  (list_lookup_middle h [] (OList []) _ eq_refl)
                  (slots_rel_nil _) I
                  (refs_in_items _ _ (copying_closed _ _ _ Hcp a _ Ha Hcell))
                  Hc)
        as (Hcp' & Hm' & [HL' HE'] & (dst' & Hd1 & Hd2) & Hn').
      rewrite length_app in HL', HE'. simpl in HL', HE', Hd2.
      split; [done|]. split; [eapply mono_trans; [by apply mono_cons|done]|].
      split; [simpl; eauto|].
      intros a2 y2 H2 Hnone. destruct (decide (a2 = a)) as [->|Hne].
      * rewrite (Hself _ Hm') in H2. injection H2 as <-. split; [done|].
        exists (OList items), (OList (map snd dst')). split; [|split; [done|]].
        -- rewrite HE' by lia. by rewrite lookup_app_l by lia.
        -- simpl. by apply slots_rel_items.
      * destruct (Hn' a2 y2 H2) as [Hge Hcop].
        { simpl. by destruct (Nat.eqb_spec a2 a). }
        rewrite length_app in Hge. split; [lia|done].
Qed.

Lemma mapM_related {A B C} (R : A -> B -> Prop) (f : A -> option C)
    (g : B -> option C) l k :
  Forall2 R l k -> (forall a b, R a b -> g b = f a) -> mapM g k = mapM f l.
Proof.
  intros Hrel Hfg. induction Hrel as [|a b l k Hab _ IH]; simpl; [done|].
  by rewrite (Hfg a b Hab), IH.
Qed.

(** A finished copy reads as its original. *)
Lemma reify_copied memo h fuel :
  (forall a y, memo_get a memo = Some y -> copied memo h a y) ->
  forall x x', val_rel memo x x' -> reify fuel h x' = reify fuel h x.
Proof.
  intros Hall. induction fuel as [|fuel IH]; intros x x' Hrel.
  - destruct x; simpl in Hrel; try (by subst).
    by destruct Hrel as (y & _ & ->).
  - destruct x as [| | | |a]; simpl in Hrel; try (by subst).
    destruct Hrel as (y & Hy & ->).
    destruct (Hall a y Hy) as (o & o' & Ha & Hy' & Hobj).
    simpl. rewrite Ha, Hy'.
    destruct o as [entries|items], o' as [entries'|items']; simpl in Hobj; try done.
    + f_equal. eapply mapM_related; [exact Hobj|].
      intros s d [E Hv]. simpl. by rewrite E, (IH _ _ Hv).
    + f_equal. eapply mapM_related; [exact Hobj|].
      intros s d Hv. by apply IH.
Qed.

(** [copy.deepcopy(x)] returns a value that reads as [x] did. *)
Lemma deepcopy_content depth h x x' memo' h' :
  all_wf h -> old_closed (length h) h ->
  val_in (fun r => (r < length h)%nat) x ->
  deepcopy depth x [] h = Ok (x', memo', h') ->
  forall fuel, reify fuel h' x' = reify fuel h x.
Proof.
  intros Hwf Hcl Hx Hd fuel.
  assert (Hcp : copying (length h) [] h).
  { split; [done|done| |done]. intros a o _ Ha. by apply (Hwf a o). }
  destruct (deepcopy_copies depth _ _ _ _ _ _ _ Hcp Hx Hd) as (Hcp' & _ & Hrel & Hnew).
  rewrite (reify_copied memo' h' fuel) with (x := x).
  - apply (reify_agree fuel (fun r => (r < length h)%nat)); [| |done].
    + intros a Ha. by apply (deepcopy_frame _ _ _ _ _ Hd).
    + intros a o Ha Hcell. by apply (copying_closed _ _ _ Hcp' a o).
  - intros a y Hy. by apply (Hnew a y).
  - done.
Qed.

(** In a heap whose references all point to objects, a copy raises for
    one reason only: the nesting is deeper than the limit. *)
Lemma copy_into_raises {K} rec (put : K -> val -> obj -> obj) n y :
  (forall x memo h r, rec x memo h = Ok r -> frame (length h) h (snd r)) ->
  (forall x memo h x' memo' h',
      copying n memo h -> val_in (fun r => (r < n)%nat) x ->
      rec x memo h = Ok (x', memo', h') -> copying n memo' h') ->
  (forall x memo h e,
      copying n memo h -> val_in (fun r => (r < n)%nat) x ->
      rec x memo h = Err e -> e = RecursionError) ->
  (n <= y)%nat ->
  forall slots memo h e,
    copying n memo h ->
    Forall (fun kv => val_in (fun r => (r < n)%nat) (snd kv)) slots ->
    copy_into rec put y slots memo h = Err e -> e = RecursionError.
Proof.
  intros Hframe Hok Herr Hy.
  induction slots as [|[k v] slots IH]; intros memo h e Hcp Hall; simpl; [done|].
  apply Forall_cons in Hall as [Hv Hall]. simpl in Hv.
  destruct (rec v memo h) as [[[v1 m1] h1]|e1] eqn:Hr; simpl.
  - apply IH; [|done]. eapply copying_frame; [by eapply Hok|].
    by apply frame_alter.
  - intros [= <-]. by eapply Herr.
Qed.

Lemma deepcopy_raises depth n :
  forall x memo h e,
    copying n memo h -> val_in (fun r => (r < n)%nat) x ->
    deepcopy depth x memo h = Err e -> e = RecursionError.
Proof.
  induction depth as [|depth IH]; intros x memo h e Hcp Hx.
  - destruct x as [| | | |a]; simpl; try done.
    destruct (memo_get a memo); [done|]. by intros [= <-].
  - destruct x as [| | | |a]; simpl; try done.
    destruct (memo_get a memo) as [y|] eqn:Hy; [done|].
    assert (Ha : (a < n)%nat) by by apply Hx.
    pose proof (copying_length _ _ _ Hcp) as Hn.
    assert (Hcp1 : forall o0, copying n ((a, length h) :: memo) (h ++ [o0])).
    { intros o0. split.
      - rewrite length_app. lia.
      - eapply old_closed_frame; [apply Hcp|]. by apply frame_app.
      - intros a1 o1 Ha1. rewrite lookup_app_l by lia. by apply (copying_wf _ _ _ Hcp).
      - intros a1 y1. simpl. rewrite length_app. simpl.
        destruct (Nat.eqb_spec a1 a) as [->|_].
        + intros [= <-]. lia.
        + intros H1. destruct (copying_memo _ _ _ Hcp _ _ H1). lia. }
    assert (Hrec : forall x memo h x' memo' h',
               copying n memo h -> val_in (fun r => (r < n)%nat) x ->
               deepcopy depth x memo h = Ok (x', memo', h') -> copying n memo' h').
    { intros x0 m0 h0 x1 m1 h1 H0 Hx0 Hd.
      by destruct (deepcopy_copies depth n _ _ _ _ _ _ H0 Hx0 Hd). }
    destruct (h !! a) as [[entries|items]|] eqn:Hcell.
    + destruct (copy_into _ _ _ _ _ _) as [[m1 h1]|e1] eqn:Hc; simpl; [done|].
      intros [= <-].
      eapply (copy_into_raises (deepcopy depth) put_entry n (length h)
                (deepcopy_frame depth) Hrec IH Hn); [apply Hcp1| |exact Hc].
      apply refs_in_entries. by apply (copying_closed _ _ _ Hcp a).
    + destruct (copy_into _ _ _ _ _ _) as [[m1 h1]|e1] eqn:Hc; simpl; [done|].
      intros [= <-].
      eapply (copy_into_raises (deepcopy depth) put_item n (length h)
                (deepcopy_frame depth) Hrec IH Hn); [apply Hcp1| |exact Hc].
      apply refs_in_items. by apply (copying_closed _ _ _ Hcp a).
    + apply lookup_ge_None in Hcell. lia.
Qed.

Section GetContent.

Variable limit : nat.

(** What [get_run] returns reads as the stored record does, and is made of
    objects that did not exist before the call. *)
Lemma get_run_content K w run_id run :
  sep K w -> _runs w !! Some (inl run_id) = Some run ->
  truthy (heap w) (VRef run) = true ->
  match get_run limit run_id w with
  | (Ok y, w') =>
      y = VRef (length (heap w))
      /\ _runs w' = _runs w
      /\ frame (length (heap w)) (heap w) (heap w')
      /\ forall fuel, reify fuel (heap w') y = reify fuel (heap w) (VRef run)
  | (Err e, w') => e = RecursionError /\ w' = w
  end.
Proof.
  intros Hw Hrun Htrue. unfold get_run. rewrite Hrun, Htrue.
  destruct (roots_private _ Hw _ _ Hrun) as [_ Hlt]. simpl in Hlt.
  assert (Hx : val_in (fun r => (r < length (heap w))%nat) (VRef run)).
  { by intros r [= <-]. }
  pose proof (separated_old_closed K w Hw) as Hcl.
  assert (Hwf : all_wf (heap w)) by (intros a o; apply (heap_wf _ Hw)).
  pose proof (deepcopy_call_spec limit (VRef run) w) as Hspec.
  unfold deepcopy_call in *.
  destruct (deepcopy limit (VRef run) [] (heap w)) as [[[y m] h']|e] eqn:Hd.
  - destruct Hspec as (Hruns & Hf & _ & Hy & _).
    destruct (Hy run eq_refl) as [-> _]. simpl in *.
    split; [done|]. split; [done|]. split; [done|]. intros fuel.
    by apply (deepcopy_content limit _ _ _ _ _ Hwf Hcl Hx Hd).
  - split; [|done]. eapply (deepcopy_raises limit (length (heap w))); [|exact Hx|exact Hd].
    split; [done|done| |done]. intros a o _ Ha. by apply (Hwf a o).
Qed.

End GetContent.

End CopyFacts.

(** * The run store: what the caller does on its own *)

Module CallerFacts.

Import Storage Ownership StorageFacts ShiftFacts CopyFacts.

Section Caller.

Variable limit : nat.





End Caller.

End CallerFacts.

(** * The run store: properties *)

Module StorageClaims.

Import Storage Ownership StorageFacts ShiftFacts CopyFacts CallerFacts.



(** The sibling method [update_run] stores the values it is given as they
    are: a list the caller passed and still holds is then part of the stored
    record, and a later write to it shows in [get_run].  The model tells the
    two apart. *)
Example update_run_shares_its_arguments :
  let stored := st sample_stored in
  let updated := snd (update_run 10 "t1" "r1" [("history", VRef 0%nat)] stored) in
  let written := State (<[0%nat := OList [VStr "tampered"]]> (heap updated))
                       (_runs updated) in
  shown 5 (get_run 10 "r1" updated)
  <> shown 5 (get_run 10 "r1" written).
Proof. vm_compute. intros H. discriminate H. Qed.

End StorageClaims.

(** * The replay of a history: further lemmas *)

Module ReplayFacts.

Import Survey Flow SurveyFacts Replay.

(** Once the loop has left the function, by [return] or by [raise], the
    steps that follow are never looked at. *)
Lemma evaluate_loop_left v now qmap pre rest c a :
  match evaluate_loop v now qmap pre c a with
  | Ok (Advance _ _) => True
  | other => evaluate_loop v now qmap (pre ++ rest) c a = other
  end.
Proof.
  rewrite evaluate_loop_app.
  by destruct (evaluate_loop v now qmap pre c a) as [[c' a'|a']|e].
Qed.

(** The first node of the section is there. *)
Lemma start_node_known : has_key START_ID abdominal_questions = true.
Proof. vm_compute. reflexivity. Qed.

(** The handler in terms of the loop, the empty history included. *)
Lemma evaluate_survey_progress_loop v now history :
  evaluate_survey_progress v now history =
  bind (evaluate_loop v now abdominal_questions history START_ID ∅)
    (fun o =>
       match o with
       | Finish answers_by_id =>
           bind (_build_summary answers_by_id)
             (fun s => Ok {| resp_next := None; resp_done := true;
                             resp_summary := Some s;
                             resp_meta := build_meta v now |})
       | Advance c _ =>
           bind (subscript abdominal_questions c)
             (fun node => Ok (show_question v now node))
       end).
Proof. destruct history; reflexivity. Qed.

Lemma evaluate_step_record v now qmap c a step o :
  evaluate_step v now qmap c a step = Ok o ->
  exists node rec,
    assoc c qmap = Some node /\ record_fits node rec
    /\ match o with
       | Advance _ a' | Finish a' => a' = <[c := rec]> a
       end.
Proof.
  unfold evaluate_step, bind, subscript, record_fits.
  destruct (String.eqb_spec (step_question_id step) c) as [Hc|]; [|done].
  simpl. destruct (has_key c qmap) eqn:Hk; [|done]. simpl.
  destruct (assoc c qmap) as [node|] eqn:Hn; [|done].
  intros H. exists node.
  destruct (String.eqb (node_type node) "free_text") eqn:Ht.
  - destruct (is_blank (step_answer step)); [done|].
    destruct (_ && _); [done|].
    eexists. split; [done|]. split; cycle 1.
    { destruct (node_next node) as [nid|]; simplify_eq/=; [|done].
      destruct (has_key nid qmap); by simplify_eq/=. }
    eauto.
  - destruct (_ || _); [|done].
    destruct (is_blank (step_answer step)); [done|].
    destruct (node_options node) as [opts|]; [|done].
    destruct (assoc _ opts) as [opt|]; [|done].
    eexists. split; [done|]. split; cycle 1.
    { destruct (next opt) as [nid|]; simplify_eq/=; [|done].
      destruct (has_key nid qmap); by simplify_eq/=. }
    destruct (String.eqb (node_type node) "scale"); simpl; eauto.
Qed.

Lemma answers_fit_insert a c node rec :
  answers_fit a -> assoc c abdominal_questions = Some node ->
  record_fits node rec -> answers_fit (<[c := rec]> a).
Proof.
  intros Ha Hn Hr k r. destruct (decide (k = c)) as [->|Hne].
  - rewrite lookup_insert_eq. intros [= <-]. eauto.
  - rewrite lookup_insert_ne by done. apply Ha.
Qed.

Lemma evaluate_loop_answers_fit v now steps :
  forall c a o,
    answers_fit a ->
    evaluate_loop v now abdominal_questions steps c a = Ok o ->
    match o with Advance _ a' | Finish a' => answers_fit a' end.
Proof.
  induction steps as [|s steps IH]; intros c a o Ha; simpl.
  - by intros [= <-].
  - destruct (evaluate_step v now abdominal_questions c a s) as [o1|e] eqn:Hs;
      simpl; [|done].
    apply evaluate_step_record in Hs as (node & rec & Hn & Hr & Ho).
    destruct o1 as [c1 a1|a1]; subst.
    + apply IH. by eapply answers_fit_insert.
    + intros [= <-]. by eapply answers_fit_insert.
Qed.

(** On such answers [_build_summary] finds every field it reads. *)
Lemma build_summary_returns a :
  answers_fit a -> exists s, _build_summary a = Ok s.
Proof.
  intros Ha. unfold _build_summary.
  assert (Hv : forall k r, k = "q1a" \/ k = "q1b" -> a !! k = Some r ->
                 exists s, get_value r = Ok s).
  { intros k r Hk Hr. destruct (Ha k r Hr) as (node & Hn & Hfit).
    unfold record_fits in Hfit.
    destruct Hk as [-> | ->]; vm_compute in Hn; injection Hn as <-;
      simpl in Hfit; destruct Hfit as [s ->]; simpl; eauto. }
  assert (Hk : forall r, a !! "q2" = Some r -> exists k, get_key r = Ok k).
  { intros r Hr. destruct (Ha "q2" r Hr) as (node & Hn & Hfit).
    unfold record_fits in Hfit. vm_compute in Hn. injection Hn as <-.
    exact Hfit. }
  destruct (a !! "q1a") as [r1|] eqn:H1.
  - destruct (Hv "q1a" r1 (or_introl eq_refl) H1) as [s1 ->]. simpl.
    destruct (a !! "q2") as [r2|]; simpl; [|eauto].
    destruct (Hk r2 eq_refl) as [k2 ->]. simpl. eauto.
  - destruct (a !! "q1b") as [r1|] eqn:H1b.
    + destruct (Hv "q1b" r1 (or_intror eq_refl) H1b) as [s1 ->]. simpl.
      destruct (a !! "q2") as [r2|]; simpl; [|eauto].
      destruct (Hk r2 eq_refl) as [k2 ->]. simpl. eauto.
    + simpl. destruct (a !! "q2") as [r2|]; simpl; [|eauto].
      destruct (Hk r2 eq_refl) as [k2 ->]. simpl. eauto.
Qed.

(** Each node of the section is filed under its own id, and lists options
    exactly when it is not a free-text node. *)
Lemma abdominal_nodes_filed c node :
  assoc c abdominal_questions = Some node ->
  node_id node = c
  /\ (is_Some (node_options node) <-> node_type node <> "free_text").
Proof.
  intros Hn. apply assoc_In in Hn.
  assert (Hall : forallb
            (fun kv : string * Survey.node =>
               String.eqb (node_id (snd kv)) (fst kv)
               && eqb (bool_decide (is_Some (node_options (snd kv))))
                      (negb (String.eqb (node_type (snd kv)) "free_text")))
            abdominal_questions = true) by (vm_compute; reflexivity).
  rewrite forallb_forall in Hall. specialize (Hall _ Hn). simpl in Hall.
  apply andb_prop in Hall as [Hid Hopt].
  apply String.eqb_eq in Hid. apply eqb_prop in Hopt. split; [done|].
  destruct (String.eqb_spec (node_type node) "free_text") as [Ht|Ht]; simpl in Hopt.
  - split; [|done]. intros Hs. by apply bool_decide_eq_false in Hopt.
  - split; [done|]. intros _. by apply bool_decide_eq_true in Hopt.
Qed.

(** What a step raises at a node of the section. *)
Lemma evaluate_step_raises v now c a step e :
  evaluate_step v now abdominal_questions c a step = Err e -> replay_error v now e.
Proof.
  assert (Hlisted : forall status code msg,
             In (status, code)
                [(400, FLOW_DIVERGENCE); (400, MISSING_ANSWER); (400, INVALID_ANSWER);
                 (400, DATE_FORMAT); (500, BROKEN_DEFINITION)] ->
             @Err step_outcome (http_error v status code msg now) = Err e ->
             replay_error v now e).
  { intros status code msg Hin [= <-]. by exists status, code, msg. }
  unfold evaluate_step, bind, subscript.
  destruct (String.eqb (step_question_id step) c); cbn [negb];
    [|apply Hlisted; simpl; tauto].
  destruct (has_key c abdominal_questions) eqn:Hk; cbn [negb];
    [|apply Hlisted; simpl; tauto].
  destruct (has_key_assoc _ _ Hk) as [node Hn]. rewrite Hn.
  pose proof abdominal_well_typed as Hwt. rewrite forallb_forall in Hwt.
  specialize (Hwt _ (assoc_In _ _ _ Hn)). cbn [snd] in Hwt. unfold well_typed in Hwt.
  destruct (String.eqb (node_type node) "free_text"); cbn [orb] in Hwt.
  - destruct (is_blank (step_answer step)); [apply Hlisted; simpl; tauto|].
    destruct (_ && _); [apply Hlisted; simpl; tauto|].
    destruct (node_next node) as [nid|]; [|done].
    destruct (has_key nid abdominal_questions); cbn [negb]; [done|].
    apply Hlisted; simpl; tauto.
  - apply andb_prop in Hwt as [-> Hopts]. apply bool_decide_eq_true in Hopts.
    destruct Hopts as [opts ->].
    destruct (is_blank (step_answer step)); [apply Hlisted; simpl; tauto|].
    destruct (assoc _ opts) as [opt|]; [|apply Hlisted; simpl; tauto].
    destruct (next opt) as [nid|]; [|done].
    destruct (has_key nid abdominal_questions); cbn [negb]; [done|].
    apply Hlisted; simpl; tauto.
Qed.

Lemma evaluate_loop_raises v now steps :
  forall c a e,
    evaluate_loop v now abdominal_questions steps c a = Err e -> replay_error v now e.
Proof.
  induction steps as [|s steps IH]; intros c a e; simpl; [done|].
  destruct (evaluate_step v now abdominal_questions c a s) as [[c1 a1|a1]|e1] eqn:Hs;
    simpl.
  - apply IH.
  - done.
  - intros [= <-]. by eapply evaluate_step_raises.
Qed.

Lemma answers_fit_empty : answers_fit ∅.
Proof. intros k r Hk. by rewrite lookup_empty in Hk. Qed.

End ReplayFacts.

(** * The replay of a history: properties *)

Module ReplayProperties.

Import Survey Flow SurveyFacts Replay ReplayFacts.

(** X1.  Steps that come after the one that ended the flow are ignored: the
    response is the one of the history that ended it. *)
Theorem replay_ignores_steps_after_the_end v now history extra r :
  evaluate_survey_progress v now history = Ok r ->
  resp_done r = true ->
  evaluate_survey_progress v now (history ++ extra) = Ok r.
Proof.
  rewrite !evaluate_survey_progress_loop.
  pose proof (evaluate_loop_left v now abdominal_questions history extra START_ID ∅)
    as Hleft.
  destruct (evaluate_loop v now abdominal_questions history START_ID ∅)
    as [[c a|a]|e]; simpl.
  - destruct (subscript abdominal_questions c) as [node|]; simpl; [|done].
    by intros [= <-].
  - rewrite Hleft. simpl. done.
  - done.
Qed.

Lemma replay_ignores_steps_after_the_end_witness :
  exists r,
    evaluate_survey_progress "v1" "t" (abdominal_history "d" ++ [answered "q1" "a"])
    = Ok r /\ resp_done r = true.
Proof.
  eexists. split.
  - apply (replay_ignores_steps_after_the_end "v1" "t" (abdominal_history "d")
             [answered "q1" "a"]); [vm_compute; reflexivity|reflexivity].
  - reflexivity.
Defined.

(** X2.  A history that is refused stays refused, with the same error, whatever
    steps are added to it. *)
Theorem replay_failure_is_final v now history extra e :
  evaluate_survey_progress v now history = Err e ->
  evaluate_survey_progress v now (history ++ extra) = Err e.
Proof.
  rewrite !evaluate_survey_progress_loop.
  pose proof (evaluate_loop_left v now abdominal_questions history extra START_ID ∅)
    as Hleft.
  destruct (evaluate_loop v now abdominal_questions history START_ID ∅)
    as [[c a|a]|e1] eqn:Hloop; simpl.
  - apply evaluate_loop_cursor_known in Hloop.
    apply has_key_assoc in Hloop as [node Hnode].
    unfold subscript. by rewrite Hnode.
  - rewrite Hleft. simpl. done.
  - rewrite Hleft. simpl. done.
Qed.

Lemma replay_failure_is_final_witness :
  fails_with
    (evaluate_survey_progress "v1" "t"
       ([answered "q1" "z"] ++ [answered "q1a" "2025-09-01"]))
    400 INVALID_ANSWER.
Proof.
  unfold fails_with. eexists _, _.
  apply (replay_failure_is_final "v1" "t" [answered "q1" "z"]
           [answered "q1a" "2025-09-01"]).
  vm_compute. reflexivity.
Defined.

(** X3.  The replay expects each step to answer the question it would have asked
    next: when the replay of a history asks a question, the same history
    followed by a step for any other question id is refused with
    [FLOW_DIVERGENCE] (status 400), whatever comes after that step. *)
Theorem replay_expects_the_question_it_asked v now pre r q step rest :
  evaluate_survey_progress v now pre = Ok r ->
  resp_next r = Some q ->
  step_question_id step <> r_id q ->
  fails_with (evaluate_survey_progress v now (pre ++ step :: rest))
    400 FLOW_DIVERGENCE.
Proof.
  rewrite evaluate_survey_progress_loop.
  destruct (evaluate_loop v now abdominal_questions pre START_ID ∅)
    as [[c a|a]|e] eqn:Hloop; simpl; [| |done].
  - unfold subscript.
    destruct (assoc c abdominal_questions) as [node|] eqn:Hnode; simpl; [|done].
    intros [= <-]. simpl. intros [= <-]. simpl.
    destruct (abdominal_nodes_filed c node Hnode) as [-> _]. intros Hne.
    eapply evaluate_fails_at; [exact Hloop|].
    unfold evaluate_step, fails_with, http_error.
    destruct (String.eqb_spec (step_question_id step) c) as [Heq|_]; [done|].
    simpl. eauto.
  - destruct (_build_summary a); simpl; [|done]. by intros [= <-].
Qed.

Lemma replay_expects_the_question_it_asked_witness :
  fails_with
    (evaluate_survey_progress "v1" "t" ([] ++ [answered "q2" "a"]))
    400 FLOW_DIVERGENCE.
Proof.
  eapply (replay_expects_the_question_it_asked "v1" "t" []).
  - vm_compute. reflexivity.
  - reflexivity.
  - simpl. discriminate.
Defined.

(** X4.  Whatever the history, a replay that is refused is refused with one of
    [FLOW_DIVERGENCE], [MISSING_ANSWER], [INVALID_ANSWER], [DATE_FORMAT]
    (status 400) or [BROKEN_DEFINITION] (status 500), with the [meta] block:
    no lookup in the definition or in the answers raises [KeyError], and no
    node of the section has a type the replay does not handle. *)
Theorem replay_raises_only_listed_errors v now history e :
  evaluate_survey_progress v now history = Err e -> replay_error v now e.
Proof.
  rewrite evaluate_survey_progress_loop.
  destruct (evaluate_loop v now abdominal_questions history START_ID ∅)
    as [[c a|a]|e1] eqn:Hloop; simpl.
  - apply evaluate_loop_cursor_known in Hloop.
    apply has_key_assoc in Hloop as [node Hnode].
    unfold subscript. by rewrite Hnode.
  - apply (evaluate_loop_answers_fit v now history _ _ _ answers_fit_empty) in Hloop.
    destruct (build_summary_returns a Hloop) as [s ->]. done.
  - intros [= <-]. by eapply evaluate_loop_raises.
Qed.

Lemma replay_raises_only_listed_errors_witness :
  replay_error "v1" "t"
    (HTTPException 400 INVALID_ANSWER "Answer key 'z' not allowed for q1"
       (Some (build_meta "v1" "t"))).
Proof.
  apply (replay_raises_only_listed_errors "v1" "t" [answered "q1" "z"]).
  vm_compute. reflexivity.
Defined.

(** X5.  A response of the replay is of one of two shapes.  Either it ends the
    flow: [done] is true, there is no next question and there is a summary.
    Or it asks a question: [done] is false, there is no summary, the
    question is a node of the abdominal section, and its options are listed
    exactly when it is not a free-text question.  Both carry the [meta]
    block. *)
Theorem replay_response_shape v now history r :
  evaluate_survey_progress v now history = Ok r ->
  resp_meta r = build_meta v now
  /\ match resp_next r with
     | None => resp_done r = true /\ is_Some (resp_summary r)
     | Some q =>
         resp_done r = false /\ resp_summary r = None
         /\ has_key (r_id q) abdominal_questions = true
         /\ (is_Some (r_options q) <-> r_type q <> "free_text")
     end.
Proof.
  rewrite evaluate_survey_progress_loop.
  destruct (evaluate_loop v now abdominal_questions history START_ID ∅)
    as [[c a|a]|e] eqn:Hloop; simpl; [| |done].
  - unfold subscript.
    destruct (assoc c abdominal_questions) as [node|] eqn:Hnode; simpl; [|done].
    intros [= <-]. simpl.
    destruct (abdominal_nodes_filed c node Hnode) as [Hid Hopts].
    split; [done|]. split; [done|]. split; [done|]. split.
    + rewrite Hid. by eapply has_key_true.
    + rewrite <- Hopts. destruct (node_options node); simpl; [|done].
      split; eauto.
  - destruct (_build_summary a) as [s|]; simpl; [|done].
    intros [= <-]. simpl. eauto.
Qed.

Lemma replay_response_shape_witness :
  exists r, evaluate_survey_progress "v1" "t" [] = Ok r /\ resp_done r = false.
Proof.
  eexists. split; [reflexivity|].
  pose proof (replay_response_shape "v1" "t" [] _ eq_refl) as [_ H].
  exact (proj1 H).
Defined.

(** X22.  The replay never asks a question twice, because the abdominal section
    only points forward.  When the replay of a history asks a question, no
    step of the history answered that question, the steps of the history
    answered questions that are all different, and there are fewer steps
    than the section has nodes. *)
Theorem replay_never_asks_a_question_twice v now history r q :
  evaluate_survey_progress v now history = Ok r ->
  resp_next r = Some q ->
  ~ In (r_id q) (map step_question_id history)
  /\ NoDup (map step_question_id history)
  /\ (length history < length abdominal_questions)%nat.
Proof.
  rewrite evaluate_survey_progress_loop.
  destruct (evaluate_loop v now abdominal_questions history START_ID ∅)
    as [[c a|a]|e] eqn:Hloop; simpl; [| |done].
  2: { destruct (_build_summary a); simpl; [|done]. by intros [= <-]. }
  unfold subscript.
  destruct (assoc c abdominal_questions) as [node|] eqn:Hnode; simpl; [|done].
  intros [= <-]. simpl. intros [= <-]. simpl.
  destruct (abdominal_nodes_filed c node Hnode) as [-> _].
  set (rank := fun k => index_of_key k abdominal_questions).
  assert (Hrank : forall k, has_key k abdominal_questions = true ->
                    (rank k < length abdominal_questions)%nat).
  { intros k Hk. unfold rank, has_key in *. clear -Hk.
    induction abdominal_questions as [|[k' n'] d IH]; simpl in *; [done|].
    destruct (String.eqb k k'); [lia|]. apply IH in Hk. lia. }
  assert (Hgo : forall steps c0 a0 c1 a1,
             evaluate_loop v now abdominal_questions steps c0 a0 = Ok (Advance c1 a1) ->
             (rank c0 + length steps <= rank c1)%nat
             /\ Forall (fun s => (rank c0 <= rank (step_question_id s) < rank c1)%nat)
                       steps
             /\ NoDup (map step_question_id steps)).
  { induction steps as [|s steps IH]; intros c0 a0 c1 a1; simpl.
    - intros [= <- <-]. split; [lia|]. split; constructor.
    - destruct (evaluate_step v now abdominal_questions c0 a0 s) as [[c2 a2|a2]|e]
        eqn:Hs; simpl; [|done..].
      intros Hrest. destruct (IH _ _ _ _ Hrest) as (Hlen & Hall & Hnd).
      apply evaluate_step_inv in Hs as (n0 & rec & Hid & Hn0 & _ & Hin & Hk).
      assert (Hfw : forward abdominal_questions = true) by (vm_compute; reflexivity).
      unfold forward in Hfw. rewrite forallb_forall in Hfw.
      specialize (Hfw _ (assoc_In _ _ _ Hn0)). cbn [fst snd] in Hfw.
      rewrite forallb_forall in Hfw. specialize (Hfw _ Hin). cbn beta iota in Hfw.
      rewrite Hk in Hfw. cbn [negb orb] in Hfw. apply Nat.ltb_lt in Hfw.
      fold (rank c0) in Hfw. fold (rank c2) in Hfw.
      split; [lia|]. split.
      + constructor; [rewrite Hid; lia|].
        eapply Forall_impl; [exact Hall|]. simpl. intros s' Hs'. lia.
      + constructor; [|done]. rewrite Hid. intros Hin'.
        apply list_elem_of_In, in_map_iff in Hin' as (s' & Hs' & Hin').
        rewrite Forall_forall in Hall. apply list_elem_of_In in Hin'.
        specialize (Hall s' Hin'). rewrite Hs' in Hall. lia. }
  destruct (Hgo _ _ _ _ _ Hloop) as (Hlen & Hall & Hnd).
  split; [|split].
  - intros Hin. apply in_map_iff in Hin as (s & Hs & Hin).
    rewrite Forall_forall in Hall. apply list_elem_of_In in Hin.
    specialize (Hall s Hin). rewrite Hs in Hall. simpl in Hall.
    destruct Hall as [_ Hall]. exact (Nat.lt_irrefl _ Hall).
  - done.
  - apply evaluate_loop_cursor_known in Hloop. apply Hrank in Hloop.
    change (length history < length abdominal_questions)%nat. lia.
Qed.

Lemma replay_never_asks_a_question_twice_witness :
  exists r q,
    evaluate_survey_progress "v1" "t" [answered "q1" "a"] = Ok r
    /\ resp_next r = Some q
    /\ ~ In (r_id q) (map step_question_id [answered "q1" "a"]).
Proof.
  eexists _, _. split; [vm_compute; reflexivity|]. split; [reflexivity|].
  eapply (replay_never_asks_a_question_twice "v1" "t" [answered "q1" "a"]).
  - vm_compute. reflexivity.
  - reflexivity.
Defined.

End ReplayProperties.

(** * Scores of scale labels *)

Module ScaleFacts.

Import Survey.

Lemma isdecimal_not_space c : PyStr.isdecimal c = true -> PyStr.isspace c = false.
Proof.
  unfold PyStr.isdecimal, PyStr.isspace. intros H.
  apply andb_prop in H as [H1 H2]. apply N.leb_le in H1, H2.
  rewrite !orb_false_iff, !andb_false_iff, !N.leb_gt, !N.eqb_neq. lia.
Qed.









End ScaleFacts.

Module ScaleProperties.

Import Survey ScaleFacts.




End ScaleProperties.

(** * The run ids: lemmas *)

Module RunIdFacts.

Import Survey Storage Runs RunId.

Local Open Scope N_scope.

(** The sixty-four digits are distinct characters of the alphabet. *)
Lemma b64url_char_index i :
  i < 64 ->
  index_of (b64url_char i) b64url_alphabet = i
  /\ In (b64url_char i) (list_ascii_of_string b64url_alphabet).
Proof.
  intros Hi.
  assert (Hall : forallb
            (fun j => N.eqb (index_of (b64url_char j) b64url_alphabet) j
                      && bool_decide (In (b64url_char j)
                                        (list_ascii_of_string b64url_alphabet)))
            (map N.of_nat (seq 0 64)) = true) by (vm_compute; reflexivity).
  rewrite forallb_forall in Hall.
  assert (Hin : In i (map N.of_nat (seq 0 64))).
  { apply in_map_iff. exists (N.to_nat i). split; [lia|]. apply in_seq. lia. }
  specialize (Hall i Hin). apply andb_prop in Hall as [H1 H2].
  apply N.eqb_eq in H1. by apply bool_decide_eq_true in H2.
Qed.



(** Reading the digits back gives the bits they were cut from. *)
Lemma b64url_value_sextets k n acc :
  b64url_value acc (sextets k n)
  = acc * 2 ^ (6 * N.of_nat k) + n mod 2 ^ (6 * N.of_nat k).
Proof.
  revert acc. induction k as [|k IH]; intros acc.
  - simpl. rewrite N.mod_1_r. lia.
  - cbn [sextets b64url_value]. rewrite IH.
    destruct (b64url_char_index (N.land (N.shiftr n (6 * N.of_nat k)) 63)) as [-> _].
    { rewrite N.land_ones with (n := 6). by apply N.mod_lt. }
    rewrite N.land_ones with (n := 6), N.shiftr_div_pow2.
    replace (6 * N.of_nat (S k)) with (6 * N.of_nat k + 6) by lia.
    rewrite (N.pow_add_r 2 (6 * N.of_nat k) 6).
    rewrite (N.Div0.mod_mul_r n (2 ^ (6 * N.of_nat k)) (2 ^ 6)).
    change (2 ^ 6) with 64. lia.
Qed.

End RunIdFacts.

(** * The run ids: properties *)

Module RunIdProperties.

Import Survey Storage Runs RunId RunIdFacts.

Local Open Scope N_scope.


(** X9.  A run id spells its UUID: read as a number in base 64 it is the 128
    bits of the UUID followed by four zero bits.  So two UUIDs with the same
    run id are the same. *)
Theorem new_run_id_spells_the_uuid u :
  u < 2 ^ 128 ->
  b64url_value 0 (_new_run_id u) = 16 * u
  /\ forall u', u' < 2 ^ 128 -> _new_run_id u' = _new_run_id u -> u' = u.
Proof.
  assert (Hval : forall x, x < 2 ^ 128 -> b64url_value 0 (_new_run_id x) = 16 * x).
  { intros x Hx. unfold _new_run_id. rewrite b64url_value_sextets.
    rewrite N.land_ones, (N.mod_small x) by done.
    rewrite N.shiftl_mul_pow2. change (6 * N.of_nat 22) with 132.
    rewrite N.mod_small; [lia|].
    change (2 ^ 132) with (2 ^ 128 * 2 ^ 4). change (2 ^ 4) with 16. lia. }
  intros Hu. split; [by apply Hval|].
  intros u' Hu' Heq. apply (f_equal (b64url_value 0)) in Heq.
  rewrite !Hval in Heq by done. lia.
Qed.

Lemma new_run_id_spells_the_uuid_witness :
  b64url_value 0 (_new_run_id 1) = 16.
Proof.
  apply (new_run_id_spells_the_uuid 1). reflexivity.
Defined.

End RunIdProperties.

(** * The cursor of a run *)

Module CursorProperties.

Import Survey Storage Runs SurveyFacts.

(** Each node of the definition is filed under its own id. *)
Lemma nodes_filed_under_their_ids sec qmap c node :
  assoc sec SURVEY_DEFINITION = Some qmap -> assoc c qmap = Some node ->
  node_id node = c.
Proof.
  intros Hsec Hnode. apply assoc_In in Hsec, Hnode.
  assert (Hall : forallb
            (fun s : string * section =>
               forallb (fun kv : string * Survey.node =>
                          String.eqb (node_id (snd kv)) (fst kv)) (snd s))
            SURVEY_DEFINITION = true) by (vm_compute; reflexivity).
  rewrite forallb_forall in Hall. specialize (Hall _ Hsec). simpl in Hall.
  rewrite forallb_forall in Hall. specialize (Hall _ Hnode). simpl in Hall.
  by apply String.eqb_eq.
Qed.

(** X10.  What [_cursor_to_node] answers.  Without a cursor, and with a section
    of the definition, it returns [None].  With a cursor that is a node of
    the section it returns that node, whose id is the cursor.  Anything
    else is the server fault [BROKEN_DEFINITION] (status 500): a name that
    is not a section of the definition, reported without a [meta] block, or
    a cursor that is not a node of the section, reported with one.  It
    never raises [KeyError]. *)
Theorem cursor_to_node_answers v now cursor sec :
  match _cursor_to_node v now cursor sec with
  | Ok None => cursor = None /\ has_key sec SURVEY_DEFINITION = true
  | Ok (Some node) =>
      exists c qmap,
        cursor = Some c /\ assoc sec SURVEY_DEFINITION = Some qmap
        /\ assoc c qmap = Some node /\ node_id node = c
  | Err e =>
      exists msg,
        (has_key sec SURVEY_DEFINITION = false
         /\ e = HTTPException 500 BROKEN_DEFINITION msg None)
        \/ (exists c qmap,
              cursor = Some c /\ assoc sec SURVEY_DEFINITION = Some qmap
              /\ has_key c qmap = false
              /\ e = HTTPException 500 BROKEN_DEFINITION msg
                       (Some (build_meta v now)))
  end.
Proof.
  unfold _cursor_to_node, subscript, bind.
  destruct (has_key sec SURVEY_DEFINITION) eqn:Hsec; cbn [negb];
    [|eexists; left; split; reflexivity].
  destruct (has_key_assoc _ _ Hsec) as [qmap Hq]. rewrite Hq.
  destruct cursor as [c|]; [|done].
  destruct (has_key c qmap) eqn:Hc; cbn [negb].
  - destruct (has_key_assoc _ _ Hc) as [node Hn]. rewrite Hn.
    exists c, qmap. repeat split; try done.
    by eapply nodes_filed_under_their_ids.
  - eexists. right. exists c, qmap. repeat split; try done.
Qed.

End CursorProperties.

(** * The case event service: further properties *)

Module CaseLogFacts.

Import CaseEvents CaseLog CaseEventsClaims.

Lemma extends_refl db : extends db db.
Proof. by repeat split. Qed.

Lemma extends_trans db1 db2 db3 : extends db1 db2 -> extends db2 db3 -> extends db1 db3.
Proof.
  intros (H1 & H2 & H3 & H4) (H1' & H2' & H3' & H4').
  repeat split; (by etrans) || lia.
Qed.

Section WithSources.

Variable uuid_source : nat -> N.
Variable clock : nat -> Z.

(** The payload of a [case.created] event passes the checks of
    [append_event], whatever the arguments. *)
Lemma created_payload_accepted source intake_channel external_ref :
  exists entries,
    build_case_created_payload source intake_channel external_ref = PDict entries
    /\ forallb (fun kv => is_str (fst kv)) entries = true
    /\ json_serializable (PDict entries) = true.
Proof.
  unfold build_case_created_payload.
  destruct (given intake_channel), (given external_ref); eexists; split;
    reflexivity || (split; reflexivity).
Qed.

(** All that [append_event] does to the unit of work. *)
Lemma append_event_outcome case_id event_type payload actor_type actor_id reason
    occurred_at db :
  match append_event uuid_source clock case_id event_type payload actor_type
          actor_id reason occurred_at db with
  | (Ok ev, db') =>
      cases db' = cases db /\ events db' = events db ++ [ev]
      /\ event_case_id ev = case_id /\ CaseEvents.event_type ev = event_type
      /\ event_id ev = uuid_source (uuids_drawn db)
      /\ uuids_drawn db' = S (uuids_drawn db)
      /\ (clock_reads db <= clock_reads db' <= S (clock_reads db))%nat
      /\ CaseEvents.occurred_at ev = default (clock (clock_reads db)) occurred_at
  | (Err e, db') => db' = db /\ exists msg, e = ValueError msg
  end.
Proof.
  set (stored := match payload with PNone => PDict [] | _ => payload end).
  assert (Hrun : append_event uuid_source clock case_id event_type payload actor_type
                   actor_id reason occurred_at db
                 = append_event uuid_source clock case_id event_type stored actor_type
                     actor_id reason occurred_at db).
  { by destruct payload. }
  rewrite Hrun.
  destruct stored as [| | | | | |entries|] eqn:Hs;
    try (split; [reflexivity|eexists; reflexivity]).
  { by destruct payload. }
  destruct (forallb (fun kv => is_str (fst kv)) entries) eqn:Hk.
  2: { unfold append_event. rewrite Hk. split; [reflexivity|eexists; reflexivity]. }
  destruct (json_serializable (PDict entries)) eqn:Hj.
  2: { unfold append_event. rewrite Hk, Hj. split; [reflexivity|eexists; reflexivity]. }
  rewrite (append_event_accepts uuid_source clock) by done. cbn zeta.
  cbn [cases events uuids_drawn clock_reads event_case_id CaseEvents.event_type
       event_id CaseEvents.occurred_at].
  repeat split; try done; destruct occurred_at; lia.
Qed.

(** All that [create_case_from_intake] does to the unit of work. *)
Lemma create_case_outcome intake_payload source intake_channel external_ref
    actor_type actor_id received_at db :
  let n := uuids_drawn db in
  let t := match received_at with
           | Some _ => clock_reads db
           | None => S (clock_reads db)
           end in
  match create_case_from_intake uuid_source clock intake_payload source
          intake_channel external_ref actor_type actor_id received_at db with
  | (Ok case, db') =>
      json_serializable intake_payload = true
      /\ exists e1 e2,
           cases db' = cases db ++ [case]
           /\ events db' = events db ++ [e1; e2]
           /\ uuids_drawn db' = S (S (S n))
           /\ clock_reads db' = S (S t)
           /\ case_id case = uuid_source n
           /\ CaseEvents.received_at case
              = default (clock (clock_reads db)) received_at
           /\ event_case_id e1 = case_id case /\ event_id e1 = uuid_source (S n)
           /\ CaseEvents.event_type e1 = CASE_CREATED
           /\ CaseEvents.occurred_at e1 = clock t
           /\ event_case_id e2 = case_id case /\ event_id e2 = uuid_source (S (S n))
           /\ CaseEvents.event_type e2 = INTAKE_RECEIVED
           /\ CaseEvents.occurred_at e2 = clock (S t)
  | (Err e, db') =>
      ((forall entries, intake_payload <> PDict entries)
       /\ db' = db /\ e = ValueError "intake payload must be a dict")
      \/ ((exists entries, intake_payload = PDict entries)
          /\ json_serializable intake_payload = false
          /\ e = ValueError "payload is not JSON-serializable"
          /\ exists case e1,
               cases db' = cases db ++ [case]
               /\ events db' = events db ++ [e1]
               /\ uuids_drawn db' = S (S n)
               /\ clock_reads db' = S t
               /\ case_id case = uuid_source n
               /\ event_case_id e1 = case_id case /\ event_id e1 = uuid_source (S n)
               /\ CaseEvents.event_type e1 = CASE_CREATED)
  end.
Proof.
  intros n t. subst n t.
  destruct intake_payload as [| | | | | |entries|];
    try (left; split; [done|split; reflexivity]).
  unfold create_case_from_intake, and_then.
  destruct (created_payload_accepted source intake_channel external_ref)
    as (created & -> & Hk & Hj).
  destruct received_at as [t0|]; cbn [pure utc_now uuid4 add_case].
  all: rewrite (append_event_accepts uuid_source clock) by done.
  all: lazy beta iota zeta.
  all: destruct (given external_ref); cbn [app].
  all: destruct (json_serializable (PDict entries)) eqn:Hraw.
  all: try (rewrite (append_event_accepts uuid_source clock);
            [| reflexivity
             | cbn [json_serializable forallb fst snd json_key andb] in Hraw |- *;
               rewrite Hraw; reflexivity];
            lazy beta iota zeta; split; [reflexivity|];
            eexists _, _; cbn [cases events uuids_drawn clock_reads];
            rewrite <- app_assoc; repeat split).
  all: unfold append_event.
  all: cbn [forallb fst is_str negb andb].
  all: cbn [json_serializable forallb fst snd json_key andb] in Hraw |- *.
  all: rewrite Hraw; cbn [andb negb raise].
  all: right; split; [eauto|]; split; [reflexivity|].
  all: split; [reflexivity|]; eexists _, _; repeat split.
Qed.

End WithSources.

End CaseLogFacts.

Module CaseLogProperties.

Import CaseEvents CaseLog CaseEventsClaims CaseLogFacts.

(** X11.  The service only appends: whatever [append_event] and
    [create_case_from_intake] are called with, and whether they return or
    raise, the cases and the events that were in the unit of work are still
    there afterwards, unchanged and in the same order, before any new one. *)
Theorem service_only_appends uuid_source clock case_id event_type payload
    actor_type actor_id reason occurred_at intake_payload source intake_channel
    external_ref received_at db :
  extends db
    (snd (append_event uuid_source clock case_id event_type payload actor_type
            actor_id reason occurred_at db))
  /\ extends db
       (snd (create_case_from_intake uuid_source clock intake_payload source
               intake_channel external_ref actor_type actor_id received_at db)).
Proof.
  split.
  - pose proof (append_event_outcome uuid_source clock case_id event_type payload
                  actor_type actor_id reason occurred_at db) as H.
    destruct (append_event _ _ _ _ _ _ _ _ _ _) as [[ev|e] db']; simpl.
    + destruct H as (Hc & He & _ & _ & _ & Hu & Ht & _).
      unfold extends. rewrite Hc, He, Hu.
      repeat split; [done|by apply prefix_app_r|lia|lia].
    + destruct H as [-> _]. apply extends_refl.
  - pose proof (create_case_outcome uuid_source clock intake_payload source
                  intake_channel external_ref actor_type actor_id received_at db) as H.
    cbn zeta in H.
    destruct (create_case_from_intake _ _ _ _ _ _ _ _ _ _) as [[case|e] db']; simpl.
    + destruct H as (_ & e1 & e2 & Hc & He & Hu & Ht & _).
      unfold extends. rewrite Hc, He, Hu, Ht.
      repeat split; [by apply prefix_app_r|by apply prefix_app_r|lia|].
      destruct received_at; lia.
    + destruct H as [(_ & -> & _)|(_ & _ & _ & case & e1 & Hc & He & Hu & Ht & _)];
        [apply extends_refl|].
      unfold extends. rewrite Hc, He, Hu, Ht.
      repeat split; [by apply prefix_app_r|by apply prefix_app_r|lia|].
      destruct received_at; lia.
Qed.

(** X12.  A dictionary that [json.dumps] cannot serialise is refused only after
    the case has been added: [create_case_from_intake] raises [ValueError]
    and leaves in the unit of work the new case and its [case.created]
    event, and no [intake.received] event. *)
Theorem unserializable_intake_leaves_case_and_created_event uuid_source clock
    intake_payload entries source intake_channel external_ref actor_type actor_id
    received_at db :
  intake_payload = PDict entries ->
  json_serializable intake_payload = false ->
  exists case e1 db',
    create_case_from_intake uuid_source clock intake_payload source intake_channel
      external_ref actor_type actor_id received_at db
    = (Err (ValueError "payload is not JSON-serializable"), db')
    /\ cases db' = cases db ++ [case]
    /\ events db' = events db ++ [e1]
    /\ event_case_id e1 = case_id case
    /\ CaseEvents.event_type e1 = CASE_CREATED.
Proof.
  intros Hdict Hj.
  pose proof (create_case_outcome uuid_source clock intake_payload source
                intake_channel external_ref actor_type actor_id received_at db) as H.
  cbn zeta in H.
  destruct (create_case_from_intake _ _ _ _ _ _ _ _ _ _) as [[case|e] db'].
  - destruct H as [H _]. congruence.
  - destruct H as [(Hno & _)|(_ & _ & -> & case & e1 & Hc & He & _ & _ & _ & H1 & _ & H2)].
    + by destruct (Hno entries).
    + by exists case, e1, db'.
Qed.

Lemma unserializable_intake_leaves_case_and_created_event_witness :
  exists case e1 db',
    create_case_from_intake (fun n => N.of_nat n) (fun n => Z.of_nat n)
      (PDict [(PStr "taken", PObject "set")]) "portal" None None API None None
      (Session [] [] 0 0)
    = (Err (ValueError "payload is not JSON-serializable"), db')
    /\ cases db' = [] ++ [case]
    /\ events db' = [] ++ [e1]
    /\ event_case_id e1 = case_id case
    /\ CaseEvents.event_type e1 = CASE_CREATED.
Proof.
  apply (unserializable_intake_leaves_case_and_created_event
           (fun n => N.of_nat n) (fun n => Z.of_nat n)
           (PDict [(PStr "taken", PObject "set")]) [(PStr "taken", PObject "set")]);
    reflexivity.
Defined.

(** X13.  [create_case_from_intake] keeps the events with their cases: if every
    event of the unit of work belonged to one of its cases before the call,
    so it does after, whether the call returned or raised. *)
Theorem create_case_keeps_events_with_cases uuid_source clock intake_payload
    source intake_channel external_ref actor_type actor_id received_at db :
  events_belong db ->
  events_belong
    (snd (create_case_from_intake uuid_source clock intake_payload source
            intake_channel external_ref actor_type actor_id received_at db)).
Proof.
  intros Hdb.
  pose proof (create_case_outcome uuid_source clock intake_payload source
                intake_channel external_ref actor_type actor_id received_at db) as H.
  cbn zeta in H.
  assert (Hold : forall cs' e, In e (events db) ->
             exists c, In c (cases db ++ cs') /\ case_id c = event_case_id e).
  { intros cs' e He. destruct (Hdb e He) as (c & Hc & Hid). exists c.
    split; [|done]. apply in_or_app. by left. }
  destruct (create_case_from_intake _ _ _ _ _ _ _ _ _ _) as [[case|e] db']; simpl.
  - destruct H as (_ & e1 & e2 & Hc & He & _ & _ & _ & _ & H1 & _ & _ & _ & H2 & _).
    intros ev Hev. rewrite He in Hev. rewrite Hc.
    apply in_app_or in Hev as [Hev|Hev]; [by apply Hold|].
    exists case. split; [apply in_or_app; right; by left|].
    destruct Hev as [<-|[<-|[]]]; done.
  - destruct H as [(_ & -> & _)|(_ & _ & _ & case & e1 & Hc & He & _ & _ & _ & H1 & _)];
      [done|].
    intros ev Hev. rewrite He in Hev. rewrite Hc.
    apply in_app_or in Hev as [Hev|Hev]; [by apply Hold|].
    exists case. split; [apply in_or_app; right; by left|].
    destruct Hev as [<-|[]]; done.
Qed.

Lemma create_case_keeps_events_with_cases_witness :
  events_belong
    (snd (create_case_from_intake (fun n => N.of_nat n) (fun n => Z.of_nat n)
            (PDict [(PStr "symptom", PStr "headache")]) "portal" None None API
            None None (Session [] [] 0 0))).
Proof.
  apply create_case_keeps_events_with_cases. intros e He. destruct He.
Defined.

(** X14.  With a source of UUIDs that never repeats, [create_case_from_intake]
    keeps the primary keys distinct: if the keys of the cases and events of
    the unit of work were distinct UUIDs drawn from the source before the
    call, so they are after, whether the call returned or raised. *)
Theorem create_case_keeps_ids_distinct uuid_source clock intake_payload
    source intake_channel external_ref actor_type actor_id received_at db :
  (forall i j, uuid_source i = uuid_source j -> i = j) ->
  ids_fresh uuid_source db ->
  ids_fresh uuid_source
    (snd (create_case_from_intake uuid_source clock intake_payload source
            intake_channel external_ref actor_type actor_id received_at db)).
Proof.
  intros Hinj [Hnd Hdrawn].
  pose proof (create_case_outcome uuid_source clock intake_payload source
                intake_channel external_ref actor_type actor_id received_at db) as H.
  cbn zeta in H.
  assert (Hgrow : forall db' k,
             row_ids db' ≡ₚ row_ids db
                            ++ map uuid_source (seq (uuids_drawn db) k) ->
             uuids_drawn db' = (uuids_drawn db + k)%nat ->
             ids_fresh uuid_source db').
  { intros db' k Hperm Hu. split.
    - rewrite Hperm. apply NoDup_app. split; [done|]. split.
      + intros id Hold Hnew. apply list_elem_of_In in Hold, Hnew.
        destruct (Hdrawn id Hold) as (i & Hi & ->).
        apply in_map_iff in Hnew as (j & Hj & Hin). apply in_seq in Hin.
        apply Hinj in Hj. lia.
      + apply NoDup_fmap_2; [|apply NoDup_seq]. intros i j. apply Hinj.
    - intros id Hid. apply list_elem_of_In in Hid. rewrite Hperm in Hid.
      apply elem_of_app in Hid as [Hid|Hid]; apply list_elem_of_In in Hid.
      + destruct (Hdrawn id Hid) as (i & Hi & ->). exists i. split; [lia|done].
      + apply in_map_iff in Hid as (j & <- & Hin). apply in_seq in Hin.
        exists j. split; [lia|done]. }
  destruct (create_case_from_intake _ _ _ _ _ _ _ _ _ _) as [[case|e] db']; simpl.
  - destruct H as (_ & e1 & e2 & Hc & He & Hu & _ & Hid & _ & _ & Hid1 & _ & _ & _
                   & Hid2 & _).
    apply (Hgrow db' 3%nat); [|lia].
    unfold row_ids. rewrite Hc, He, !map_app. simpl. rewrite Hid, Hid1, Hid2.
    solve_Permutation.
  - destruct H as [(_ & -> & _)|(_ & _ & _ & case & e1 & Hc & He & Hu & _ & Hid & _
                                 & Hid1 & _)]; [done|].
    apply (Hgrow db' 2%nat); [|lia].
    unfold row_ids. rewrite Hc, He, !map_app. simpl. rewrite Hid, Hid1.
    solve_Permutation.
Qed.

Lemma create_case_keeps_ids_distinct_witness :
  ids_fresh (fun n => N.of_nat n)
    (snd (create_case_from_intake (fun n => N.of_nat n) (fun n => Z.of_nat n)
            (PDict [(PStr "symptom", PStr "headache")]) "portal" None None API
            None None (Session [] [] 0 0))).
Proof.
  apply create_case_keeps_ids_distinct.
  - intros i j. lia.
  - split; [constructor|]. intros id Hid. destruct Hid.
Defined.

(** X15.  With a clock that does not run backwards, a case created without a
    time of receipt is received before its two events occur, and
    [case.created] occurs before [intake.received]: the three instants are
    three readings of the clock, taken in that order. *)
Theorem new_case_is_stamped_in_order uuid_source clock intake_payload source
    intake_channel external_ref actor_type actor_id db case db' :
  (forall i j, (i <= j)%nat -> clock i <= clock j) ->
  create_case_from_intake uuid_source clock intake_payload source intake_channel
    external_ref actor_type actor_id None db = (Ok case, db') ->
  exists e1 e2,
    events db' = events db ++ [e1; e2]
    /\ CaseEvents.received_at case <= CaseEvents.occurred_at e1
    /\ CaseEvents.occurred_at e1 <= CaseEvents.occurred_at e2.
Proof.
  intros Hclock Hrun.
  pose proof (create_case_outcome uuid_source clock intake_payload source
                intake_channel external_ref actor_type actor_id None db) as H.
  cbn zeta in H. rewrite Hrun in H.
  destruct H as (_ & e1 & e2 & _ & He & _ & _ & _ & Hr & _ & _ & _ & H1 & _ & _ & _ & H2).
  exists e1, e2. split; [done|]. rewrite Hr, H1, H2. simpl.
  split; apply Hclock; lia.
Qed.

Lemma new_case_is_stamped_in_order_witness :
  exists e1 e2 : CaseEventLog,
    CaseEvents.event_type e1 = CASE_CREATED
    /\ CaseEvents.event_type e2 = INTAKE_RECEIVED
    /\ CaseEvents.occurred_at e1 <= CaseEvents.occurred_at e2.
Proof.
  assert (Hclock : forall i j, (i <= j)%nat -> Z.of_nat i <= Z.of_nat j)
    by (intros i j; lia).
  destruct (new_case_is_stamped_in_order (fun n => N.of_nat n) (fun n => Z.of_nat n)
              (PDict [(PStr "symptom", PStr "headache")]) "portal" None None API
              None (Session [] [] 0 0) _ _ Hclock eq_refl)
    as (e1 & e2 & He & _ & H12).
  exists e1, e2. simpl in He. injection He as <- <-. done.
Defined.

End CaseLogProperties.

(** * The run store: a copy depends on the record alone *)

Module StoreViewFacts.

Import Storage Ownership StorageFacts CopyFacts StoreView.

Implicit Types (h : list obj) (memo : list (addr * addr)) (x : val) (o : obj).

Lemma same_on_frames P n1 n2 h1 h2 h1' h2' :
  stable P n1 h1 -> stable P n2 h2 -> same_on P h1 h2 ->
  frame n1 h1 h1' -> frame n2 h2 h2' -> same_on P h1' h2'.
Proof.
  intros (Hb1 & _) (Hb2 & _) Hsame [_ H1] [_ H2] a Ha.
  rewrite H1, H2 by auto. by apply Hsame.
Qed.

(** The loop, on two heaps that hold the same region. *)
Lemma copy_into_same_outcome {K} rec (put : K -> val -> obj -> obj) P n1 n2 y1 y2 :
  (forall x memo h r, rec x memo h = Ok r -> frame (length h) h (snd r)) ->
  (forall x m1 m2 h1 h2,
      stable P n1 h1 -> stable P n2 h2 -> same_on P h1 h2 ->
      same_keys P m1 m2 -> val_in P x ->
      same_outcome (fun r1 r2 => same_keys P (snd (fst r1)) (snd (fst r2)))
        (rec x m1 h1) (rec x m2 h2)) ->
  (n1 <= y1)%nat -> (n2 <= y2)%nat ->
  forall slots m1 m2 h1 h2,
    stable P n1 h1 -> stable P n2 h2 -> same_on P h1 h2 ->
    same_keys P m1 m2 ->
    Forall (fun kv => val_in P (snd kv)) slots ->
    same_outcome (fun r1 r2 => same_keys P (fst r1) (fst r2))
      (copy_into rec put y1 slots m1 h1) (copy_into rec put y2 slots m2 h2).
Proof.
  intros Hframe Hrec Hy1 Hy2.
  induction slots as [|[k v] slots IH]; intros m1 m2 h1 h2 Hs1 Hs2 Hsame Hkeys Hall;
    simpl; [done|].
  apply Forall_cons in Hall as [Hv Hall]. simpl in Hv.
  pose proof (Hrec v m1 m2 h1 h2 Hs1 Hs2 Hsame Hkeys Hv) as Hstep.
  unfold same_outcome in Hstep.
  destruct (rec v m1 h1) as [[[v1 m1'] h1']|e1] eqn:Hr1;
    destruct (rec v m2 h2) as [[[v2 m2'] h2']|e2] eqn:Hr2; simpl in *; try done.
  pose proof (Hframe _ _ _ _ Hr1) as Hf1. pose proof (Hframe _ _ _ _ Hr2) as Hf2.
  simpl in Hf1, Hf2.
  assert (Hn1 : (n1 <= length h1)%nat) by (by destruct Hs1 as (_ & ? & _)).
  assert (Hn2 : (n2 <= length h2)%nat) by (by destruct Hs2 as (_ & ? & _)).
  assert (Hs1' : stable P n1 h1')
    by (eapply stable_frame; [done|]; by eapply frame_weaken, Hf1).
  assert (Hs2' : stable P n2 h2')
    by (eapply stable_frame; [done|]; by eapply frame_weaken, Hf2).
  apply IH; [| | |done|done].
  - eapply stable_frame; [done|]. by apply frame_alter.
  - eapply stable_frame; [done|]. by apply frame_alter.
  - eapply (same_on_frames P n1 n2 h1' h2'); [done|done| |by apply frame_alter..].
    eapply (same_on_frames P n1 n2 h1 h2); [done..| |];
      by eapply frame_weaken; [|eassumption].
Qed.

(** Whether a copy returns, and what it raises when it does not, depends
    on the objects the value reaches and on the addresses the memo knows
    among them: not on the rest of the heap, nor on how large the heap
    is. *)
Lemma deepcopy_same_outcome depth P n1 n2 :
  forall x m1 m2 h1 h2,
    stable P n1 h1 -> stable P n2 h2 -> same_on P h1 h2 ->
    same_keys P m1 m2 -> val_in P x ->
    same_outcome (fun r1 r2 => same_keys P (snd (fst r1)) (snd (fst r2)))
      (deepcopy depth x m1 h1) (deepcopy depth x m2 h2).
Proof.
  induction depth as [|depth IH]; intros x m1 m2 h1 h2 Hs1 Hs2 Hsame Hkeys Hx.
  - destruct x as [| | | |a]; simpl; try done.
    assert (Ha : P a) by by apply Hx.
    destruct (memo_get a m1) as [y1|] eqn:H1, (memo_get a m2) as [y2|] eqn:H2;
      simpl; try done.
    + by apply (Hkeys a Ha) in H2; rewrite H2 in H1.
    + by apply (Hkeys a Ha) in H1; rewrite H1 in H2.
  - destruct x as [| | | |a]; simpl; try done.
    assert (Ha : P a) by by apply Hx.
    destruct (memo_get a m1) as [y1|] eqn:H1, (memo_get a m2) as [y2|] eqn:H2;
      simpl; try done.
    { by apply (Hkeys a Ha) in H2; rewrite H2 in H1. }
    { by apply (Hkeys a Ha) in H1; rewrite H1 in H2. }
    rewrite <- (Hsame a Ha).
    pose proof Hs1 as (Hb1 & Hn1 & Hc1). pose proof Hs2 as (Hb2 & Hn2 & Hc2).
    assert (Hkeys' : same_keys P ((a, length h1) :: m1) ((a, length h2) :: m2)).
    { intros b Hb. simpl. destruct (Nat.eqb b a); [done|]. by apply Hkeys. }
    assert (Hs1' : forall c, stable P n1 (h1 ++ [c]))
      by (intros c; eapply stable_frame; [done|]; by apply frame_app).
    assert (Hs2' : forall c, stable P n2 (h2 ++ [c]))
      by (intros c; eapply stable_frame; [done|]; by apply frame_app).
    assert (Hsame' : forall c, same_on P (h1 ++ [c]) (h2 ++ [c])).
    { intros c. eapply (same_on_frames P n1 n2 h1 h2); [done..| |];
        by apply frame_app. }
    destruct (h1 !! a) as [[entries|items]|] eqn:Hcell; [| |done].
    + pose proof (copy_into_same_outcome (deepcopy depth) put_entry P n1 n2
                    (length h1) (length h2) (deepcopy_frame depth) IH Hn1 Hn2
                    entries _ _ _ _ (Hs1' (ODict [])) (Hs2' (ODict []))
                    (Hsame' (ODict [])) Hkeys'
                    (refs_in_entries _ _ (Hc1 a _ Ha Hcell))) as Hloop.
      unfold same_outcome in Hloop.
      destruct (copy_into _ _ (length h1) _ _ _) as [[m1' h1']|e1];
        destruct (copy_into _ _ (length h2) _ _ _) as [[m2' h2']|e2]; simpl; done.
    + pose proof (copy_into_same_outcome (deepcopy depth) put_item P n1 n2
                    (length h1) (length h2) (deepcopy_frame depth) IH Hn1 Hn2
                    (map (fun v => (tt, v)) items) _ _ _ _
                    (Hs1' (OList [])) (Hs2' (OList []))
                    (Hsame' (OList [])) Hkeys'
                    (refs_in_items _ _ (Hc1 a _ Ha Hcell))) as Hloop.
      unfold same_outcome in Hloop.
      destruct (copy_into _ _ (length h1) _ _ _) as [[m1' h1']|e1];
        destruct (copy_into _ _ (length h2) _ _ _) as [[m2' h2']|e2]; simpl; done.
Qed.

Section Reads.

Variable limit : nat.

(** What [get_run] shows depends on [_runs] and on the objects the store
    holds: two states that agree on both show the same, wherever the copy
    lands. *)
Lemma get_run_same K1 K2 w1 w2 run_id :
  sep K1 w1 -> sep K2 w2 ->
  _runs w2 !! Some (inl run_id) = _runs w1 !! Some (inl run_id) ->
  (forall a, a ∉ K1 -> (a < length (heap w1))%nat ->
     (a ∉ K2) /\ (a < length (heap w2))%nat /\ heap w2 !! a = heap w1 !! a) ->
  forall fuel,
    shown fuel (get_run limit run_id w2) = shown fuel (get_run limit run_id w1).
Proof.
  intros Hw1 Hw2 Hruns Hpriv fuel. unfold get_run. rewrite Hruns.
  destruct (_runs w1 !! Some (inl run_id)) as [run|] eqn:Hrun.
  2: { unfold shown. simpl. f_equal. by apply (reify_agree fuel (fun _ => False)). }
  destruct (roots_private _ Hw1 _ _ Hrun) as [Hn Hlt]. simpl in Hn, Hlt.
  destruct (Hpriv run Hn Hlt) as (Hn2 & Hlt2 & Hcell).
  unfold truthy. rewrite Hcell.
  destruct (match heap w1 !! run with
            | Some (ODict []) | Some (OList []) | None => false
            | _ => true
            end).
  2: { unfold shown. simpl. f_equal. by apply (reify_agree fuel (fun _ => False)). }
  set (P := fun r => (r ∉ K1) /\ (r < length (heap w1))%nat).
  assert (Hs1 : stable P (length (heap w1)) (heap w1)) by by apply sep_stable.
  assert (Hsame : same_on P (heap w1) (heap w2)).
  { intros a [Ha1 Ha2]. symmetry. by apply Hpriv. }
  assert (Hs2 : stable P (length (heap w2)) (heap w2)).
  { split; [intros a [Ha1 Ha2]; by apply Hpriv|]. split; [done|].
    intros a o Ha. rewrite <- (Hsame a Ha). by apply Hs1. }
  assert (Hx : val_in P (VRef run)) by (by intros r [= <-]).
  pose proof (deepcopy_same_outcome limit P _ _ (VRef run) [] [] _ _ Hs1 Hs2 Hsame
                ltac:(done) Hx) as Hout.
  unfold same_outcome in Hout. unfold deepcopy_call.
  assert (Hx1 : val_in (fun r => (r < length (heap w1))%nat) (VRef run))
    by (by intros r [= <-]).
  assert (Hx2 : val_in (fun r => (r < length (heap w2))%nat) (VRef run))
    by (by intros r [= <-]).
  destruct (deepcopy limit (VRef run) [] (heap w1)) as [[[y1 m1] h1']|e1] eqn:Hd1;
    destruct (deepcopy limit (VRef run) [] (heap w2)) as [[[y2 m2] h2']|e2] eqn:Hd2;
    simpl in *; try done.
  - unfold shown. simpl. f_equal.
    rewrite (deepcopy_content limit _ _ _ _ _
               (fun a o => heap_wf _ Hw1 a o) (separated_old_closed K1 w1 Hw1) Hx1 Hd1).
    rewrite (deepcopy_content limit _ _ _ _ _
               (fun a o => heap_wf _ Hw2 a o) (separated_old_closed K2 w2 Hw2) Hx2 Hd2).
    symmetry. apply (reify_agree fuel P); [done| |done].
    intros a o Ha. by apply Hs1.
  - by subst.
Qed.

(** ** Dictionaries *)

Lemma assoc_dict_set k k' v (entries : list (string * val)) :
  assoc k (dict_set k' v entries)
  = if String.eqb k k' then Some v else assoc k entries.
Proof.
  induction entries as [|[k0 v0] entries IH]; simpl.
  - by destruct (String.eqb k k').
  - destruct (String.eqb_spec k' k0) as [->|Hne]; simpl.
    + by destruct (String.eqb k k0).
    + destruct (String.eqb_spec k k0) as [->|Hne'].
      * destruct (String.eqb_spec k0 k') as [->|_]; [done|]. done.
      * exact IH.
Qed.

Lemma assoc_setdefault_entries k k' v (entries : list (string * val)) :
  assoc k (setdefault_entries k' v entries)
  = match assoc k entries with
    | Some x => Some x
    | None => if String.eqb k k' then Some v else None
    end.
Proof.
  unfold setdefault_entries, has_key.
  destruct (assoc k' entries) as [x'|] eqn:Hk'.
  - destruct (assoc k entries) eqn:Hk; [done|].
    destruct (String.eqb_spec k k') as [->|_]; [congruence|done].
  - rewrite assoc_dict_set.
    destruct (String.eqb_spec k k') as [->|_]; [by rewrite Hk'|].
    by destruct (assoc k entries).
Qed.

Lemma setdefault_lookup y k v h entries :
  h !! y = Some (ODict entries) ->
  setdefault y k v h = <[y := ODict (setdefault_entries k v entries)]> h.
Proof.
  intros Hy. unfold setdefault, setdefault_entries, setitem. rewrite Hy.
  destruct (has_key k entries).
  - symmetry. by apply list_insert_id.
  - rewrite list_insert_alter. unfold put_entry.
    apply list_eq. intros i. destruct (decide (i = y)) as [->|Hne].
    + rewrite !list_lookup_alter_eq, Hy. done.
    + by rewrite !list_lookup_alter_ne.
Qed.

(** A copy has the keys of its original, and the scalars under them. *)
Lemma slots_rel_assoc memo (src dst : list (string * val)) k :
  slots_rel memo src dst ->
  match assoc k src, assoc k dst with
  | Some v, Some v' => val_rel memo v v'
  | None, None => True
  | _, _ => False
  end.
Proof.
  induction 1 as [|[k1 v1] [k2 v2] src dst [Hk Hv] _ IH]; simpl in *; [done|].
  subst k2. by destruct (String.eqb k k1).
Qed.

Lemma val_rel_hashable memo v v' key :
  val_rel memo v v' -> hash_key v = Ok key -> v' = v.
Proof. by destruct v. Qed.

(** ** [create_run], step by step *)

(** What [copy.deepcopy(run)] returns for a dictionary of a separated
    state. *)
Lemma deepcopy_call_dict K w run entries :
  sep K w -> heap w !! run = Some (ODict entries) ->
  match deepcopy_call limit (VRef run) w with
  | (Ok y, w1) =>
      y = VRef (length (heap w))
      /\ _runs w1 = _runs w
      /\ frame (length (heap w)) (heap w) (heap w1)
      /\ sep K w1
      /\ (length (heap w) ∉ K) /\ (length (heap w) < length (heap w1))%nat
      /\ exists memo entries1,
           heap w1 !! length (heap w) = Some (ODict entries1)
           /\ slots_rel memo entries entries1
           /\ forall fuel,
                reify fuel (heap w1) (VRef (length (heap w)))
                = reify fuel (heap w) (VRef run)
  | (Err e, w1) => w1 = w /\ e = RecursionError
  end.
Proof.
  intros Hw Hcell.
  assert (Hlt : (run < length (heap w))%nat) by (by eapply lookup_lt_Some).
  assert (Hx : val_in (fun r => (r < length (heap w))%nat) (VRef run))
    by (by intros r [= <-]).
  assert (Hcp : copying (length (heap w)) [] (heap w)).
  { split; [done|by eapply separated_old_closed| |done].
    intros a o _. apply (heap_wf _ Hw). }
  pose proof (hoare_deepcopy_private limit K run w Hw) as Hsep.
  pose proof (deepcopy_call_spec limit (VRef run) w) as Hspec.
  unfold deepcopy_call in *.
  destruct (deepcopy limit (VRef run) [] (heap w)) as [[[y memo] h1]|e] eqn:Hd;
    simpl in *.
  - destruct Hspec as (_ & Hf & _ & Hy & _). destruct (Hy run eq_refl) as [-> Hgrow].
    destruct Hsep as [Hsep Hpriv].
    destruct (Hpriv _ eq_refl) as (b & [= <-] & Hb & _).
    destruct (deepcopy_copies limit _ _ _ _ _ _ _ Hcp Hx Hd)
      as (Hcp' & _ & (y' & Hmemo & [= <-]) & Hnew).
    destruct (Hnew run _ Hmemo eq_refl) as [_ (o & o' & Ho & Ho' & Hrel)].
    destruct Hf as [HL HE]. rewrite HE, Hcell in Ho by done. injection Ho as <-.
    destruct o' as [entries1|]; [|done].
    repeat (split; [done|]).
    exists memo, entries1. split; [done|]. split; [done|].
    intros fuel.
    apply (deepcopy_content limit _ _ _ _ _ (fun a o => heap_wf _ Hw a o)
             (separated_old_closed K w Hw) Hx Hd).
  - split; [done|].
    by apply (deepcopy_raises limit (length (heap w)) _ _ _ _ Hcp Hx Hd).
Qed.

(** All that [create_run] does.  When it returns, the record is a
    dictionary whose ["run_id"] is truthy, hashable and not yet a key of
    [_runs]; its copy, stamped, is the last but possibly nested objects of
    the heap, and [_runs] has it under that key.  When it raises, the state
    is as it was. *)
Lemma create_run_outcome K now run w :
  sep K w ->
  match create_run limit now run w with
  | (Ok _, w') =>
      exists entries rid key memo h1 entries1,
        heap w !! run = Some (ODict entries)
        /\ assoc "run_id" entries = Some rid
        /\ truthy (heap w) rid = true
        /\ hash_key rid = Ok key
        /\ _runs w !! key = None
        /\ _runs w' = <[key := length (heap w)]> (_runs w)
        /\ frame (length (heap w)) (heap w) h1
        /\ (length (heap w) < length h1)%nat
        /\ sep K (State h1 (_runs w))
        /\ h1 !! length (heap w) = Some (ODict entries1)
        /\ slots_rel memo entries entries1
        /\ (forall fuel, reify fuel h1 (VRef (length (heap w)))
                         = reify fuel (heap w) (VRef run))
        /\ heap w' = <[length (heap w) := ODict (stamped now entries1)]> h1
  | (Err e, w') => w' = w
  end.
Proof.
  intros Hw.
  unfold create_run, run_id_missing.
  unfold and_then, reading, pure, raise, contains, getitem. cbn beta.
  destruct (heap w !! run) as [[entries|items]|] eqn:Hcell; [| |done].
  2: { destruct (existsb _ items); cbn; rewrite ?Hcell; reflexivity. }
  unfold has_key, subscript.
  destruct (assoc "run_id" entries) as [rid|] eqn:Hrid; cbn [negb]; [|done].
  rewrite Hcell, Hrid.
  destruct (truthy (heap w) rid) eqn:Htrue; cbn [negb]; [|done].
  rewrite Hcell, Hrid.
  destruct (hash_key rid) as [key|] eqn:Hkey; [|done].
  destruct (_runs w !! key) as [old|] eqn:Hold; simpl; [done|].
  pose proof (deepcopy_call_dict K w run entries Hw Hcell) as Hcopy.
  destruct (deepcopy_call limit (VRef run) w) as [[y|e] w1];
    [|destruct Hcopy as [-> _]; reflexivity].
  destruct Hcopy as (-> & Hruns & Hf & Hw1 & Hny & Hgrow & memo & entries1 & Hy & Hrel
                     & Hsame).
  cbn [as_ref pure].
  set (y := length (heap w)) in *.
  rewrite (setdefault_lookup y _ _ _ _ Hy).
  set (entries2 := setdefault_entries "created_at" (VStr now) entries1).
  assert (Hy2 : <[y := ODict entries2]> (heap w1) !! y = Some (ODict entries2))
    by (by apply list_lookup_insert_eq).
  rewrite Hy2.
  assert (Hc : exists c, assoc "created_at" entries2 = Some c).
  { unfold entries2. rewrite assoc_setdefault_entries.
    destruct (assoc "created_at" entries1); eauto. }
  destruct Hc as [c Hc]. rewrite Hc.
  rewrite (setdefault_lookup y _ _ _ _ Hy2).
  rewrite list_insert_insert_eq.
  rewrite list_lookup_insert_eq by done.
  pose proof (slots_rel_assoc memo entries entries1 "run_id" Hrel) as Hr.
  rewrite Hrid in Hr.
  destruct (assoc "run_id" entries1) as [rid1|] eqn:Hrid1; [|done].
  apply (val_rel_hashable _ _ _ _ Hr) in Hkey as Heq. subst rid1.
  assert (Hrid3 : assoc "run_id" (setdefault_entries "updated_at" c entries2)
                  = Some rid).
  { unfold entries2. rewrite !assoc_setdefault_entries. by rewrite Hrid1. }
  rewrite Hrid3, Hkey. cbn.
  exists entries, rid, key, memo, (heap w1), entries1.
  rewrite Hruns. destruct w1 as [h1 r1]. simpl in *. subst r1.
  repeat (split; [done|]).
  unfold stamped. fold entries2. by rewrite Hc.
Qed.

(** All that [replace_run] does.  Either it raises with the state as it
    was, or the record is a dictionary whose ["run_id"] is a key of [_runs],
    its copy with ["updated_at"] set takes the place of the stored record,
    and the call ends as the copy of that new record does. *)
Lemma replace_run_outcome K now run w :
  sep K w ->
  (exists e, replace_run limit now run w = (Err e, w))
  \/ exists entries rid key old memo h1 entries1,
       heap w !! run = Some (ODict entries)
       /\ assoc "run_id" entries = Some rid
       /\ hash_key rid = Ok key
       /\ _runs w !! key = Some old
       /\ frame (length (heap w)) (heap w) h1
       /\ (length (heap w) < length h1)%nat
       /\ (length (heap w) ∉ K)
       /\ h1 !! length (heap w) = Some (ODict entries1)
       /\ slots_rel memo entries entries1
       /\ (forall fuel, reify fuel h1 (VRef (length (heap w)))
                        = reify fuel (heap w) (VRef run))
       /\ let w2 := State (<[length (heap w)
                              := ODict (dict_set "updated_at" (VStr now) entries1)]> h1)
                          (<[key := length (heap w)]> (_runs w)) in
          sep K w2
          /\ replace_run limit now run w = deepcopy_call limit (VRef (length (heap w))) w2.
Proof.
  intros Hw.
  unfold replace_run, run_id_missing.
  unfold and_then, reading, pure, raise, contains, getitem. cbn beta.
  destruct (heap w !! run) as [[entries|items]|] eqn:Hcell; [| |left; eauto].
  2: { left. destruct (existsb _ items); cbn; rewrite ?Hcell; eauto. }
  unfold has_key, subscript.
  destruct (assoc "run_id" entries) as [rid|] eqn:Hrid; cbn [negb]; [|left; eauto].
  rewrite Hcell, Hrid.
  destruct (truthy (heap w) rid) eqn:Htrue; cbn [negb]; [|left; eauto].
  rewrite Hcell, Hrid.
  destruct (hash_key rid) as [key|] eqn:Hkey; [|left; eauto].
  destruct (_runs w !! key) as [old|] eqn:Hold; simpl; [|left; eauto].
  pose proof (deepcopy_call_dict K w run entries Hw Hcell) as Hcopy.
  destruct (deepcopy_call limit (VRef run) w) as [[y|e] w1];
    [|destruct Hcopy as [-> _]; left; eauto].
  destruct Hcopy as (-> & Hruns & Hf & Hw1 & Hny & Hgrow & memo & entries1 & Hy & Hrel
                     & Hsame).
  right. exists entries, rid, key, old, memo, (heap w1), entries1.
  repeat (split; [done|]).
  cbn [as_ref pure]. unfold set_runs, setitem.
  destruct w1 as [h1 r1]. simpl in *. subst r1.
  assert (Hh : alter (put_entry "updated_at" (VStr now)) (length (heap w)) h1
               = <[length (heap w)
                   := ODict (dict_set "updated_at" (VStr now) entries1)]> h1).
  { apply list_eq. intros i. destruct (decide (i = length (heap w))) as [->|Hne].
    - rewrite list_lookup_alter_eq, Hy, list_lookup_insert_eq by done. done.
    - by rewrite list_lookup_alter_ne, list_lookup_insert_ne. }
  assert (Hsep1 : sep K (State (setitem (length (heap w)) "updated_at" (VStr now) h1)
                           (_runs w))).
  { apply (sep_setitem K (State h1 (_runs w)) (length (heap w)) "updated_at"
             (VStr now)); [done|done|by intros r]. }
  pose proof (sep_set_runs K _ key (length (heap w)) Hsep1 Hny) as Hsep2.
  simpl in Hsep2. unfold setitem in Hsep2. rewrite length_alter in Hsep2.
  specialize (Hsep2 Hgrow). rewrite Hh in Hsep2.
  cbn zeta. split; [exact Hsep2|]. by rewrite <- Hh.
Qed.

End Reads.

End StoreViewFacts.

(** * The run store: further properties *)

Module StoreProperties.

Import Storage Ownership StorageFacts CopyFacts StoreView StoreViewFacts.

Section Reads.

Variable limit : nat.

(** A state that grew out of another, with the same record under the run
    id, shows the same for it. *)
Lemma get_run_same_grown K K' w w' run_id :
  sep K w -> sep K' w' ->
  (forall a, (a < length (heap w))%nat -> heap w' !! a = heap w !! a) ->
  (length (heap w) <= length (heap w'))%nat ->
  (forall a, a ∈ K' -> a ∈ K \/ (length (heap w) <= a)%nat) ->
  _runs w' !! Some (inl run_id) = _runs w !! Some (inl run_id) ->
  forall fuel,
    shown fuel (get_run limit run_id w') = shown fuel (get_run limit run_id w).
Proof.
  intros Hw Hw' Hold Hlen Hheld Hruns fuel.
  apply (get_run_same limit K K'); [done..|].
  intros a Ha Hlt. split; [|split; [lia|by apply Hold]].
  intros Hin. destruct (Hheld a Hin); [done|lia].
Qed.

(** What the caller holds after a call has returned a copy. *)
Lemma receive_result_held r w' K a :
  a ∈ receive_result r w' K ->
  a ∈ K \/ exists y, r = Ok (VRef y) /\ (y <= a)%nat.
Proof.
  destruct r as [[| | | |y]|e]; simpl; auto.
  intros Hin. apply elem_of_union in Hin as [Hin|Hin]; [by left|].
  apply elem_of_set_seq in Hin. right. exists y. split; [done|lia].
Qed.

Lemma hash_key_str v run_id :
  v <> VStr run_id ->
  forall key, hash_key v = Ok key -> key <> Some (inl run_id).
Proof. intros Hne key. destruct v as [| [] | | |]; simpl; congruence. Qed.

Lemma truthy_hashable h h' v key :
  hash_key v = Ok key -> truthy h' v = truthy h v.
Proof. by destruct v. Qed.

End Reads.

(** The sample configurations, in which a record has been built and then
    stored, are configurations the store can be in. *)
Lemma sample_built_reachable : reachable 10 sample_built.
Proof.
  assert (Hnone : forall (K : gset nat) (o : obj),
             refs_of o = [] -> forall r, r ∈ refs_of o -> r ∈ K).
  { intros K o -> r Hr. by apply elem_of_nil in Hr. }
  assert (Hrec : forall r, r ∈ refs_of sample_record ->
                   r ∈ (∅ ∪ {[0%nat]} ∪ {[1%nat]} : gset nat)).
  { intros r Hr. simpl in Hr.
    apply elem_of_cons in Hr as [->|Hr]; [set_solver|].
    apply list_elem_of_singleton in Hr as ->. set_solver. }
  assert (Hwf : wf_obj sample_record).
  { apply (bool_decide_unpack _). vm_compute. reflexivity. }
  unfold reachable, sample_built.
  apply (rtc_l _ _ (Config (State [OList []] ∅) (∅ ∪ {[0%nat]}))).
  { exact (step_alloc 10 (State [] ∅) ∅ (OList []) I (Hnone _ (OList []) eq_refl)). }
  apply (rtc_l _ _ (Config (State [OList []; ODict []] ∅) (∅ ∪ {[0%nat]} ∪ {[1%nat]}))).
  { exact (step_alloc 10 (State [OList []] ∅) (∅ ∪ {[0%nat]}) (ODict [])
             (NoDup_nil_2 : wf_obj (ODict [])) (Hnone _ (ODict []) eq_refl)). }
  apply rtc_once.
  exact (step_alloc 10 (State [OList []; ODict []] ∅) (∅ ∪ {[0%nat]} ∪ {[1%nat]})
           sample_record Hwf Hrec).
Qed.

Lemma sample_stored_reachable : reachable 10 sample_stored.
Proof.
  eapply rtc_r; [apply sample_built_reachable|].
  apply (step_create 10 (st sample_built) (held sample_built) "t0" 2%nat
           (fst (create_run 10 "t0" 2%nat (st sample_built)))
           (snd (create_run 10 "t0" 2%nat (st sample_built)))).
  - unfold sample_built. simpl. set_solver.
  - apply surjective_pairing.
Qed.

(** X16.  Reading does not write: after [get_run] of any run id, [get_run] of
    any run id shows what it would have shown before, the same content or
    the same exception. *)
Theorem get_run_does_not_change_the_store limit c run_id run_id' fuel :
  reachable limit c ->
  shown fuel (get_run limit run_id' (snd (get_run limit run_id (st c))))
  = shown fuel (get_run limit run_id' (st c)).
Proof.
  intros Hc. pose proof (reachable_separated limit c Hc) as Hw.
  destruct c as [w K]. simpl in *.
  pose proof (get_run_sep limit K run_id w Hw) as Hw'.
  assert (Hcall : get_run limit run_id w = (Ok VNone, w)
                  \/ exists run, get_run limit run_id w
                                 = deepcopy_call limit (VRef run) w).
  { unfold get_run. destruct (_runs w !! Some (inl run_id)) as [run|]; [|by left].
    destruct (truthy (heap w) (VRef run)); [right; eauto|by left]. }
  destruct Hcall as [Hcall|[run Hcall]]; [by rewrite Hcall|].
  pose proof (deepcopy_call_spec limit (VRef run) w) as Hspec.
  rewrite <- Hcall in Hspec.
  destruct (get_run limit run_id w) as [[y|e] w'] eqn:Hget; simpl in *;
    [|by subst w'].
  destruct Hspec as (Hruns & [HL HE] & _ & Hy & _).
  destruct (Hy run eq_refl) as [-> _].
  apply (get_run_same_grown limit K (receive (VRef (length (heap w))) w' K) w w');
    try done.
  - intros a Ha. apply (receive_result_held (Ok (VRef (length (heap w)))) w' K) in Ha
      as [Ha|(y & [= <-] & Hy')]; auto.
  - by rewrite Hruns.
Qed.

Lemma get_run_does_not_change_the_store_witness :
  shown 5 (get_run 10 "r1" (snd (get_run 10 "r1" (st sample_stored))))
  = shown 5 (get_run 10 "r1" (st sample_stored)).
Proof.
  apply (get_run_does_not_change_the_store 10 sample_stored "r1" "r1" 5).
  apply sample_stored_reachable.
Defined.

(** X17.  [create_run] is all or nothing.  When it raises, the state is as it
    was.  When it returns, the run id of the record was not a key of
    [_runs] and now is, the other keys are as they were, and so are the
    objects that were on the heap. *)
Theorem create_run_is_all_or_nothing limit c now run :
  reachable limit c ->
  match create_run limit now run (st c) with
  | (Err _, w') => w' = st c
  | (Ok _, w') =>
      exists rid key,
        getitem (heap (st c)) run "run_id" = Ok rid
        /\ hash_key rid = Ok key
        /\ _runs (st c) !! key = None
        /\ is_Some (_runs w' !! key)
        /\ (forall k, k <> key -> _runs w' !! k = _runs (st c) !! k)
        /\ forall a, (a < length (heap (st c)))%nat ->
             heap w' !! a = heap (st c) !! a
  end.
Proof.
  intros Hc. pose proof (reachable_separated limit c Hc) as Hw.
  destruct c as [w K]. simpl in *.
  pose proof (create_run_outcome limit K now run w Hw) as Hout.
  destruct (create_run limit now run w) as [[u|e] w']; [|done].
  destruct Hout as (entries & rid & key & memo & h1 & entries1 & Hcell & Hrid & _
                    & Hkey & Hnew & Hruns & [_ HE] & Hgrow & _ & _ & _ & _ & Hheap).
  exists rid, key. unfold getitem, subscript. rewrite Hcell, Hrid, Hruns, Hheap.
  split; [done|]. split; [done|]. split; [done|].
  split; [by rewrite lookup_insert_eq|].
  split; [intros k Hk; by rewrite lookup_insert_ne|].
  intros a Ha. rewrite list_lookup_insert_ne by lia. by apply HE.
Qed.

Lemma create_run_is_all_or_nothing_witness :
  snd (create_run 10 "t1" 2%nat (st sample_stored)) = st sample_stored.
Proof.
  pose proof (create_run_is_all_or_nothing 10 sample_stored "t1" 2%nat
                sample_stored_reachable) as H.
  destruct (create_run 10 "t1" 2%nat (st sample_stored)) as [[u|e] w'] eqn:Hrun.
  - exfalso. vm_compute in Hrun. discriminate Hrun.
  - exact H.
Defined.

(** X18.  The same record cannot be created twice: once [create_run] has stored
    a record, [create_run] on that record again raises [ValueError] and
    leaves the state as it is, whenever it is called. *)
Theorem create_run_refuses_a_stored_id limit c now run u w' now' :
  reachable limit c ->
  create_run limit now run (st c) = (Ok u, w') ->
  exists msg, create_run limit now' run w' = (Err (ValueError msg), w').
Proof.
  intros Hc Hrun. pose proof (reachable_separated limit c Hc) as Hw.
  destruct c as [w K]. simpl in *.
  pose proof (create_run_outcome limit K now run w Hw) as Hout.
  rewrite Hrun in Hout.
  destruct Hout as (entries & rid & key & memo & h1 & entries1 & Hcell & Hrid & Htrue
                    & Hkey & Hnew & Hruns & [_ HE] & Hgrow & _ & _ & _ & _ & Hheap).
  assert (Hlt : (run < length (heap w))%nat) by (by eapply lookup_lt_Some).
  assert (Hcell' : heap w' !! run = Some (ODict entries)).
  { rewrite Hheap, list_lookup_insert_ne by lia. by rewrite HE. }
  unfold create_run, run_id_missing.
  unfold and_then, reading, pure, raise, contains, getitem. cbn beta.
  rewrite Hcell'. unfold has_key, subscript. rewrite Hrid. cbn [negb].
  rewrite Hcell', Hrid, (truthy_hashable (heap w) (heap w') rid key Hkey), Htrue.
  cbn [negb]. rewrite Hcell', Hrid, Hkey, Hruns, lookup_insert_eq.
  simpl. eauto.
Qed.

Lemma create_run_refuses_a_stored_id_witness :
  exists msg,
    create_run 10 "t1" 2%nat (st sample_stored)
    = (Err (ValueError msg), st sample_stored).
Proof.
  apply (create_run_refuses_a_stored_id 10 sample_built "t0" 2%nat tt
           (st sample_stored) "t1").
  - apply sample_built_reachable.
  - vm_compute. reflexivity.
Defined.

(** X19.  Storing one run leaves the others alone: whatever [create_run] or
    [replace_run] does with a record, and whether it returns or raises,
    [get_run] of a run id that is not the record's shows what it showed
    before. *)
Theorem storing_a_run_leaves_the_other_runs limit c now run run_id fuel :
  reachable limit c ->
  getitem (heap (st c)) run "run_id" <> Ok (VStr run_id) ->
  shown fuel (get_run limit run_id (snd (create_run limit now run (st c))))
  = shown fuel (get_run limit run_id (st c))
  /\ shown fuel (get_run limit run_id (snd (replace_run limit now run (st c))))
     = shown fuel (get_run limit run_id (st c)).
Proof.
  intros Hc Hother. pose proof (reachable_separated limit c Hc) as Hw.
  destruct c as [w K]. simpl in *. split.
  - pose proof (create_run_outcome limit K now run w Hw) as Hout.
    pose proof (create_run_sep limit K now run w Hw) as Hw'.
    destruct (create_run limit now run w) as [[u|e] w']; simpl in *; [|by subst w'].
    destruct Hout as (entries & rid & key & memo & h1 & entries1 & Hcell & Hrid & _
                      & Hkey & Hnew & Hruns & [HL HE] & Hgrow & _ & _ & _ & _ & Hheap).
    apply (get_run_same_grown limit K K w w'); try done.
    + intros a Ha. rewrite Hheap, list_lookup_insert_ne by lia. by apply HE.
    + rewrite Hheap, length_insert. lia.
    + auto.
    + rewrite Hruns. apply lookup_insert_ne.
      apply (hash_key_str rid run_id); [|done].
      intros ->. apply Hother. unfold getitem, subscript. by rewrite Hcell, Hrid.
  - destruct (replace_run_outcome limit K now run w Hw)
      as [[e ->]|(entries & rid & key & old & memo & h1 & entries1 & Hcell & Hrid & Hkey
                  & Hold & [HL HE] & Hgrow & Hny & Hy & _ & _ & Hw2 & ->)]; [done|].
    cbn zeta in Hw2.
    set (w2 := State (<[length (heap w)
                        := ODict (dict_set "updated_at" (VStr now) entries1)]> h1)
                     (<[key := length (heap w)]> (_runs w))) in *.
    pose proof (deepcopy_call_spec limit (VRef (length (heap w))) w2) as Hspec.
    pose proof (hoare_deepcopy_held limit K (length (heap w)) w2 Hw2) as Hw'.
    assert (Hkey' : <[key := length (heap w)]> (_runs w) !! Some (inl run_id)
                    = _runs w !! Some (inl run_id)).
    { apply lookup_insert_ne.
      apply (hash_key_str rid run_id); [|done].
      intros ->. apply Hother. unfold getitem, subscript. by rewrite Hcell, Hrid. }
    assert (Hold2 : forall a, (a < length (heap w))%nat -> heap w2 !! a = heap w !! a).
    { intros a Ha. simpl. rewrite list_lookup_insert_ne by lia. by apply HE. }
    assert (Hlen2 : length (heap w2) = length h1) by (simpl; by rewrite length_insert).
    destruct (deepcopy_call limit (VRef (length (heap w))) w2) as [[y|e] w'];
      cbn [fst snd] in *.
    + destruct Hspec as (Hruns & [HL' HE'] & _ & Hyy & _).
      destruct (Hyy _ eq_refl) as [-> _].
      apply (get_run_same_grown limit K _ w w' run_id Hw Hw').
      * intros a Ha. rewrite HE' by lia. by apply Hold2.
      * lia.
      * intros a Ha.
        apply (receive_result_held (Ok (VRef (length (heap w2)))) w' K) in Ha
          as [Ha|(y & [= <-] & Hy')]; [by left|right].
        rewrite length_insert in Hy'. lia.
      * by rewrite Hruns.
    + subst w'.
      apply (get_run_same_grown limit K K w w2 run_id Hw Hw2); try done; [lia|auto].
Qed.

Lemma storing_a_run_leaves_the_other_runs_witness :
  shown 5 (get_run 10 "r2" (snd (create_run 10 "t0" 2%nat (st sample_built))))
  = shown 5 (get_run 10 "r2" (st sample_built)).
Proof.
  apply (storing_a_run_leaves_the_other_runs 10 sample_built "t0" 2%nat "r2" 5).
  - apply sample_built_reachable.
  - vm_compute. intros H. discriminate H.
Defined.

(** X20.  [replace_run] replaces and nothing else: it never adds a run id to
    [_runs] nor removes one, it leaves the objects that were on the heap as
    they were, and when it raises the state is as it was, unless what it
    raises is [RecursionError]. *)
Theorem replace_run_only_replaces limit c now run :
  reachable limit c ->
  let r := replace_run limit now run (st c) in
  (forall k, is_Some (_runs (snd r) !! k) <-> is_Some (_runs (st c) !! k))
  /\ (forall a, (a < length (heap (st c)))%nat ->
        heap (snd r) !! a = heap (st c) !! a)
  /\ (forall e, fst r = Err e -> snd r = st c \/ e = RecursionError).
Proof.
  intros Hc r. subst r. pose proof (reachable_separated limit c Hc) as Hw.
  destruct c as [w K]. simpl in *.
  destruct (replace_run_outcome limit K now run w Hw)
    as [[e ->]|(entries & rid & key & old & memo & h1 & entries1 & Hcell & Hrid & Hkey
                & Hold & [HL HE] & Hgrow & Hny & Hy & _ & _ & Hw2 & ->)].
  { simpl. split; [done|]. split; [done|]. auto. }
  cbn zeta in Hw2.
  set (w2 := State (<[length (heap w)
                      := ODict (dict_set "updated_at" (VStr now) entries1)]> h1)
                   (<[key := length (heap w)]> (_runs w))) in *.
  assert (Hcell2 : heap w2 !! length (heap w)
                   = Some (ODict (dict_set "updated_at" (VStr now) entries1)))
    by (by apply list_lookup_insert_eq).
  pose proof (deepcopy_call_dict limit K w2 (length (heap w)) _ Hw2 Hcell2) as Hcopy.
  assert (Hkeys : forall k, is_Some (_runs w2 !! k) <-> is_Some (_runs w !! k)).
  { intros k. simpl. destruct (decide (k = key)) as [->|Hne].
    - rewrite lookup_insert_eq, Hold. split; eauto.
    - by rewrite lookup_insert_ne. }
  assert (Hold2 : forall a, (a < length (heap w))%nat -> heap w2 !! a = heap w !! a).
  { intros a Ha. simpl. rewrite list_lookup_insert_ne by lia. by apply HE. }
  assert (Hlen2 : length (heap w2) = length h1) by (simpl; by rewrite length_insert).
  destruct (deepcopy_call limit (VRef (length (heap w))) w2) as [[y|e] w'];
    simpl.
  - destruct Hcopy as (_ & Hruns & [HL' HE'] & _). rewrite Hruns.
    split; [done|]. split; [|done].
    intros a Ha. rewrite HE' by lia. by apply Hold2.
  - destruct Hcopy as [-> ->]. split; [done|]. split; [done|].
    intros e [= <-]. by right.
Qed.

Lemma replace_run_only_replaces_witness :
  heap (snd (replace_run 10 "t1" 2%nat (st sample_stored))) !! 0%nat
  = heap (st sample_stored) !! 0%nat.
Proof.
  pose proof (replace_run_only_replaces 10 sample_stored "t1" 2%nat
                sample_stored_reachable) as (_ & H & _).
  apply H. vm_compute. lia.
Defined.

(** X21.  What [replace_run] returns is what the store now holds: a following
    [get_run] of the record's run id shows the record [replace_run]
    returned, and that record has ["updated_at"] set to the time of the
    call. *)
Theorem replace_run_returns_the_stored_record limit c now run run_id y w' fuel :
  reachable limit c ->
  getitem (heap (st c)) run "run_id" = Ok (VStr run_id) ->
  replace_run limit now run (st c) = (Ok y, w') ->
  shown fuel (get_run limit run_id w') = Ok (reify fuel (heap w') y)
  /\ exists a, y = VRef a /\ getitem (heap w') a "updated_at" = Ok (VStr now).
Proof.
  intros Hc Hid Hrun. pose proof (reachable_separated limit c Hc) as Hw.
  destruct c as [w K]. simpl in *.
  destruct (replace_run_outcome limit K now run w Hw)
    as [[e He]|(entries & rid & key & old & memo & h1 & entries1 & Hcell & Hrid & Hkey
                & Hold & [HL HE] & Hgrow & Hny & Hy & _ & _ & Hw2 & Hcall)];
    [congruence|].
  cbn zeta in Hw2, Hcall.
  set (y0 := length (heap w)) in *.
  set (entries2 := dict_set "updated_at" (VStr now) entries1) in *.
  set (w2 := State (<[y0 := ODict entries2]> h1) (<[key := y0]> (_runs w))) in *.
  rewrite Hrun in Hcall.
  unfold getitem, subscript in Hid. rewrite Hcell, Hrid in Hid. injection Hid as ->.
  simpl in Hkey. injection Hkey as <-.
  assert (Hcell2 : heap w2 !! y0 = Some (ODict entries2))
    by (by apply list_lookup_insert_eq).
  pose proof (deepcopy_call_dict limit K w2 y0 _ Hw2 Hcell2) as Hcopy.
  pose proof (hoare_deepcopy_held limit K y0 w2 Hw2) as Hw'.
  rewrite <- Hcall in Hcopy, Hw'. simpl in Hw'.
  destruct Hcopy as (-> & Hruns & [HL' HE'] & _ & _ & Hgrow' & memo' & entries3 & Hy3
                     & Hrel & Hsame).
  assert (Hget2 : get_run limit run_id w2 = (Ok (VRef (length (heap w2))), w')).
  { assert (Htruthy : truthy (heap w2) (VRef y0) = true).
    { unfold truthy. rewrite Hcell2. unfold entries2.
      destruct entries1 as [|[k1 v1] entries1]; cbn [dict_set]; [reflexivity|].
      by destruct (String.eqb "updated_at" k1). }
    assert (Hroot : _runs w2 !! Some (inl run_id) = Some y0)
      by apply lookup_insert_eq.
    unfold get_run. rewrite Hroot, Htruthy. symmetry. exact Hcall. }
  split.
  - rewrite (get_run_same_grown limit K _ w2 w' run_id Hw2 Hw'); try done.
    + by rewrite Hget2.
    + intros a Ha.
      apply (receive_result_held (Ok (VRef (length (heap w2)))) w' K) in Ha
        as [Ha|(y & [= <-] & Hy')]; auto.
    + by rewrite Hruns.
  - exists (length (heap w2)). split; [done|].
    unfold getitem, subscript. rewrite Hy3.
    pose proof (slots_rel_assoc memo' entries2 entries3 "updated_at" Hrel) as Hr.
    unfold entries2 in Hr. rewrite assoc_dict_set in Hr. simpl in Hr.
    destruct (assoc "updated_at" entries3) as [v|]; [|done]. by subst v.
Qed.

Lemma replace_run_returns_the_stored_record_witness :
  shown 5 (get_run 10 "r1" (snd (replace_run 10 "t1" 2%nat (st sample_stored))))
  = Ok (reify 5 (heap (snd (replace_run 10 "t1" 2%nat (st sample_stored))))
          (VRef 9%nat)).
Proof.
  apply (replace_run_returns_the_stored_record 10 sample_stored "t1" 2%nat "r1"
           (VRef 9%nat) _ 5).
  - apply sample_stored_reachable.
  - vm_compute. reflexivity.
  - vm_compute. reflexivity.
Defined.

End StoreProperties.

(** * The run store: what it keeps *)

Module StoreInvariants.

Import Storage Ownership StorageFacts CopyFacts StoreView StoreViewFacts.

Section Kept.

Variable limit : nat.

Lemma filed_same h h' key a : filed h key a -> h' !! a = h !! a -> filed h' key a.
Proof.
  intros (entries & rid & Hcell & Hrest) E. exists entries, rid. by rewrite E.
Qed.

Lemma well_filed_frame K w w' :
  sep K w -> well_filed w -> _runs w' = _runs w ->
  frame (length (heap w)) (heap w) (heap w') -> well_filed w'.
Proof.
  intros Hw Hf Hruns [_ HE] key a Ha. rewrite Hruns in Ha.
  apply (filed_same (heap w)); [by apply Hf|].
  apply HE. by destruct (roots_private _ Hw _ _ Ha).
Qed.

Lemma well_filed_deepcopy_call K x w :
  sep K w -> well_filed w -> well_filed (snd (deepcopy_call limit x w)).
Proof.
  intros Hw Hf. pose proof (deepcopy_call_spec limit x w) as Hspec.
  destruct (deepcopy_call limit x w) as [[y|e] w']; simpl; [|by subst].
  destruct Hspec as (Hruns & Hfr & _). by apply (well_filed_frame K w).
Qed.

Lemma well_filed_step c c' :
  separated c -> step limit c c' -> well_filed (st c) -> well_filed (st c').
Proof.
  intros Hc Hstep. revert Hc.
  destruct Hstep as [w K o Ho Hrefs|w K a o Ha Ho Hrefs|w K now run res w' Hrun Hcall
                    |w K run_id res w' Hcall|w K now run res w' Hrun Hcall];
    simpl; intros Hw Hf.
  - intros key a Ha. simpl in *. apply (filed_same (heap w)); [by apply Hf|].
    destruct (roots_private _ Hw _ _ Ha) as [_ Hlt]. simpl in Hlt.
    by rewrite lookup_app_l.
  - intros key a' Ha'. simpl in *. apply (filed_same (heap w)); [by apply Hf|].
    destruct (roots_private _ Hw _ _ Ha') as [Hn _]. simpl in Hn.
    apply list_lookup_insert_ne. by intros ->.
  - pose proof (create_run_outcome limit K now run w Hw) as Hout.
    rewrite Hcall in Hout. destruct res as [u|e]; [|by subst].
    destruct Hout as (entries & rid & key & memo & h1 & entries1 & Hcell & Hrid & _
                      & Hkey & Hnew & Hruns & [HL HE] & Hgrow & _ & Hy & Hrel & _ & Hheap).
    intros key' a Ha. rewrite Hruns in Ha. rewrite Hheap.
    destruct (decide (key' = key)) as [->|Hne].
    + rewrite lookup_insert_eq in Ha. injection Ha as <-.
      exists (stamped now entries1), rid. split; [by rewrite list_lookup_insert_eq|].
      pose proof (slots_rel_assoc memo entries entries1 "run_id" Hrel) as Hr.
      rewrite Hrid in Hr. destruct (assoc "run_id" entries1) as [rid'|] eqn:Hrid'; [|done].
      apply (val_rel_hashable _ _ _ _ Hr) in Hkey as Heq. subst rid'.
      unfold stamped. split; [|split; [done|]].
      * by rewrite !assoc_setdefault_entries, Hrid'.
      * unfold has_key. rewrite assoc_setdefault_entries.
        by destruct (assoc "updated_at" _).
    + rewrite lookup_insert_ne in Ha by done.
      destruct (roots_private _ Hw _ _ Ha) as [_ Hlt]. simpl in Hlt.
      apply (filed_same (heap w)); [by apply Hf|].
      rewrite list_lookup_insert_ne by lia. by apply HE.
  - assert (E : w' = snd (get_run limit run_id w)) by by rewrite Hcall.
    subst w'. unfold get_run. cbn [st held] in *.
    destruct (_runs w !! Some (inl run_id)) as [run|]; [|done].
    destruct (truthy (heap w) (VRef run)); [|done].
    by apply (well_filed_deepcopy_call K).
  - simpl in *.
    destruct (replace_run_outcome limit K now run w Hw)
      as [[e He]|(entries & rid & key & old & memo & h1 & entries1 & Hcell & Hrid & Hkey
                  & Hold & [HL HE] & Hgrow & Hny & Hy & Hrel & _ & Hw2 & Hcall2)].
    { rewrite He in Hcall. by injection Hcall as _ <-. }
    cbn zeta in Hw2, Hcall2.
    assert (E : w' = snd (replace_run limit now run w)) by by rewrite Hcall.
    subst w'. rewrite Hcall2. apply (well_filed_deepcopy_call K); [done|].
    intros key' a Ha. simpl in *.
    destruct (decide (key' = key)) as [->|Hne].
    + rewrite lookup_insert_eq in Ha. injection Ha as <-.
      exists (dict_set "updated_at" (VStr now) entries1), rid.
      split; [by rewrite list_lookup_insert_eq|].
      pose proof (slots_rel_assoc memo entries entries1 "run_id" Hrel) as Hr.
      rewrite Hrid in Hr. destruct (assoc "run_id" entries1) as [rid'|] eqn:Hrid'; [|done].
      apply (val_rel_hashable _ _ _ _ Hr) in Hkey as Heq. subst rid'.
      split; [|split; [done|]].
      * by rewrite assoc_dict_set.
      * unfold has_key. by rewrite assoc_dict_set.
    + rewrite lookup_insert_ne in Ha by done.
      destruct (roots_private _ Hw _ _ Ha) as [_ Hlt]. simpl in Hlt.
      apply (filed_same (heap w)); [by apply Hf|].
      rewrite list_lookup_insert_ne by lia. by apply HE.
Qed.

Lemma reachable_well_filed c : reachable limit c -> well_filed (st c).
Proof.
  intros Hc. unfold reachable in Hc.
  apply (rtc_ind_r (R := step limit) (fun c => well_filed (st c)) initial);
    [|clear c Hc|exact Hc].
  - intros key a Ha. simpl in Ha. by rewrite lookup_empty in Ha.
  - intros c1 c2 Hc Hstep IH. eapply well_filed_step; [|exact Hstep|exact IH].
    by apply (reachable_separated limit).
Qed.

End Kept.

End StoreInvariants.

Module StoreKeeps.

Import Storage Ownership StorageFacts CopyFacts StoreView StoreViewFacts StoreInvariants.

(** X23.  In every state the callers of [create_run], [get_run] and [replace_run]
    can bring about, each record of the store is a dictionary filed under
    its own ["run_id"] and carrying an ["updated_at"].  So [get_run] returns
    [None] for the ids that are not stored and for no other. *)
Theorem stored_records_are_filed limit c :
  reachable limit c ->
  well_filed (st c)
  /\ forall run_id,
       (exists w', get_run limit run_id (st c) = (Ok VNone, w'))
       <-> _runs (st c) !! Some (inl run_id) = None.
Proof.
  intros Hc. pose proof (reachable_well_filed limit c Hc) as Hf.
  split; [done|]. intros run_id. split.
  - intros [w' Hget].
    destruct (_runs (st c) !! Some (inl run_id)) as [run|] eqn:Hrun; [|done].
    exfalso.
    destruct (Hf _ _ Hrun) as (entries & rid & Hcell & Hrid & _).
    assert (Htrue : truthy (heap (st c)) (VRef run) = true).
    { simpl. rewrite Hcell. by destruct entries. }
    pose proof (get_run_content limit (held c) (st c) run_id run) as Hcont.
    destruct c as [w K]. simpl in *.
    specialize (Hcont (reachable_separated limit _ Hc) Hrun Htrue).
    rewrite Hget in Hcont. by destruct Hcont as [? _].
  - intros Hnone. exists (st c). unfold get_run. by rewrite Hnone.
Qed.

Lemma stored_records_are_filed_witness :
  filed (heap (st sample_stored)) (Some (inl "r1")) 3%nat.
Proof.
  apply (stored_records_are_filed 10 sample_stored
           StoreProperties.sample_stored_reachable).
  vm_compute. reflexivity.
Defined.

End StoreKeeps.

(** * The run store: a record and its tree *)

Module TreeFacts.

Import Storage Ownership StorageFacts CopyFacts StoreView StoreViewFacts.

Lemma mapM_Some_impl {A B} (f g : A -> option B) (l : list A) ts :
  mapM f l = Some ts ->
  Forall (fun x => forall t, f x = Some t -> g x = Some t) l ->
  mapM g l = Some ts.
Proof.
  intros Hf Hall. rewrite <- Hf. symmetry. apply mapM_agree.
  assert (Hs : Forall (fun x => is_Some (f x)) l).
  { apply mapM_is_Some. by rewrite Hf. }
  rewrite Forall_forall in *. intros x Hx.
  destruct (Hs x Hx) as [t Ht]. rewrite Ht. symmetry. by apply Hall.
Qed.

Lemma reify_ref k h a :
  reify (S k) h (VRef a)
  = match h !! a with
    | Some (ODict entries) =>
        TDict <$> mapM (fun kv => pair (fst kv) <$> reify k h (snd kv)) entries
    | Some (OList items) => TList <$> mapM (reify k h) items
    | None => None
    end.
Proof. reflexivity. Qed.

Lemma fmap_pair_Some {A B} (k : A) (o : option B) p :
  pair k <$> o = Some p -> exists t, o = Some t /\ p = (k, t).
Proof. destruct o; simpl; [|done]. intros [= <-]. eauto. Qed.

(** More fuel shows the same tree. *)
Lemma reify_mono k h : forall x t, reify k h x = Some t -> reify (S k) h x = Some t.
Proof.
  induction k as [|k IH]; intros x t.
  - by destruct x.
  - destruct x as [| | | |a]; try done.
    rewrite (reify_ref (S k)), (reify_ref k).
    destruct (h !! a) as [[entries|items]|]; [| |done].
    + destruct (mapM _ entries) as [es|] eqn:Hes; cbn [fmap option_fmap option_map]; [|done].
      intros [= <-].
      rewrite (mapM_Some_impl _ (fun kv => pair (fst kv) <$> reify (S k) h (snd kv))
                 entries es Hes); [done|].
      apply Forall_forall. intros [k0 v] _ p Hp. simpl in *.
      apply fmap_pair_Some in Hp as (t & Ht & ->). by rewrite (IH _ _ Ht).
    + destruct (mapM _ items) as [ts|] eqn:Hts; cbn [fmap option_fmap option_map]; [|done].
      intros [= <-].
      rewrite (mapM_Some_impl _ (reify (S k) h) items ts Hts); [done|].
      apply Forall_forall. intros v _ t Ht. by apply IH.
Qed.

Lemma reify_mono_le k k' h x t :
  (k <= k')%nat -> reify k h x = Some t -> reify k' h x = Some t.
Proof.
  induction 1 as [|k' _ IH]; [done|]. intros Ht. by apply reify_mono, IH.
Qed.

(** A tree that does not go through [a] does not depend on the object at
    [a]. *)
Lemma reify_without a o' h :
  forall k x t,
    reify k h (VRef a) = None -> reify k h x = Some t ->
    reify k (<[a := o']> h) x = Some t.
Proof.
  induction k as [|k IH]; intros x t Hroot.
  - by destruct x.
  - destruct x as [| | | |b]; try done.
    destruct (decide (b = a)) as [->|Hne]; [congruence|].
    assert (Hroot' : reify k h (VRef a) = None).
    { destruct (reify k h (VRef a)) as [t'|] eqn:E; [|done].
      apply reify_mono in E. congruence. }
    rewrite !reify_ref, list_lookup_insert_ne by done.
    destruct (h !! b) as [[entries|items]|]; [| |done].
    + destruct (mapM _ entries) as [es|] eqn:Hes; cbn [fmap option_fmap option_map]; [|done].
      intros [= <-].
      rewrite (mapM_Some_impl _
                 (fun kv => pair (fst kv) <$> reify k (<[a := o']> h) (snd kv))
                 entries es Hes); [done|].
      apply Forall_forall. intros [k0 v] _ p Hp. simpl in *.
      apply fmap_pair_Some in Hp as (t & Ht & ->). by rewrite (IH _ _ Hroot' Ht).
    + destruct (mapM _ items) as [ts|] eqn:Hts; cbn [fmap option_fmap option_map]; [|done].
      intros [= <-].
      rewrite (mapM_Some_impl _ (reify k (<[a := o']> h)) items ts Hts); [done|].
      apply Forall_forall. intros v _ t Ht. by apply IH.
Qed.

(** The least fuel that shows a container. *)
Lemma reify_least k h a t :
  reify k h (VRef a) = Some t ->
  exists m, (S m <= k)%nat /\ reify (S m) h (VRef a) = Some t
            /\ reify m h (VRef a) = None.
Proof.
  induction k as [|k IH]; [done|]. intros Ht.
  destruct (reify k h (VRef a)) as [t'|] eqn:E.
  - pose proof (reify_mono _ _ _ _ E) as E'.
    assert (t' = t) by congruence. subst t'.
    destruct (IH eq_refl) as (m & Hm & H1 & H2). exists m. split; [lia|done].
  - exists k. done.
Qed.

(** The entries of a dictionary that shows as a tree show the same whatever
    is put in the place of the dictionary. *)
Lemma reify_entries_without k h a t entries o' :
  reify (S k) h (VRef a) = Some t ->
  h !! a = Some (ODict entries) ->
  Forall (fun kv => reify k (<[a := o']> h) (snd kv) = reify k h (snd kv)
                    /\ is_Some (reify k h (snd kv))) entries.
Proof.
  intros Ht Hcell.
  destruct (reify_least _ _ _ _ Ht) as (m & Hm & H1 & H2).
  rewrite reify_ref, Hcell in H1.
  destruct (mapM _ entries) as [es|] eqn:Hes; [|done].
  assert (Hs : Forall (fun kv => is_Some (pair (fst kv) <$> reify m h (snd kv)))
                 entries).
  { apply (mapM_is_Some (fun kv => pair (fst kv) <$> reify m h (snd kv))).
    by rewrite Hes. }
  eapply Forall_impl; [exact Hs|]. intros [k0 v] [p Hp]. simpl in *.
  apply fmap_pair_Some in Hp as (tv & Htv & _).
  pose proof (reify_without a o' h m v tv H2 Htv) as Htv'.
  rewrite (reify_mono_le m k _ _ tv) by (done || lia).
  rewrite (reify_mono_le m k _ _ tv) by (done || lia). eauto.
Qed.

(** ** Entries and their trees *)

Lemma mapM_snoc {A B} (f : A -> option B) (l : list A) (x : A) ts t :
  mapM f l = Some ts -> f x = Some t -> mapM f (l ++ [x]) = Some (ts ++ [t]).
Proof.
  revert ts. induction l as [|a l IH]; intros ts; simpl.
  - intros [= <-] ->. done.
  - destruct (f a) as [b|]; simpl; [|done].
    destruct (mapM f l) as [bs|]; simpl; [|done].
    intros [= <-] Hx. by rewrite (IH bs eq_refl Hx).
Qed.

Lemma mapM_assoc (f : val -> option tree) (entries : list (string * val)) es key :
  mapM (fun kv => pair (fst kv) <$> f (snd kv)) entries = Some es ->
  assoc key es = assoc key entries ≫= f.
Proof.
  revert es. induction entries as [|[k v] entries IH]; intros es; simpl.
  - by intros [= <-].
  - destruct (f v) as [t|] eqn:Hv; simpl; [|done].
    destruct (mapM _ entries) as [es'|]; simpl; [|done].
    intros [= <-]. simpl. destruct (String.eqb key k); [simpl; by rewrite Hv|by apply IH].
Qed.

Lemma assoc_app_new {V} k (es : list (string * V)) t :
  assoc k es = None -> assoc k (es ++ [(k, t)]) = Some t.
Proof.
  induction es as [|[k0 t0] es IH]; cbn [assoc app].
  - by rewrite String.eqb_refl.
  - destruct (String.eqb k k0); [done|exact IH].
Qed.

Lemma dict_set_new k v (entries : list (string * val)) :
  has_key k entries = false -> dict_set k v entries = entries ++ [(k, v)].
Proof.
  unfold has_key. induction entries as [|[k' v'] entries IH]; simpl; [done|].
  destruct (String.eqb k k'); [done|].
  intros H. by rewrite IH.
Qed.

Lemma mapM_setdefault (f : val -> option tree) (entries : list (string * val))
    es key v tv :
  mapM (fun kv => pair (fst kv) <$> f (snd kv)) entries = Some es ->
  f v = Some tv ->
  mapM (fun kv => pair (fst kv) <$> f (snd kv)) (setdefault_entries key v entries)
  = Some (tree_setdefault key tv es).
Proof.
  intros Hes Hv. unfold setdefault_entries, tree_setdefault.
  pose proof (mapM_assoc f entries es key Hes) as Ha.
  assert (Hs : Forall (fun kv => is_Some (pair (fst kv) <$> f (snd kv))) entries).
  { apply (mapM_is_Some (fun kv => pair (fst kv) <$> f (snd kv))). by rewrite Hes. }
  unfold has_key at 1 2. rewrite Ha.
  destruct (assoc key entries) as [x|] eqn:Hx; simpl.
  - assert (Hfx : is_Some (f x)).
    { clear -Hs Hx. induction entries as [|[k v] entries IH]; simpl in *; [done|].
      apply Forall_cons in Hs as [[p Hp] Hs]. simpl in Hp.
      destruct (String.eqb key k).
      - injection Hx as <-. by destruct (f v).
      - by apply IH. }
    destruct Hfx as [t ->]. done.
  - rewrite dict_set_new by (unfold has_key; by rewrite Hx).
    apply mapM_snoc; [done|]. simpl. by rewrite Hv.
Qed.

(** The tree of a record that has been stamped in place. *)
Lemma reify_stamped now k h a entries es :
  reify (S k) h (VRef a) = Some (TDict es) ->
  h !! a = Some (ODict entries) ->
  reify (S k) (<[a := ODict (stamped now entries)]> h) (VRef a)
  = Some (stamped_tree now (TDict es)).
Proof.
  intros Ht Hcell.
  pose proof (reify_entries_without k h a _ entries (ODict (stamped now entries))
                Ht Hcell) as Hall.
  set (h' := <[a := ODict (stamped now entries)]> h) in *.
  assert (Hlt : (a < length h)%nat) by (by eapply lookup_lt_Some).
  rewrite reify_ref in Ht. rewrite Hcell in Ht.
  destruct (mapM _ entries) as [es0|] eqn:Hes; [|done]. injection Ht as ->.
  assert (Hes' : mapM (fun kv => pair (fst kv) <$> reify k h' (snd kv)) entries
                 = Some es).
  { rewrite <- Hes. apply mapM_agree. eapply Forall_impl; [exact Hall|].
    intros [k0 v] [E _]. simpl in *. by rewrite E. }
  rewrite reify_ref. unfold h'. rewrite list_lookup_insert_eq by done. fold h'.
  unfold stamped, stamped_tree.
  set (F := fun kv : string * val => pair (fst kv) <$> reify k h' (snd kv)).
  pose proof (mapM_setdefault (reify k h') entries es "created_at" (VStr now)
                (TStr now) Hes') as H1.
  assert (Hnow : reify k h' (VStr now) = Some (TStr now)) by (by destruct k).
  specialize (H1 Hnow).
  set (entries1 := setdefault_entries "created_at" (VStr now) entries) in *.
  set (es1 := tree_setdefault "created_at" (TStr now) es) in *.
  pose proof (mapM_assoc (reify k h') entries1 es1 "created_at" H1) as Hc.
  assert (Hhas : exists c, assoc "created_at" entries1 = Some c).
  { unfold entries1. rewrite assoc_setdefault_entries.
    destruct (assoc "created_at" entries); eauto. }
  destruct Hhas as [c Hcv]. rewrite Hcv in Hc. simpl in Hc.
  assert (Hct : exists tc, assoc "created_at" es1 = Some tc).
  { unfold es1, tree_setdefault, has_key.
    destruct (assoc "created_at" es) as [tc|] eqn:E; [eauto|].
    exists (TStr now). by apply assoc_app_new. }
  destruct Hct as [tc Htc]. rewrite Htc in Hc. symmetry in Hc. rewrite Hcv, Htc.
  change (default VNone (Some c)) with c. change (default TNone (Some tc)) with tc.
  unfold F.
  by rewrite (mapM_setdefault (reify k h') entries1 es1 "updated_at" c tc H1 Hc).
Qed.

(** ** A copy returns when the nesting is within the limit *)

Lemma copy_into_returns {K} k h (put : K -> val -> obj -> obj) y :
  (forall x t, reify k h x = Some t ->
     forall memo h', frame (length h) h h' -> exists r, deepcopy k x memo h' = Ok r) ->
  (length h <= y)%nat ->
  forall slots memo h',
    Forall (fun kv => is_Some (reify k h (snd kv))) slots ->
    frame (length h) h h' ->
    exists r, copy_into (deepcopy k) put y slots memo h' = Ok r.
Proof.
  intros IH Hy. induction slots as [|[k0 v] slots IHs]; intros memo h' Hall Hf; simpl.
  - eauto.
  - apply Forall_cons in Hall as [[t Ht] Hall]. simpl in Ht.
    destruct (IH v t Ht memo h' Hf) as [[[v' m'] h''] Hd]. rewrite Hd. simpl.
    apply IHs; [done|].
    pose proof (deepcopy_frame _ _ _ _ _ Hd) as Hf'. simpl in Hf'.
    eapply frame_trans; [exact Hf|].
    eapply frame_trans; [eapply frame_weaken; [|exact Hf']; apply Hf|].
    apply frame_alter. done.
Qed.

Lemma deepcopy_returns k h :
  forall x t, reify k h x = Some t ->
    forall memo h', frame (length h) h h' -> exists r, deepcopy k x memo h' = Ok r.
Proof.
  induction k as [|k IH]; intros x t Ht memo h' Hf.
  - destruct x; simpl in *; eauto. done.
  - destruct x as [| | | |a]; simpl deepcopy; eauto.
    destruct (memo_get a memo); [eauto|].
    rewrite reify_ref in Ht.
    destruct (h !! a) as [o|] eqn:Hcell; [|done].
    assert (Hlt : (a < length h)%nat) by (by eapply lookup_lt_Some).
    destruct Hf as [HL HE]. rewrite (HE a Hlt), Hcell.
    assert (Hf1 : forall o0, frame (length h) h (h' ++ [o0])).
    { intros o0. split; [rewrite length_app; lia|].
      intros b Hb. rewrite lookup_app_l by lia. by apply HE. }
    destruct o as [entries|items].
    + destruct (mapM _ entries) as [es|] eqn:Hes; [|done].
      assert (Hs : Forall (fun kv => is_Some (reify k h (snd kv))) entries).
      { assert (Hs : Forall (fun kv => is_Some (pair (fst kv) <$> reify k h (snd kv)))
                       entries).
        { apply (mapM_is_Some (fun kv => pair (fst kv) <$> reify k h (snd kv))).
          by rewrite Hes. }
        eapply Forall_impl; [exact Hs|]. intros [k0 v] [p Hp]. simpl in *.
        apply fmap_pair_Some in Hp as (tv & -> & _). eauto. }
      destruct (copy_into_returns k h put_entry (length h') IH HL entries
                  ((a, length h') :: memo) (h' ++ [ODict []]) Hs (Hf1 _)) as [r ->].
      simpl. eauto.
    + destruct (mapM _ items) as [ts|] eqn:Hts; [|done].
      assert (Hs : Forall (fun kv : unit * val => is_Some (reify k h (snd kv)))
                     (map (fun v => (tt, v)) items)).
      { apply Forall_map. simpl. apply (mapM_is_Some (reify k h)). by rewrite Hts. }
      destruct (copy_into_returns k h put_item (length h') IH HL _
                  ((a, length h') :: memo) (h' ++ [OList []]) Hs (Hf1 _)) as [r ->].
      simpl. eauto.
Qed.

End TreeFacts.

Module RoundTrip.

Import Storage Ownership StorageFacts CopyFacts StoreView StoreViewFacts TreeFacts.

Section Stored.

Variable limit : nat.

(** [create_run] returns for a dictionary with a new, non-empty string for
    ["run_id"] that [copy.deepcopy] can copy. *)
Lemma create_run_returns K now run w entries run_id r :
  sep K w -> heap w !! run = Some (ODict entries) ->
  assoc "run_id" entries = Some (VStr run_id) -> run_id <> EmptyString ->
  _runs w !! Some (inl run_id) = None ->
  deepcopy limit (VRef run) [] (heap w) = Ok r ->
  exists w', create_run limit now run w = (Ok tt, w').
Proof.
  intros Hw Hcell Hrid Hne Hnew Hd.
  unfold create_run, run_id_missing.
  unfold and_then, reading, pure, raise, contains, getitem. cbn beta.
  rewrite Hcell. unfold has_key, subscript. rewrite Hrid. cbn [negb].
  rewrite Hcell, Hrid.
  assert (Htrue : truthy (heap w) (VStr run_id) = true) by (by destruct run_id).
  rewrite Htrue. cbn [negb]. rewrite Hcell, Hrid. cbn [hash_key].
  rewrite Hnew. simpl.
  pose proof (deepcopy_call_dict limit K w run entries Hw Hcell) as Hcopy.
  destruct (deepcopy_call limit (VRef run) w) as [[y|e] w1] eqn:Hcall.
  2: { unfold deepcopy_call in Hcall. rewrite Hd in Hcall.
       by destruct r as [[? ?] ?]. }
  destruct Hcopy as (-> & Hruns & Hf & Hw1 & Hny & Hgrow & memo & entries1 & Hy & Hrel
                     & Hsame).
  cbn [as_ref pure].
  set (y := length (heap w)) in *.
  rewrite (setdefault_lookup y _ _ _ _ Hy).
  set (entries2 := setdefault_entries "created_at" (VStr now) entries1).
  assert (Hy2 : <[y := ODict entries2]> (heap w1) !! y = Some (ODict entries2))
    by (by apply list_lookup_insert_eq).
  rewrite Hy2.
  assert (Hc : exists c, assoc "created_at" entries2 = Some c).
  { unfold entries2. rewrite assoc_setdefault_entries.
    destruct (assoc "created_at" entries1); eauto. }
  destruct Hc as [c Hc]. rewrite Hc.
  rewrite (setdefault_lookup y _ _ _ _ Hy2).
  rewrite list_insert_insert_eq.
  rewrite list_lookup_insert_eq by done.
  pose proof (slots_rel_assoc memo entries entries1 "run_id" Hrel) as Hr.
  rewrite Hrid in Hr.
  destruct (assoc "run_id" entries1) as [rid1|] eqn:Hrid1; [|done].
  simpl in Hr. subst rid1.
  assert (Hrid3 : assoc "run_id" (setdefault_entries "updated_at" c entries2)
                  = Some (VStr run_id)).
  { unfold entries2. rewrite !assoc_setdefault_entries. by rewrite Hrid1. }
  rewrite Hrid3. cbn. eauto.
Qed.

End Stored.

End RoundTrip.

Module StoreRoundTrip.

Import Storage Ownership StorageFacts CopyFacts StoreView StoreViewFacts TreeFacts
  RoundTrip.

(** X24.  [create_run] and then [get_run] give back the record with its time
    stamps.  For a record that shows as a tree nested no deeper than the
    recursion limit allows, with a non-empty string for ["run_id"] that is
    not stored yet, [create_run] returns, and [get_run] of that id then
    returns a record that shows as the same tree with ["created_at"] and
    ["updated_at"] added at the end where the record did not have them. *)
Theorem create_run_then_get_run limit c now run run_id es :
  reachable limit c ->
  reify limit (heap (st c)) (VRef run) = Some (TDict es) ->
  assoc "run_id" es = Some (TStr run_id) ->
  run_id <> EmptyString ->
  _runs (st c) !! Some (inl run_id) = None ->
  exists w' y w'',
    create_run limit now run (st c) = (Ok tt, w')
    /\ get_run limit run_id w' = (Ok y, w'')
    /\ reify limit (heap w'') y = Some (stamped_tree now (TDict es)).
Proof.
  intros Hc Ht Hrid Hne Hnew.
  destruct c as [w K]. simpl in *.
  pose proof (reachable_separated limit _ Hc) as Hw. fold (sep K w) in Hw.
  destruct limit as [|k] eqn:Hlim; [done|]. rewrite <- Hlim in *.
  assert (Ht' : reify (S k) (heap w) (VRef run) = Some (TDict es)) by (by rewrite <- Hlim).
  rewrite reify_ref in Ht'.
  destruct (heap w !! run) as [[entries|items]|] eqn:Hcell; [| |done].
  2: { by destruct (mapM _ items). }
  destruct (mapM _ entries) as [es0|] eqn:Hes; [|done]. injection Ht' as ->.
  assert (Hrid' : assoc "run_id" entries = Some (VStr run_id)).
  { pose proof (mapM_assoc (reify k (heap w)) entries es "run_id" Hes) as Ha.
    rewrite Hrid in Ha. destruct (assoc "run_id" entries) as [v|]; [|done].
    simpl in Ha. f_equal. destruct v as [| | |s|a]; try (by destruct k).
    - destruct k; simpl in Ha; congruence.
    - destruct k as [|k']; [done|]. rewrite reify_ref in Ha.
      destruct (heap w !! a) as [[e1|i1]|]; [| |done].
      + by destruct (mapM _ e1).
      + by destruct (mapM _ i1). }
  destruct (deepcopy_returns limit (heap w) (VRef run) _ Ht [] (heap w)
              (frame_refl _ _)) as [r Hd].
  destruct (create_run_returns limit K now run w entries run_id r Hw Hcell Hrid' Hne
              Hnew Hd) as [w' Hcreate].
  pose proof (create_run_outcome limit K now run w Hw) as Hout.
  pose proof (create_run_sep limit K now run w Hw) as Hw'.
  rewrite Hcreate in Hout, Hw'. simpl in Hw'.
  destruct Hout as (entries' & rid & key & memo & h1 & entries1 & Hcell' & Hrid2 & _
                    & Hkey & _ & Hruns & [HL HE] & Hgrow & _ & Hy & _ & Hsame & Hheap).
  rewrite Hcell in Hcell'. injection Hcell' as <-.
  rewrite Hrid' in Hrid2. injection Hrid2 as <-. simpl in Hkey. injection Hkey as <-.
  set (y := length (heap w)) in *.
  assert (Hshow : reify limit (heap w') (VRef y) = Some (stamped_tree now (TDict es))).
  { rewrite Hheap, Hlim. apply reify_stamped; [|done].
    rewrite <- Hlim, Hsame. done. }
  assert (Hrun : _runs w' !! Some (inl run_id) = Some y).
  { by rewrite Hruns, lookup_insert_eq. }
  assert (Htrue : truthy (heap w') (VRef y) = true).
  { simpl. rewrite Hheap, list_lookup_insert_eq by done.
    assert (Hu : has_key "updated_at" (stamped now entries1) = true).
    { unfold stamped, has_key. rewrite assoc_setdefault_entries.
      by destruct (assoc "updated_at" _). }
    by destruct (stamped now entries1). }
  destruct (deepcopy_returns limit (heap w') (VRef y) _ Hshow [] (heap w')
              (frame_refl _ _)) as [[[y' m'] h''] Hd'].
  pose proof (get_run_content limit K w' run_id y Hw' Hrun Htrue) as Hcont.
  assert (Hget : get_run limit run_id w' = (Ok y', State h'' (_runs w'))).
  { unfold get_run. rewrite Hrun, Htrue. unfold deepcopy_call. by rewrite Hd'. }
  rewrite Hget in Hcont. destruct Hcont as (_ & _ & _ & Hsame').
  exists w', y', (State h'' (_runs w')). split; [done|]. split; [done|].
  by rewrite Hsame'.
Qed.

Lemma create_run_then_get_run_witness :
  exists w' y w'',
    create_run 10 "t0" 2%nat (st sample_built) = (Ok tt, w')
    /\ get_run 10 "r1" w' = (Ok y, w'')
    /\ reify 10 (heap w'') y
       = Some (TDict [("run_id", TStr "r1"); ("status", TStr "active");
                      ("history", TList []); ("answers_by_id", TDict []);
                      ("summary", TNone); ("created_at", TStr "t0");
                      ("updated_at", TStr "t0")]).
Proof.
  apply (create_run_then_get_run 10 sample_built "t0" 2%nat "r1"
           [("run_id", TStr "r1"); ("status", TStr "active");
            ("history", TList []); ("answers_by_id", TDict []);
            ("summary", TNone)]
           StoreProperties.sample_built_reachable).
  - vm_compute. reflexivity.
  - reflexivity.
  - discriminate.
  - reflexivity.
Defined.

End StoreRoundTrip.

(** * The run store: [update_run] *)

Module UpdateFacts.

Import Storage Ownership StorageFacts CopyFacts StoreView StoreViewFacts.







End UpdateFacts.

Module StoreUpdates.

Import Storage Ownership StorageFacts CopyFacts StoreView StoreViewFacts
  StoreInvariants UpdateFacts.



End StoreUpdates.

(** * Fetching a run for an endpoint *)

Module RunsReadProperties.

Import Survey Storage Ownership StorageFacts CopyFacts StoreView StoreViewFacts
  StoreInvariants RunsRead.

(** X26.  [_require_run] raises [HTTPException] 404 [UNKNOWN_RUN], with the meta
    block, for the ids that are not stored and for no other, and leaves the
    store as it was.  For a stored id it hands out a new object that shows
    as the stored record does, with [_runs] and the objects that existed
    unchanged; the one exception it can raise then is the [RecursionError]
    of the copy. *)
Theorem require_run_answers v limit c now run_id :
  reachable limit c ->
  match _runs (st c) !! Some (inl run_id) with
  | None =>
      _require_run v limit now run_id (st c)
      = (Err (HTTPException 404 UNKNOWN_RUN ("Run '" +:+ run_id +:+ "' not found.")
                (Some (build_meta v now))),
         st c)
  | Some record =>
      match _require_run v limit now run_id (st c) with
      | (Ok y, w') =>
          y = VRef (length (heap (st c)))
          /\ _runs w' = _runs (st c)
          /\ frame (length (heap (st c))) (heap (st c)) (heap w')
          /\ forall fuel,
               reify fuel (heap w') y = reify fuel (heap (st c)) (VRef record)
      | (Err e, w') => e = RecursionError /\ w' = st c
      end
  end.
Proof.
  intros Hc. destruct c as [w K]. cbn [st] in *.
  pose proof (reachable_separated limit _ Hc) as Hw. fold (sep K w) in Hw.
  pose proof (reachable_well_filed limit _ Hc) as Hf. cbn [st] in Hf.
  unfold _require_run, and_then.
  destruct (_runs w !! Some (inl run_id)) as [record|] eqn:Hrun.
  - destruct (Hf _ _ Hrun) as (entries & rid & Hcell & Hrid & _).
    assert (Htrue : truthy (heap w) (VRef record) = true).
    { simpl. rewrite Hcell. by destruct entries. }
    pose proof (get_run_content limit K w run_id record Hw Hrun Htrue) as Hcont.
    destruct (get_run limit run_id w) as [[y|e] w']; [|done].
    destruct Hcont as (-> & Hrest). done.
  - unfold get_run. rewrite Hrun. reflexivity.
Qed.

Lemma require_run_answers_witness :
  _require_run "v1" 10 "t" "r2" (st sample_stored)
  = (Err (HTTPException 404 UNKNOWN_RUN "Run 'r2' not found."
            (Some (build_meta "v1" "t"))),
     st sample_stored).
Proof.
  exact (require_run_answers "v1" 10 sample_stored "t" "r2"
           StoreProperties.sample_stored_reachable).
Defined.

End RunsReadProperties.
